(** * LIB_POLYLINE: the editable polyline of the symbol editor

    A shallow embedding of [eeschema/lib_polyline.cpp].

    Conventions of the embedding.
    - [int] values are mathematical integers ([Z]).  Signed arithmetic is
      checked: C++ leaves signed overflow undefined, so an operation whose
      exact result does not fit in 32 bits has no result ([None]).
    - [size_t] arithmetic wraps modulo [2^64]; the conversion of a [size_t]
      to [int] keeps the low 32 bits (two's complement).
    - [std::vector<wxPoint>] is a [list wxPoint].  Element access outside
      [0 .. size-1], [back]/[pop_back] on an empty vector, [insert] past the
      end and [erase] outside the vector are undefined in C++ and have no
      result ([None]).
    - A loop counter is a natural number: the 32-bit counters of the source
      do not wrap on vectors of fewer than [2^31] elements.
    - A member function is a function from the object before the call to
      the object after it (with the returned value when there is one), in
      the option monad: [None] stands for undefined behaviour. *)

From stdpp Require Import base numbers option list.

Local Open Scope Z_scope.

(** ** Machine integers *)

Module Int.

Definition INT_MIN : Z := -2147483648.
Definition INT_MAX : Z := 2147483647.

Definition in_range (z : Z) : Prop := INT_MIN ≤ z ≤ INT_MAX.

Global Instance in_range_dec z : Decision (in_range z).
Proof. unfold in_range. apply _. Defined.

(** The value of an [int] expression whose exact result is [z]. *)
Definition chk (z : Z) : option Z :=
  if decide (in_range z) then Some z else None.

Definition add (a b : Z) : option Z := chk (a + b).
Definition sub (a b : Z) : option Z := chk (a - b).
Definition mul (a b : Z) : option Z := chk (a * b).
Definition neg (a : Z) : option Z := chk (- a).

(** [a / b] for a non-zero constant [b]: truncation toward zero. *)
Definition div (a b : Z) : Z := a ÷ b.

End Int.

Module SizeT.

Definition modulus : Z := 18446744073709551616.

(** Unsigned subtraction of two [size_t] values. *)
Definition sub (a b : Z) : Z := (a - b) `mod` modulus.

(** Conversion of a [size_t] to [int]: the low 32 bits, read as a signed
    two's-complement number. *)
Definition to_int (u : Z) : Z :=
  let r := u `mod` 4294967296 in
  if decide (r < 2147483648) then r else r - 4294967296.

End SizeT.

(** ** Points *)

Record wxPoint : Type := mkPoint { x : Z; y : Z }.

Global Instance wxPoint_eq_dec : EqDecision wxPoint.
Proof. solve_decision. Defined.

(** Both coordinates are representable as [int]. *)
Definition int_point (p : wxPoint) : Prop :=
  Int.in_range (x p) ∧ Int.in_range (y p).

(** [wxPoint::operator+] and [wxPoint::operator-]: componentwise. *)
Definition pt_add (a b : wxPoint) : option wxPoint :=
  rx ← Int.add (x a) (x b);
  ry ← Int.add (y a) (y b);
  Some (mkPoint rx ry).

Definition pt_sub (a b : wxPoint) : option wxPoint :=
  rx ← Int.sub (x a) (x b);
  ry ← Int.sub (y a) (y b);
  Some (mkPoint rx ry).

(** ** std::vector *)

Section Vector.
Context {A : Type}.
Implicit Types (v : list A) (i : Z).

Definition vec_size v : Z := Z.of_nat (length v).

(** [v[i]] *)
Definition vec_at v i : option A :=
  if decide (0 ≤ i) then v !! Z.to_nat i else None.

(** [v[i] = a] *)
Definition vec_set v i (a : A) : option (list A) :=
  if decide (0 ≤ i < vec_size v) then Some (<[Z.to_nat i := a]> v) else None.

(** [v.insert( v.begin() + i, a )] *)
Definition vec_insert v i (a : A) : option (list A) :=
  if decide (0 ≤ i ≤ vec_size v)
  then Some (take (Z.to_nat i) v ++ a :: drop (Z.to_nat i) v)
  else None.

(** [v.erase( v.begin() + i )] *)
Definition vec_erase v i : option (list A) :=
  if decide (0 ≤ i < vec_size v) then Some (delete (Z.to_nat i) v) else None.

(** [v.back()] *)
Definition vec_back v : option A := last v.

(** [v.pop_back()] *)
Definition vec_pop_back v : option (list A) :=
  match v with
  | [] => None
  | _ => Some (take (length v - 1)%nat v)
  end.

(** [v.push_back( a )] *)
Definition vec_push_back v (a : A) : list A := v ++ [a].

End Vector.

(** ** LIB_POLYLINE::compare *)

(** The loop of [compare], [i] running over [idxs].  (The assertion on the
    type of [aOther] is about the class hierarchy and has no counterpart
    here.) *)
Fixpoint compare_loop (this other : list wxPoint) (idxs : list nat) : option Z :=
  match idxs with
  | [] => Some 0
  | i :: rest =>
      p ← this !! i;
      q ← other !! i;
      if decide (x p ≠ x q) then Int.sub (x p) (x q)
      else if decide (y p ≠ y q) then Int.sub (y p) (y q)
      else compare_loop this other rest
  end.

Definition compare (this other : list wxPoint) : option Z :=
  if decide (vec_size this ≠ vec_size other)
  then Some (SizeT.to_int (SizeT.sub (vec_size this) (vec_size other)))
  else compare_loop this other (seq 0 (length this)).

(** ** LIB_POLYLINE::MirrorHorizontal *)

(** The loop body: [x -= c.x; x *= -1; x += c.x]. *)
Definition mirror_x (aCenter p : wxPoint) : option wxPoint :=
  x1 ← Int.sub (x p) (x aCenter);
  x2 ← Int.mul x1 (-1);
  x3 ← Int.add x2 (x aCenter);
  Some (mkPoint x3 (y p)).

Definition MirrorHorizontal (aCenter : wxPoint) (pts : list wxPoint)
  : option (list wxPoint) :=
  mapM (mirror_x aCenter) pts.

Module UInt.

Definition modulus : Z := 4294967296.

(** Subtraction of two [unsigned] values. *)
Definition sub (a b : Z) : Z := (a - b) `mod` modulus.

End UInt.

(** ** Collaborators

    What [lib_polyline.cpp] uses and does not define: constants and
    helpers of the base classes ([base_struct.h], [lib_draw_item.h]), of
    the geometry kernel ([trigo.h]), the rectangle class ([eda_rect.h]) and
    the coordinate transform ([transform.h]).  The polyline is verified
    against any implementation of them. *)

(** The members that [LIB_POLYLINE] inherits from [LIB_ITEM]. *)
Record LIB_ITEM : Type := mkItem {
  m_Flags : Z;
  m_initialPos : wxPoint;
  m_initialCursorPos : wxPoint
}.

Class Host : Type := {
  (** [GetDefaultLineThickness()] *)
  GetDefaultLineThickness : Z;
  MINIMUM_SELECTION_DISTANCE : Z;
  (** status flags *)
  IS_NEW : Z;
  IS_RESIZED : Z;
  IS_MOVED : Z;
  STRUCT_DELETED : Z;
  SKIP_STRUCT : Z;
  (** [IsNew()], [IsResized()] and [IsMoving()], as functions of [m_Flags] *)
  IsNew : Z → bool;
  IsResized : Z → bool;
  IsMoving : Z → bool;
  (** [LIB_ITEM::BeginEdit] and [LIB_ITEM::EndEdit]: the base class part of
      the object after the call *)
  LIB_ITEM_BeginEdit : Z → wxPoint → LIB_ITEM → LIB_ITEM;
  LIB_ITEM_EndEdit : wxPoint → LIB_ITEM → LIB_ITEM;
  (** [DefaultTransform.TransformCoordinate( p )] *)
  TransformCoordinate : wxPoint → wxPoint;
  (** [TestSegmentHit( aRefPoint, aStart, aEnd, aDist )] *)
  TestSegmentHit : wxPoint → wxPoint → wxPoint → Z → bool;
  (** [(int) DistanceLinePoint( a, b, p )] *)
  DistanceLinePoint : wxPoint → wxPoint → wxPoint → Z;
  DistanceLinePoint_int : ∀ a b p, Int.in_range (DistanceLinePoint a b p);
  (** [EDA_RECT]: the default-constructed rectangle and the member
      functions that the polyline calls *)
  EDA_RECT : Type;
  EDA_RECT_new : EDA_RECT;
  SetOrigin : EDA_RECT → Z → Z → EDA_RECT;
  SetEnd : EDA_RECT → Z → Z → EDA_RECT;
  Inflate : EDA_RECT → Z → EDA_RECT;
  RevertYAxis : EDA_RECT → EDA_RECT;
  Contains : EDA_RECT → wxPoint → bool;
  ContainsRect : EDA_RECT → EDA_RECT → bool;
  Intersects : EDA_RECT → EDA_RECT → bool;
  IntersectsSegment : EDA_RECT → wxPoint → wxPoint → bool
}.

(** ** The polyline object *)

Record LIB_POLYLINE : Type := mkPolyline {
  item : LIB_ITEM;
  m_Width : Z;
  m_PolyPoints : list wxPoint;
  m_ModifyIndex : Z
}.

Definition set_item (st : LIB_POLYLINE) (it : LIB_ITEM) : LIB_POLYLINE :=
  mkPolyline it (m_Width st) (m_PolyPoints st) (m_ModifyIndex st).

Definition set_flags (st : LIB_POLYLINE) (f : Z) : LIB_POLYLINE :=
  set_item st (mkItem f (m_initialPos (item st)) (m_initialCursorPos (item st))).

Definition set_initialPos (st : LIB_POLYLINE) (p : wxPoint) : LIB_POLYLINE :=
  set_item st (mkItem (m_Flags (item st)) p (m_initialCursorPos (item st))).

Definition set_initialCursorPos (st : LIB_POLYLINE) (p : wxPoint) : LIB_POLYLINE :=
  set_item st (mkItem (m_Flags (item st)) (m_initialPos (item st)) p).

Definition set_points (st : LIB_POLYLINE) (pts : list wxPoint) : LIB_POLYLINE :=
  mkPolyline (item st) (m_Width st) pts (m_ModifyIndex st).

Definition set_ModifyIndex (st : LIB_POLYLINE) (i : Z) : LIB_POLYLINE :=
  mkPolyline (item st) (m_Width st) (m_PolyPoints st) i.

(** Modelled from the spec: [GetCornerCount] and [GetWidth] are defined in
    the header [lib_polyline.h], not in [lib_polyline.cpp]; they are the
    corner count and the stroke width of the shape. *)
Definition GetCornerCount (st : LIB_POLYLINE) : Z := vec_size (m_PolyPoints st).
Definition GetWidth (st : LIB_POLYLINE) : Z := m_Width st.

Section Polyline.
Context `{Host}.

Definition GetPenSize (st : LIB_POLYLINE) : Z :=
  if decide (0 < m_Width st) then m_Width st
  else if decide (m_Width st = 0) then GetDefaultLineThickness
  else -1.

(** *** Offset, MoveTo, AddPoint, RemoveCorner *)

Definition Offset (aOffset : wxPoint) (st : LIB_POLYLINE) : option LIB_POLYLINE :=
  pts ← mapM (λ p, pt_add p aOffset) (m_PolyPoints st);
  Some (set_points st pts).

Definition MoveTo (aPosition : wxPoint) (st : LIB_POLYLINE) : option LIB_POLYLINE :=
  v0 ← vec_at (m_PolyPoints st) 0;
  d ← pt_sub aPosition v0;
  Offset d st.

Definition AddPoint (aPosition : wxPoint) (st : LIB_POLYLINE) : LIB_POLYLINE :=
  set_points st (vec_push_back (m_PolyPoints st) aPosition).

Definition RemoveCorner (aIdx : Z) (st : LIB_POLYLINE) : option LIB_POLYLINE :=
  pts ← vec_erase (m_PolyPoints st) aIdx;
  Some (set_points st pts).

(** *** AddCorner *)

(** The loop of [AddCorner]: [i] is the counter, [bound] the value of
    [m_PolyPoints.size() - 1], the result is [closestLineStart].  Every
    iteration reads [m_PolyPoints[i]] and [m_PolyPoints[i + 1]], so the
    loop ends after at most [size] iterations, by its condition or by a
    read outside the vector; [fuel] counts the iterations left. *)
Fixpoint AddCorner_loop (pts : list wxPoint) (aPosition : wxPoint) (bound : Z)
    (fuel : nat) (i : nat) (currentMinDistance closestLineStart : Z) : option Z :=
  if decide (Z.of_nat i < bound) then
    match fuel with
    | O => None
    | S fuel' =>
        a ← pts !! i;
        b ← pts !! S i;
        let distance := DistanceLinePoint a b aPosition in
        if decide (distance < currentMinDistance)
        then AddCorner_loop pts aPosition bound fuel' (S i) distance (Z.of_nat i)
        else AddCorner_loop pts aPosition bound fuel' (S i)
               currentMinDistance closestLineStart
    end
  else Some closestLineStart.

Definition closestLineStart (pts : list wxPoint) (aPosition : wxPoint) : option Z :=
  AddCorner_loop pts aPosition (SizeT.sub (vec_size pts) 1)
    (S (length pts)) 0 Int.INT_MAX 0.

Definition AddCorner (aPosition : wxPoint) (st : LIB_POLYLINE) : option LIB_POLYLINE :=
  c ← closestLineStart (m_PolyPoints st) aPosition;
  pts ← vec_insert (m_PolyPoints st) c aPosition;
  Some (set_points st pts).

(** *** HitTest( const wxPoint&, int ) *)

Definition mindist (st : LIB_POLYLINE) (aAccuracy : Z) : option Z :=
  s ← Int.add aAccuracy (Int.div (GetPenSize st) 2);
  Some (Z.max s MINIMUM_SELECTION_DISTANCE).

Fixpoint HitTest_point_loop (pts : list wxPoint) (aPosition : wxPoint) (md : Z)
    (idxs : list nat) : option bool :=
  match idxs with
  | [] => Some false
  | ii :: rest =>
      a ← pts !! (ii - 1)%nat;
      b ← pts !! ii;
      if TestSegmentHit aPosition (TransformCoordinate a) (TransformCoordinate b) md
      then Some true
      else HitTest_point_loop pts aPosition md rest
  end.

Definition HitTest_point (st : LIB_POLYLINE) (aPosition : wxPoint) (aAccuracy : Z)
  : option bool :=
  md ← mindist st aAccuracy;
  HitTest_point_loop (m_PolyPoints st) aPosition md
    (seq 1 (Z.to_nat (GetCornerCount st) - 1)).

(** *** GetBoundingBox *)

Record extent : Type := mkExtent { xmin : Z; xmax : Z; ymin : Z; ymax : Z }.

Fixpoint GetBoundingBox_loop (pts : list wxPoint) (e : extent) (idxs : list nat)
  : option extent :=
  match idxs with
  | [] => Some e
  | ii :: rest =>
      p ← pts !! ii;
      GetBoundingBox_loop pts
        (mkExtent (Z.min (xmin e) (x p)) (Z.max (xmax e) (x p))
                  (Z.min (ymin e) (y p)) (Z.max (ymax e) (y p))) rest
  end.

Definition GetBoundingBox (st : LIB_POLYLINE) : option EDA_RECT :=
  p0 ← vec_at (m_PolyPoints st) 0;
  e ← GetBoundingBox_loop (m_PolyPoints st)
         (mkExtent (x p0) (x p0) (y p0) (y p0))
         (seq 1 (Z.to_nat (GetCornerCount st) - 1));
  pen1 ← Int.add (GetPenSize st) 1;
  let rect := SetOrigin EDA_RECT_new (xmin e) (ymin e) in
  let rect := SetEnd rect (xmax e) (ymax e) in
  let rect := Inflate rect (Int.div pen1 2) in
  Some (RevertYAxis rect).

(** *** HitTest( const EDA_RECT&, bool, int ) *)

Fixpoint HitTest_rect_loop (pts : list wxPoint) (sel : EDA_RECT) (count : Z)
    (idxs : list nat) : option bool :=
  match idxs with
  | [] => Some false
  | ii :: rest =>
      p ← vec_at pts (Z.of_nat ii);
      n ← vec_at pts (Z.rem (Z.of_nat ii + 1) count);
      let pt := TransformCoordinate p in
      let ptNext := TransformCoordinate n in
      if Contains sel pt then Some true
      else if IntersectsSegment sel pt ptNext then Some true
      else HitTest_rect_loop pts sel count rest
  end.

Definition HitTest_rect (st : LIB_POLYLINE) (aRect : EDA_RECT)
    (aContained : bool) (aAccuracy : Z) : option bool :=
  if decide (Z.land (m_Flags (item st)) (Z.lor STRUCT_DELETED SKIP_STRUCT) ≠ 0)
  then Some false
  else
    let sel := if decide (aAccuracy ≠ 0) then Inflate aRect aAccuracy else aRect in
    if aContained then
      bb ← GetBoundingBox st;
      Some (ContainsRect sel bb)
    else
      bb ← GetBoundingBox st;
      if negb (Intersects sel bb) then Some false
      else
        let sel := Inflate sel (Int.div (GetWidth st) 2) in
        let count := SizeT.to_int (vec_size (m_PolyPoints st)) in
        HitTest_rect_loop (m_PolyPoints st) sel count (seq 0 (Z.to_nat count)).

(** *** DeleteSegment *)

(** One iteration pops a vertex, so [fuel] = the number of vertices is
    enough. *)
Fixpoint DeleteSegment_loop (aPosition : wxPoint) (fuel : nat) (pts : list wxPoint)
  : option (list wxPoint) :=
  if decide (2 < vec_size pts) then
    match fuel with
    | O => None
    | S fuel' =>
        pts1 ← vec_pop_back pts;
        last1 ← vec_at pts1 (UInt.sub (vec_size pts1) 1);
        if decide (last1 ≠ aPosition)
        then vec_set pts1 (UInt.sub (vec_size pts1) 1) aPosition
        else DeleteSegment_loop aPosition fuel' pts1
    end
  else Some pts.

Definition DeleteSegment (aPosition : wxPoint) (st : LIB_POLYLINE)
  : option LIB_POLYLINE :=
  pts ← DeleteSegment_loop aPosition (length (m_PolyPoints st)) (m_PolyPoints st);
  Some (set_points st pts).

(** *** BeginEdit *)

(** [(a - b).x * (a - b).x + (a - b).y * (a - b).y] *)
Definition sqdist (aPosition point : wxPoint) : option Z :=
  d ← pt_sub aPosition point;
  xx ← Int.mul (x d) (x d);
  yy ← Int.mul (y d) (y d);
  Int.add xx yy.

(** The distance to the middle of the edge from [prevPoint] to [point]:
    [offset = aPosition + aPosition - point - prevPoint] and
    [( offset.x * offset.x + offset.y * offset.y ) / 4 + 1]. *)
Definition middist (aPosition point prevPoint : wxPoint) : option Z :=
  o1 ← pt_add aPosition aPosition;
  o2 ← pt_sub o1 point;
  offset ← pt_sub o2 prevPoint;
  xx ← Int.mul (x offset) (x offset);
  yy ← Int.mul (y offset) (y offset);
  s ← Int.add xx yy;
  Int.add (Int.div s 4) 1.

(** The variables of the search loop of [BeginEdit]. *)
Record search : Type := mkSearch {
  index : Z;
  prevPoint : wxPoint;
  s_initialPos : wxPoint;
  s_ModifyIndex : Z;
  distanceMin : Z
}.

(** The test on the vertex [point]. *)
Definition search_vertex (aPosition point : wxPoint) (s : search) : option search :=
  distancePoint ← sqdist aPosition point;
  if decide (distancePoint < distanceMin s)
  then Some (mkSearch (index s) (prevPoint s) point (index s) distancePoint)
  else Some s.

(** The test on the middle of the edge that ends at [point]. *)
Definition search_middle (aPosition point : wxPoint) (s : search) : option search :=
  distancePoint ← middist aPosition point (prevPoint s);
  if decide (distancePoint < distanceMin s)
  then
    neg_index ← Int.neg (index s);
    Some (mkSearch (index s) (prevPoint s) point neg_index distancePoint)
  else Some s.

(** One iteration of [for( wxPoint point : m_PolyPoints )]. *)
Definition search_step (aPosition point : wxPoint) (s : search) : option search :=
  s1 ← search_vertex aPosition point s;
  s2 ← search_middle aPosition point s1;
  next ← Int.add (index s2) 1;
  Some (mkSearch next point (s_initialPos s2) (s_ModifyIndex s2) (distanceMin s2)).

Fixpoint search_loop (aPosition : wxPoint) (s : search) (pts : list wxPoint)
  : option search :=
  match pts with
  | [] => Some s
  | point :: rest =>
      s' ← search_step aPosition point s;
      search_loop aPosition s' rest
  end.

(** The state of the search when the loop is entered. *)
Definition search_init (aPosition startPoint : wxPoint) : option search :=
  d ← sqdist aPosition startPoint;
  Some (mkSearch 0 startPoint startPoint 0 d).

(** The [IS_RESIZED] branch of [BeginEdit]: the search for the vertex, or
    the middle of an edge, that is nearest to [aPosition]. *)
Definition nearest_point (aPosition : wxPoint) (pts : list wxPoint) : option search :=
  startPoint ← vec_at pts 0;
  s0 ← search_init aPosition startPoint;
  search_loop aPosition s0 pts.

Definition BeginEdit (aEditMode : Z) (aPosition : wxPoint) (st : LIB_POLYLINE)
  : option LIB_POLYLINE :=
  let st := set_item st (LIB_ITEM_BeginEdit aEditMode aPosition (item st)) in
  if decide (aEditMode = IS_NEW) then
    Some (AddPoint aPosition (AddPoint aPosition st))
  else if decide (aEditMode = IS_RESIZED) then
    s ← nearest_point aPosition (m_PolyPoints st);
    Some (set_ModifyIndex (set_initialPos st (s_initialPos s)) (s_ModifyIndex s))
  else if decide (aEditMode = IS_MOVED) then
    v0 ← vec_at (m_PolyPoints st) 0;
    Some (set_initialPos (set_initialCursorPos st aPosition) v0)
  else Some st.

(** *** ContinueEdit *)

Definition ContinueEdit (aPosition : wxPoint) (st : LIB_POLYLINE)
  : option (bool * LIB_POLYLINE) :=
  if IsNew (m_Flags (item st)) then
    a ← vec_at (m_PolyPoints st) (SizeT.sub (vec_size (m_PolyPoints st)) 2);
    b ← vec_back (m_PolyPoints st);
    if decide (a ≠ b)
    then Some (true, set_points st (vec_push_back (m_PolyPoints st) aPosition))
    else Some (true, st)
  else Some (false, st).

(** *** EndEdit *)

(** [if( m_Flags == IS_NEW && 2 < m_PolyPoints.size() ) ...] *)
Definition EndEdit_new (st : LIB_POLYLINE) : option LIB_POLYLINE :=
  if decide (m_Flags (item st) = IS_NEW ∧ 2 < vec_size (m_PolyPoints st)) then
    a ← vec_at (m_PolyPoints st) (SizeT.sub (vec_size (m_PolyPoints st)) 2);
    b ← vec_back (m_PolyPoints st);
    if decide (a = b)
    then pts ← vec_pop_back (m_PolyPoints st); Some (set_points st pts)
    else Some st
  else Some st.

(** [m_ModifyIndex > 0 && m_PolyPoints[ m_ModifyIndex ] ==
    m_PolyPoints[ m_ModifyIndex - 1 ]] *)
Definition equals_left (st : LIB_POLYLINE) : option bool :=
  if decide (m_ModifyIndex st > 0) then
    a ← vec_at (m_PolyPoints st) (m_ModifyIndex st);
    b ← vec_at (m_PolyPoints st) (m_ModifyIndex st - 1);
    Some (bool_decide (a = b))
  else Some false.

(** [m_ModifyIndex < (int) m_PolyPoints.size() - 1 &&
    m_PolyPoints[ m_ModifyIndex ] == m_PolyPoints[ m_ModifyIndex + 1 ]] *)
Definition equals_right (st : LIB_POLYLINE) : option bool :=
  last_index ← Int.sub (SizeT.to_int (vec_size (m_PolyPoints st))) 1;
  if decide (m_ModifyIndex st < last_index) then
    a ← vec_at (m_PolyPoints st) (m_ModifyIndex st);
    b ← vec_at (m_PolyPoints st) (m_ModifyIndex st + 1);
    Some (bool_decide (a = b))
  else Some false.

(** [if( (m_Flags == IS_RESIZED) && (m_PolyPoints.size() > 2) ) ...] *)
Definition EndEdit_resized (st : LIB_POLYLINE) : option LIB_POLYLINE :=
  if decide (m_Flags (item st) = IS_RESIZED ∧ vec_size (m_PolyPoints st) > 2) then
    l ← equals_left st;
    c ← (if (l : bool) then Some true else equals_right st);
    if (c : bool)
    then pts ← vec_erase (m_PolyPoints st) (m_ModifyIndex st); Some (set_points st pts)
    else Some st
  else Some st.

Definition EndEdit (aPosition : wxPoint) (st : LIB_POLYLINE) : option LIB_POLYLINE :=
  let st := set_item st (LIB_ITEM_EndEdit aPosition (item st)) in
  st1 ← EndEdit_new st;
  EndEdit_resized st1.

(** *** CalcEdit *)

(** [if( m_ModifyIndex < 0 ) { m_ModifyIndex = -m_ModifyIndex; insert }] *)
Definition CalcEdit_insert (aPosition : wxPoint) (st : LIB_POLYLINE)
  : option LIB_POLYLINE :=
  if decide (m_ModifyIndex st < 0) then
    mi ← Int.neg (m_ModifyIndex st);
    pts ← vec_insert (m_PolyPoints st) mi aPosition;
    Some (set_ModifyIndex (set_points st pts) mi)
  else Some st.

Definition CalcEdit (aPosition : wxPoint) (st : LIB_POLYLINE) : option LIB_POLYLINE :=
  if IsNew (m_Flags (item st)) then
    pts ← vec_set (m_PolyPoints st) (UInt.sub (GetCornerCount st) 1) aPosition;
    Some (set_points st pts)
  else if IsResized (m_Flags (item st)) then
    st1 ← CalcEdit_insert aPosition st;
    pts ← vec_set (m_PolyPoints st1) (m_ModifyIndex st1) aPosition;
    Some (set_points st1 pts)
  else if IsMoving (m_Flags (item st)) then
    a ← pt_add (m_initialPos (item st)) aPosition;
    b ← pt_sub a (m_initialCursorPos (item st));
    MoveTo b st
  else Some st.

End Polyline.

(** ** A reference implementation of the collaborators

    Used to run the polyline on concrete shapes. *)

Module Reference.

(** Modelled from the spec: the geometry kernel ([trigo.h]) is outside
    [lib_polyline.cpp].  [segment_distance2 a b p] is the square of the
    perpendicular (or nearest-endpoint) distance from [p] to the segment
    from [a] to [b], as a fraction [(numerator, denominator)]. *)
Definition segment_distance2 (a b p : wxPoint) : Z * Z :=
  let ux := x b - x a in
  let uy := y b - y a in
  let vx := x p - x a in
  let vy := y p - y a in
  let n := ux * ux + uy * uy in
  let t := vx * ux + vy * uy in
  if decide (t ≤ 0) then (vx * vx + vy * vy, 1)
  else if decide (n ≤ t)
    then ((x p - x b) * (x p - x b) + (y p - y b) * (y p - y b), 1)
    else ((ux * vy - uy * vx) * (ux * vy - uy * vx), n).

(** Modelled from the spec: the integer part of that distance; a value
    that does not fit an [int] is cut at [INT_MAX]. *)
Definition distance (a b p : wxPoint) : Z :=
  let '(num, den) := segment_distance2 a b p in
  Z.min (Z.sqrt (num `div` den)) Int.INT_MAX.

(** Modelled from the spec: a segment is hit when its distance to the
    point is at most the tolerance. *)
Definition segment_hit (p a b : wxPoint) (aDist : Z) : bool :=
  let '(num, den) := segment_distance2 a b p in
  bool_decide (0 ≤ aDist ∧ num ≤ aDist * aDist * den).

(** Modelled from the spec: [EDA_RECT] ([eda_rect.h]) is outside
    [lib_polyline.cpp].  An axis-aligned box given by two opposite corners,
    with the operations of the geometry kernel. *)
Record box : Type := mkBox { x0 : Z; y0 : Z; x1 : Z; y1 : Z }.

Definition box_new : box := mkBox 0 0 0 0.

Definition box_set_origin (r : box) (ox oy : Z) : box :=
  mkBox ox oy (ox + (x1 r - x0 r)) (oy + (y1 r - y0 r)).

Definition box_set_end (r : box) (ex ey : Z) : box :=
  mkBox (x0 r) (y0 r) ex ey.

Definition box_inflate (r : box) (d : Z) : box :=
  mkBox (x0 r - d) (y0 r - d) (x1 r + d) (y1 r + d).

(** The vertical axis is reported top-down. *)
Definition box_revert_y (r : box) : box :=
  mkBox (x0 r) (- y1 r) (x1 r) (- y0 r).

Definition box_contains (r : box) (p : wxPoint) : bool :=
  bool_decide (x0 r ≤ x p ≤ x1 r ∧ y0 r ≤ y p ≤ y1 r).

Definition box_contains_box (r r' : box) : bool :=
  box_contains r (mkPoint (x0 r') (y0 r')) && box_contains r (mkPoint (x1 r') (y1 r')).

Definition box_intersects (r r' : box) : bool :=
  bool_decide (x0 r ≤ x1 r' ∧ x0 r' ≤ x1 r ∧ y0 r ≤ y1 r' ∧ y0 r' ≤ y1 r).

(** On which side of the line through [a] and [b] the point [c] lies. *)
Definition side (a b c : wxPoint) : Z :=
  Z.sgn ((x b - x a) * (y c - y a) - (y b - y a) * (x c - x a)).

Definition segments_cross (a b c d : wxPoint) : bool :=
  bool_decide (Z.min (x a) (x b) ≤ Z.max (x c) (x d)
               ∧ Z.min (x c) (x d) ≤ Z.max (x a) (x b)
               ∧ Z.min (y a) (y b) ≤ Z.max (y c) (y d)
               ∧ Z.min (y c) (y d) ≤ Z.max (y a) (y b)
               ∧ side a b c * side a b d ≤ 0
               ∧ side c d a * side c d b ≤ 0).

Definition box_intersects_segment (r : box) (a b : wxPoint) : bool :=
  let c00 := mkPoint (x0 r) (y0 r) in
  let c10 := mkPoint (x1 r) (y0 r) in
  let c11 := mkPoint (x1 r) (y1 r) in
  let c01 := mkPoint (x0 r) (y1 r) in
  box_contains r a || box_contains r b
  || segments_cross a b c00 c10 || segments_cross a b c10 c11
  || segments_cross a b c11 c01 || segments_cross a b c01 c00.

(** The status flags: one bit each. *)
Definition flag_IS_MOVED : Z := 8.
Definition flag_IS_NEW : Z := 16.
Definition flag_IS_RESIZED : Z := 32.
Definition flag_STRUCT_DELETED : Z := 8192.
Definition flag_SKIP_STRUCT : Z := 32768.

Definition has_flag (mask flags : Z) : bool := bool_decide (Z.land flags mask ≠ 0).

Lemma distance_int a b p : Int.in_range (distance a b p).
Proof.
  unfold distance. destruct (segment_distance2 a b p) as [num den].
  pose proof (Z.sqrt_nonneg (num `div` den)).
  unfold Int.in_range, Int.INT_MIN, Int.INT_MAX. lia.
Qed.

(** The editor's host: default line thickness 1, minimum selection
    distance 2, Y axis pointing down on screen, an edit mode entered by
    setting its flag. *)
Definition eeschema : Host := {|
  GetDefaultLineThickness := 1;
  MINIMUM_SELECTION_DISTANCE := 2;
  IS_NEW := flag_IS_NEW;
  IS_RESIZED := flag_IS_RESIZED;
  IS_MOVED := flag_IS_MOVED;
  STRUCT_DELETED := flag_STRUCT_DELETED;
  SKIP_STRUCT := flag_SKIP_STRUCT;
  IsNew := has_flag flag_IS_NEW;
  IsResized := has_flag flag_IS_RESIZED;
  IsMoving := has_flag flag_IS_MOVED;
  LIB_ITEM_BeginEdit := λ aEditMode _ it,
    mkItem aEditMode (m_initialPos it) (m_initialCursorPos it);
  LIB_ITEM_EndEdit := λ _ it, it;
  TransformCoordinate := λ p, mkPoint (x p) (- y p);
  TestSegmentHit := segment_hit;
  DistanceLinePoint := distance;
  DistanceLinePoint_int := distance_int;
  EDA_RECT := box;
  EDA_RECT_new := box_new;
  SetOrigin := box_set_origin;
  SetEnd := box_set_end;
  Inflate := box_inflate;
  RevertYAxis := box_revert_y;
  Contains := box_contains;
  ContainsRect := box_contains_box;
  Intersects := box_intersects;
  IntersectsSegment := box_intersects_segment
|}.

End Reference.

(** A polyline at rest: no flags, default stroke width. *)
Definition polyline_of (pts : list wxPoint) : LIB_POLYLINE :=
  mkPolyline (mkItem 0 (mkPoint 0 0) (mkPoint 0 0)) 0 pts 0.

(** A polyline of [2^31] vertices. *)
Definition long_polyline : list wxPoint := replicate (2 ^ 31)%nat (mkPoint 0 0).

(** ** Vocabulary of the statements *)

Section Vocabulary.
Context `{Host}.

(** The distance that [AddCorner] computes for the segment that starts at
    vertex [j]. *)
Definition segment_distance (pts : list wxPoint) (aPosition : wxPoint) (j : nat)
  : option Z :=
  a ← pts !! j;
  b ← pts !! S j;
  Some (DistanceLinePoint a b aPosition).

(** [w] is the first segment at the least distance from [aPosition]. *)
Definition nearest_segment (pts : list wxPoint) (aPosition : wxPoint) (w : nat) : Prop :=
  ∃ m, segment_distance pts aPosition w = Some m
       ∧ (∀ j dj, segment_distance pts aPosition j = Some dj → m ≤ dj)
       ∧ (∀ j dj, (j < w)%nat → segment_distance pts aPosition j = Some dj → m < dj).

(** An edge of the closed cycle whose start or end lies in the rectangle,
    or that crosses it. *)
Definition edge_hit (pts : list wxPoint) (sel : EDA_RECT) : Prop :=
  ∃ i v w, pts !! i = Some v ∧ pts !! (S i `mod` length pts)%nat = Some w
           ∧ (Contains sel (TransformCoordinate v) = true
              ∨ Contains sel (TransformCoordinate w) = true
              ∨ IntersectsSegment sel (TransformCoordinate v) (TransformCoordinate w)
                = true).

(** What the loop of [AddCorner] knows after [i] iterations. *)
Definition search_inv (pts : list wxPoint) (p : wxPoint) (i : nat)
    (cur : Z) (closest : nat) : Prop :=
  (∀ j dj, (j < i)%nat → segment_distance pts p j = Some dj → cur ≤ dj)
  ∧ (∀ j dj, (j < closest)%nat → segment_distance pts p j = Some dj → cur < dj)
  ∧ ((i = 0%nat ∧ closest = 0%nat ∧ cur = Int.INT_MAX)
     ∨ ((closest < i)%nat ∧ segment_distance pts p closest = Some cur)).

(** The search of [BeginEdit] after its first iteration: either no test has
    replaced vertex 0 yet, or [m_ModifyIndex] is not 0. *)
Definition untouched_or_nonzero (v0 : wxPoint) (d0 : Z) (s : search) : Prop :=
  1 ≤ index s
  ∧ ((s_ModifyIndex s = 0 ∧ s_initialPos s = v0 ∧ distanceMin s = d0)
     ∨ s_ModifyIndex s ≠ 0).

(** A point whose coordinates stay within [-(2^30 - 1) .. 2^30 - 1]. *)
Definition moderate_point (p : wxPoint) : Prop :=
  Z.abs (x p) ≤ 1073741823 ∧ Z.abs (y p) ≤ 1073741823.

(** The three intermediate values of [mirror_x] are representable. *)
Definition mirror_fits (aCenter p : wxPoint) : Prop :=
  Int.in_range (x p - x aCenter) ∧ Int.in_range (x aCenter - x p)
  ∧ Int.in_range (2 * x aCenter - x p).

(** A point whose coordinates stay within [-8191 .. 8191]. *)
Definition small_point (p : wxPoint) : Prop :=
  Z.abs (x p) ≤ 8191 ∧ Z.abs (y p) ≤ 8191.

(** The triangle (0,0) (10,0) (10,10) of the worked examples. *)
Definition triangle : list wxPoint := [mkPoint 0 0; mkPoint 10 0; mkPoint 10 10].

End Vocabulary.

(** ** More of the polyline *)

(** *** MirrorVertical *)

(** The loop body: [y -= c.y; y *= -1; y += c.y]. *)
Definition mirror_y (aCenter p : wxPoint) : option wxPoint :=
  y1 ← Int.sub (y p) (y aCenter);
  y2 ← Int.mul y1 (-1);
  y3 ← Int.add y2 (y aCenter);
  Some (mkPoint (x p) y3).

Definition MirrorVertical (aCenter : wxPoint) (pts : list wxPoint)
  : option (list wxPoint) :=
  mapM (mirror_y aCenter) pts.

Section Inside.
Context `{Host}.

(** *** Inside

    [aRect.Contains( x, -y )] is [Contains] at the point of these two
    coordinates. *)
Fixpoint Inside_loop (pts : list wxPoint) (aRect : EDA_RECT) (idxs : list nat)
  : option bool :=
  match idxs with
  | [] => Some false
  | i :: rest =>
      p ← pts !! i;
      ny ← Int.neg (y p);
      if Contains aRect (mkPoint (x p) ny) then Some true
      else Inside_loop pts aRect rest
  end.

Definition Inside (aRect : EDA_RECT) (st : LIB_POLYLINE) : option bool :=
  Inside_loop (m_PolyPoints st) aRect (seq 0 (length (m_PolyPoints st))).

End Inside.

(** *** Plot

    The fill modes and the two layers whose colors the plot uses. *)
Inductive FILL_T : Type := NO_FILL | FILLED_SHAPE | FILLED_WITH_BG_BODYCOLOR.

Global Instance FILL_T_eq_dec : EqDecision FILL_T.
Proof. solve_decision. Defined.

Inductive LAYER : Type := LAYER_DEVICE | LAYER_DEVICE_BACKGROUND.

(** What [Plot] asks of the plotter: [SetColor( GetLayerColor( layer ) )]
    and [PlotPoly( cornerList, fill, width )]. *)
Inductive plot_call : Type :=
  | SetColor (layer : LAYER)
  | PlotPoly (cornerList : list wxPoint) (fill : FILL_T) (width : Z).

Section Plot.
Context `{Host}.

(** The loop that fills [cornerList]; [aTransform] stands for
    [aTransform.TransformCoordinate]. *)
Fixpoint Plot_corners (pts : list wxPoint) (aOffset : wxPoint)
    (aTransform : wxPoint → wxPoint) (cornerList : list wxPoint) (idxs : list nat)
  : option (list wxPoint) :=
  match idxs with
  | [] => Some cornerList
  | ii :: rest =>
      pos ← pts !! ii;
      pos' ← pt_add (aTransform pos) aOffset;
      Plot_corners pts aOffset aTransform (vec_push_back cornerList pos') rest
  end.

(** [Plot]: the calls received by the plotter, in order.  The fill mode
    [m_Fill] of the object, a member inherited from [LIB_ITEM], is given
    beside the object.  (The assertion that the plotter is not null has no
    counterpart here.) *)
Definition Plot (m_Fill : FILL_T) (aOffset : wxPoint) (aFill : bool)
    (aTransform : wxPoint → wxPoint) (st : LIB_POLYLINE) : option (list plot_call) :=
  cornerList ← Plot_corners (m_PolyPoints st) aOffset aTransform []
                  (seq 0 (length (m_PolyPoints st)));
  let calls1 :=
    if aFill && bool_decide (m_Fill = FILLED_WITH_BG_BODYCOLOR)
    then [SetColor LAYER_DEVICE_BACKGROUND;
          PlotPoly cornerList FILLED_WITH_BG_BODYCOLOR 0]
    else [] in
  let already_filled := bool_decide (m_Fill = FILLED_WITH_BG_BODYCOLOR) in
  let pen_size := GetPenSize st in
  let calls2 :=
    if negb already_filled || bool_decide (pen_size > 0)
    then [SetColor LAYER_DEVICE;
          PlotPoly cornerList (if already_filled then NO_FILL else m_Fill)
            (Z.max 0 pen_size)]
    else [] in
  Some (calls1 ++ calls2).

End Plot.

(** The polygons among the calls received by the plotter, in order: corner
    list, fill mode and width of each [PlotPoly]. *)
Definition polygons (calls : list plot_call) : list (list wxPoint * FILL_T * Z) :=
  omap (λ c, match c with
             | PlotPoly cornerList fill width => Some (cornerList, fill, width)
             | SetColor _ => None
             end) calls.

(** *** Vocabulary of the further statements *)

(** The point translated by [d], in exact arithmetic. *)
Definition translate (d p : wxPoint) : wxPoint :=
  mkPoint (x p + x d) (y p + y d).

(** The three intermediate values of [mirror_y] are representable. *)
Definition mirror_y_fits (aCenter p : wxPoint) : Prop :=
  Int.in_range (y p - y aCenter) ∧ Int.in_range (y aCenter - y p)
  ∧ Int.in_range (2 * y aCenter - y p).

(** What [BeginEdit] has chosen in resize mode: [s_initialPos] is the
    vertex at the absolute value of [s_ModifyIndex], and [distanceMin] is
    its squared distance (index not negative) or the biased distance to the
    middle of the edge that ends at it (index negative). *)
Definition search_chosen (pts : list wxPoint) (aPosition : wxPoint) (s : search) : Prop :=
  let k := Z.to_nat (Z.abs (s_ModifyIndex s)) in
  pts !! k = Some (s_initialPos s)
  ∧ (0 ≤ s_ModifyIndex s → sqdist aPosition (s_initialPos s) = Some (distanceMin s))
  ∧ (s_ModifyIndex s < 0 →
     ∃ u, pts !! (k - 1)%nat = Some u
          ∧ middist aPosition (s_initialPos s) u = Some (distanceMin s)).

(** [dmin] is at most the squared distance to each of the first [n]
    vertices and at most the biased distance to the middle of each edge
    between two of them. *)
Definition search_minimal (pts : list wxPoint) (aPosition : wxPoint) (n : nat)
    (dmin : Z) : Prop :=
  (∀ i v d, (i < n)%nat → pts !! i = Some v → sqdist aPosition v = Some d → dmin ≤ d)
  ∧ (∀ i v u m, (S i < n)%nat → pts !! S i = Some v → pts !! i = Some u →
                middist aPosition v u = Some m → dmin ≤ m).

(** The search of [BeginEdit] after [k] iterations, [1 <= k]. *)
Definition search_after (pts : list wxPoint) (aPosition : wxPoint) (k : nat)
    (s : search) : Prop :=
  index s = Z.of_nat k ∧ index s ≤ Int.INT_MAX
  ∧ pts !! (k - 1)%nat = Some (prevPoint s)
  ∧ Z.abs (s_ModifyIndex s) < Z.of_nat k
  ∧ search_chosen pts aPosition s
  ∧ search_minimal pts aPosition k (distanceMin s).

(** * Properties *)

(** ** Checked arithmetic and vectors *)

Lemma chk_Some z r : Int.chk z = Some r ↔ r = z ∧ Int.in_range z.
Proof.
  unfold Int.chk. destruct (decide (Int.in_range z)) as [Hz|Hz]; split.
  - by intros [= <-].
  - by intros [-> _].
  - done.
  - by intros [_ ?].
Qed.

Lemma chk_in_range z : Int.in_range z → Int.chk z = Some z.
Proof. intros ?. by apply chk_Some. Qed.

(** Turns every checked operation that succeeded into its exact result. *)
Ltac int_inv :=
  repeat match goal with
  | H : Int.add _ _ = Some _ |- _ => unfold Int.add in H
  | H : Int.sub _ _ = Some _ |- _ => unfold Int.sub in H
  | H : Int.mul _ _ = Some _ |- _ => unfold Int.mul in H
  | H : Int.neg _ = Some _ |- _ => unfold Int.neg in H
  | H : Int.chk _ = Some _ |- _ => apply chk_Some in H; destruct H as [-> H]
  end.

Ltac range_lia :=
  unfold int_point, Int.in_range, Int.INT_MIN, Int.INT_MAX in *; lia.

Lemma vec_at_lookup {A} (v : list A) (i : nat) : vec_at v (Z.of_nat i) = v !! i.
Proof. unfold vec_at. case_decide; [by rewrite Nat2Z.id | lia]. Qed.

Lemma vec_at_Some {A} (v : list A) i a :
  vec_at v i = Some a → 0 ≤ i < vec_size v ∧ v !! Z.to_nat i = Some a.
Proof.
  unfold vec_at, vec_size. case_decide; [|done]. intros Hl.
  split; [|done]. apply lookup_lt_Some in Hl. lia.
Qed.

Lemma vec_at_is_Some {A} (v : list A) i : 0 ≤ i < vec_size v → is_Some (vec_at v i).
Proof.
  unfold vec_at, vec_size. intros ?. case_decide; [|lia].
  apply lookup_lt_is_Some. lia.
Qed.

(** ** compare *)

Lemma compare_loop_refl a idxs :
  Forall (λ i, (i < length a)%nat) idxs → compare_loop a a idxs = Some 0.
Proof.
  induction 1 as [|i idxs Hi _ IH]; [done|]. simpl.
  destruct (lookup_lt_is_Some_2 a i Hi) as [p ->]. simpl.
  repeat case_decide; done.
Qed.

Lemma compare_refl a : compare a a = Some 0.
Proof.
  unfold compare. case_decide; [done|].
  apply compare_loop_refl, Forall_seq. lia.
Qed.

Lemma compare_loop_antisym a b idxs r r' :
  compare_loop a b idxs = Some r → compare_loop b a idxs = Some r' →
  r ≠ 0 → (r < 0 ∧ 0 < r') ∨ (0 < r ∧ r' < 0).
Proof.
  induction idxs as [|i idxs IH]; simpl; [by intros [= <-]|].
  destruct (a !! i) as [p|], (b !! i) as [q|]; simpl; try done.
  repeat case_decide; try congruence; intros; int_inv; try lia.
  by apply IH.
Qed.

(** The size difference survives the trip through [size_t] and [int] when
    it is less than [2^31] in absolute value. *)
Lemma size_difference_exact (m n : Z) :
  Z.abs (m - n) < 2147483648 → SizeT.to_int (SizeT.sub m n) = m - n.
Proof.
  intros Hd. unfold SizeT.to_int, SizeT.sub, SizeT.modulus.
  destruct (decide (0 ≤ m - n)).
  - rewrite (Z.mod_small (m - n)) by lia.
    rewrite (Z.mod_small (m - n)) by lia. case_decide; lia.
  - assert ((m - n) `mod` 18446744073709551616 = m - n + 18446744073709551616) as ->.
    { symmetry. apply Z.mod_unique_pos with (-1); lia. }
    assert ((m - n + 18446744073709551616) `mod` 4294967296 = m - n + 4294967296) as ->.
    { symmetry. apply Z.mod_unique_pos with 4294967295; lia. }
    case_decide; lia.
Qed.

(** [compare] returns for all shapes whose coordinates stay within
    [-(2^30 - 1) .. 2^30 - 1]. *)
Lemma compare_loop_defined a b idxs :
  Forall (λ i, (i < length a)%nat ∧ (i < length b)%nat) idxs →
  Forall moderate_point (a ++ b) →
  is_Some (compare_loop a b idxs).
Proof.
  intros Hidx Hsm. apply Forall_app in Hsm as [Ha Hb].
  induction Hidx as [|i idxs [Hi Hi'] _ IH]; simpl; [by eexists|].
  destruct (lookup_lt_is_Some_2 a i Hi) as [p Hp].
  destruct (lookup_lt_is_Some_2 b i Hi') as [q Hq].
  rewrite Hp, Hq. simpl.
  destruct (proj1 (Forall_lookup _ _) Ha i p Hp).
  destruct (proj1 (Forall_lookup _ _) Hb i q Hq).
  repeat case_decide; [| |done];
    unfold Int.sub; rewrite chk_in_range; eauto; range_lia.
Qed.

Lemma compare_defined a b :
  Forall moderate_point (a ++ b) → is_Some (compare a b).
Proof.
  intros Hsm. unfold compare. case_decide as Hs; [by eexists|].
  apply compare_loop_defined; [|done].
  apply Forall_seq. intros j ?. unfold vec_size in Hs.
  assert (length a = length b) by (destruct (decide (length a = length b)); [done|lia]).
  lia.
Qed.

(** C5, as amended: [compare( a, a )] is 0, and [compare( a, b )] and
    [compare( b, a )] have opposite signs when non-zero, for shapes whose
    vertex counts differ by less than [2^31] and whose coordinate
    differences are representable (both calls return, as they do for
    coordinates of moderate size). *)
Theorem compare_refl_antisym (a b : list wxPoint) :
  Z.abs (vec_size a - vec_size b) < 2147483648 →
  compare a a = Some 0
  ∧ (∀ r r', compare a b = Some r → compare b a = Some r' → r ≠ 0 →
             (r < 0 ∧ 0 < r') ∨ (0 < r ∧ r' < 0))
  ∧ (Forall moderate_point (a ++ b) →
     is_Some (compare a b) ∧ is_Some (compare b a)).
Proof.
  intros Hd. split; [apply compare_refl|]. split.
  - intros r r'. unfold compare.
    destruct (decide (vec_size a ≠ vec_size b)) as [Hne|Heq].
    + rewrite decide_True by congruence.
      rewrite !size_difference_exact by lia. intros [= <-] [= <-]. lia.
    + rewrite decide_False by (intros ?; apply Heq; congruence).
      assert (length b = length a) as -> by (unfold vec_size in Heq; lia).
      apply compare_loop_antisym.
  - intros Hm. split; apply compare_defined; [done|].
    apply Forall_app in Hm as [??]. by apply Forall_app.
Qed.

Lemma compare_refl_antisym_witness :
  compare [mkPoint 0 0; mkPoint 5 7] [mkPoint 0 0; mkPoint 5 7] = Some 0
  ∧ (∀ r r', compare [mkPoint 0 0; mkPoint 5 7] [mkPoint 0 0; mkPoint 9 1] = Some r →
             compare [mkPoint 0 0; mkPoint 9 1] [mkPoint 0 0; mkPoint 5 7] = Some r' →
             r ≠ 0 → (r < 0 ∧ 0 < r') ∨ (0 < r ∧ r' < 0))
  ∧ (Forall moderate_point ([mkPoint 0 0; mkPoint 5 7] ++ [mkPoint 0 0; mkPoint 9 1]) →
     is_Some (compare [mkPoint 0 0; mkPoint 5 7] [mkPoint 0 0; mkPoint 9 1])
     ∧ is_Some (compare [mkPoint 0 0; mkPoint 9 1] [mkPoint 0 0; mkPoint 5 7])).
Proof.
  apply (compare_refl_antisym [mkPoint 0 0; mkPoint 5 7] [mkPoint 0 0; mkPoint 9 1]).
  vm_compute. reflexivity.
Defined.

(** The two calls of the witness do return, with opposite signs. *)
Example compare_small :
  compare [mkPoint 0 0; mkPoint 5 7] [mkPoint 0 0; mkPoint 9 1] = Some (-4) ∧
  compare [mkPoint 0 0; mkPoint 9 1] [mkPoint 0 0; mkPoint 5 7] = Some 4.
Proof. split; reflexivity. Qed.

Lemma long_polyline_size : vec_size long_polyline = 2147483648.
Proof.
  unfold vec_size, long_polyline. rewrite length_replicate.
  rewrite Nat2Z.inj_pow. reflexivity.
Qed.

(** C5 fails as stated: against the empty polyline, the polyline of [2^31]
    vertices compares as [INT_MIN] in both directions, two non-zero
    results of the same sign. *)
Lemma compare_same_sign :
  compare long_polyline [] = Some (-2147483648) ∧
  compare [] long_polyline = Some (-2147483648).
Proof.
  unfold compare. rewrite long_polyline_size.
  change (vec_size (@nil wxPoint)) with 0.
  split; reflexivity.
Qed.

(** The coordinate branch: the difference of two far apart abscissas is
    not an [int]; one direction returns [INT_MIN], the other overflows. *)
Example compare_overflow :
  compare [mkPoint (-1073741824) 0] [mkPoint 1073741824 0] = Some (-2147483648) ∧
  compare [mkPoint 1073741824 0] [mkPoint (-1073741824) 0] = None.
Proof. split; reflexivity. Qed.

(** ** MirrorHorizontal *)

(** The mirror image of an abscissa about [c] is [2 * c - x]. *)
Lemma mirror_x_Some c p q :
  mirror_x c p = Some q →
  q = mkPoint (2 * x c - x p) (y p) ∧ Int.in_range (x p - x c)
  ∧ Int.in_range (x c - x p) ∧ Int.in_range (2 * x c - x p).
Proof.
  unfold mirror_x. intros Hm. simplify_option_eq. int_inv.
  repeat split; try (f_equal; lia); range_lia.
Qed.

Lemma mirror_x_fits c p :
  Int.in_range (x p - x c) → Int.in_range (x c - x p) → Int.in_range (2 * x c - x p) →
  mirror_x c p = Some (mkPoint (2 * x c - x p) (y p)).
Proof.
  intros H1 H2 H3. unfold mirror_x, Int.sub, Int.mul, Int.add.
  rewrite (chk_in_range _ H1). simpl.
  rewrite chk_in_range by range_lia. simpl.
  rewrite chk_in_range by range_lia. simpl.
  do 2 f_equal. lia.
Qed.

Lemma mirror_x_involutive c p q :
  Int.in_range (x p) → mirror_x c p = Some q → mirror_x c q = Some p.
Proof.
  intros Hp (-> & H1 & H2 & H3)%mirror_x_Some.
  rewrite mirror_x_fits; simpl; [| range_lia ..].
  destruct p as [px py]; simpl. do 2 f_equal. lia.
Qed.

(** The mirroring returns exactly when the three intermediate values of
    every abscissa are representable. *)
Lemma MirrorHorizontal_defined (aCenter : wxPoint) (pts : list wxPoint) :
  Forall (mirror_fits aCenter) pts ↔ is_Some (MirrorHorizontal aCenter pts).
Proof.
  unfold MirrorHorizontal. rewrite mapM_is_Some. apply Forall_proper; [|done].
  intros p. unfold mirror_fits. split.
  - intros (? & ? & ?). eexists. by apply mirror_x_fits.
  - intros [q Hq]. apply mirror_x_Some in Hq. tauto.
Qed.

Lemma MirrorHorizontal_twice (aCenter : wxPoint) (pts pts' : list wxPoint) :
  Forall int_point pts →
  MirrorHorizontal aCenter pts = Some pts' →
  MirrorHorizontal aCenter pts' = Some pts.
Proof.
  unfold MirrorHorizontal. intros Hint Hm.
  apply mapM_Some in Hm. apply mapM_Some.
  induction Hm as [|p q pts pts' Hpq _ IH]; [constructor|].
  apply Forall_cons in Hint as [[Hp _] Hint].
  constructor; [by apply mirror_x_involutive | by apply IH].
Qed.

(** C6: mirroring twice about the same center gives back the vertex list,
    exactly.  The first mirroring returns when the mirror images are
    representable, and the second one returns whenever the first does. *)
Theorem MirrorHorizontal_involutive (aCenter : wxPoint) (pts : list wxPoint) :
  Forall int_point pts →
  (∀ pts', MirrorHorizontal aCenter pts = Some pts' →
           MirrorHorizontal aCenter pts' = Some pts)
  ∧ (Forall (mirror_fits aCenter) pts →
     ∃ pts', MirrorHorizontal aCenter pts = Some pts'
             ∧ MirrorHorizontal aCenter pts' = Some pts).
Proof.
  intros Hint. split; [intros pts'; by apply MirrorHorizontal_twice|].
  intros [pts' Hm]%MirrorHorizontal_defined.
  exists pts'. split; [done|]. by eapply MirrorHorizontal_twice.
Qed.

Lemma MirrorHorizontal_involutive_witness :
  MirrorHorizontal (mkPoint 3 0) [mkPoint 0 0; mkPoint 10 0; mkPoint 10 10]
  = Some [mkPoint 6 0; mkPoint (-4) 0; mkPoint (-4) 10] ∧
  MirrorHorizontal (mkPoint 3 0) [mkPoint 6 0; mkPoint (-4) 0; mkPoint (-4) 10]
  = Some [mkPoint 0 0; mkPoint 10 0; mkPoint 10 10].
Proof.
  split; [reflexivity|].
  apply (MirrorHorizontal_involutive (mkPoint 3 0)
           [mkPoint 0 0; mkPoint 10 0; mkPoint 10 10]).
  - repeat constructor; vm_compute; congruence.
  - reflexivity.
Defined.

(** ** AddCorner *)

Section AddCorner.
Context `{Host}.

Lemma size_minus_one (pts : list wxPoint) (n : nat) :
  length pts = S n → vec_size pts < SizeT.modulus →
  SizeT.sub (vec_size pts) 1 = Z.of_nat n.
Proof.
  unfold vec_size, SizeT.sub, SizeT.modulus. intros -> ?.
  rewrite Z.mod_small; lia.
Qed.

Lemma segment_distance_is_Some pts p j :
  (S j < length pts)%nat → ∃ a b, pts !! j = Some a ∧ pts !! S j = Some b
    ∧ segment_distance pts p j = Some (DistanceLinePoint a b p).
Proof.
  intros Hj. unfold segment_distance.
  destruct (lookup_lt_is_Some_2 pts j) as [a Ha]; [lia|].
  destruct (lookup_lt_is_Some_2 pts (S j) Hj) as [b Hb].
  exists a, b. by rewrite Ha, Hb.
Qed.

Lemma segment_distance_lt pts p j dj :
  segment_distance pts p j = Some dj → (S j < length pts)%nat.
Proof.
  unfold segment_distance. intros Hd. simplify_option_eq.
  by eapply lookup_lt_Some.
Qed.

Lemma AddCorner_loop_spec pts p n k : ∀ fuel i cur closest,
  length pts = S n → (i + k = n)%nat → (k ≤ fuel)%nat →
  search_inv pts p i cur closest →
  ∃ cur' w, AddCorner_loop pts p (Z.of_nat n) fuel i cur (Z.of_nat closest)
            = Some (Z.of_nat w)
            ∧ search_inv pts p n cur' w.
Proof.
  induction k as [|k IH]; intros fuel i cur closest Hlen Hik Hfuel Hinv.
  - assert (i = n) as -> by lia. exists cur, closest.
    destruct fuel; simpl; (rewrite decide_False by lia); done.
  - destruct fuel as [|fuel]; [lia|]. simpl.
    rewrite decide_True by lia.
    destruct (segment_distance_is_Some pts p i) as (a & b & -> & -> & Hd); [lia|].
    simpl. destruct Hinv as (Hmin & Hfirst & Hclosest).
    destruct (decide (DistanceLinePoint a b p < cur)) as [Hlt|Hge].
    + apply IH; [done|lia|lia|]. repeat split.
      * intros j dj Hj Hdj. destruct (decide (j = i)) as [->|].
        { rewrite Hd in Hdj. injection Hdj as <-. lia. }
        assert (cur ≤ dj) by (eapply Hmin; [|done]; lia). lia.
      * intros j dj Hj Hdj.
        assert (cur ≤ dj) by (eapply Hmin; [|done]; lia). lia.
      * right. split; [lia|done].
    + apply IH; [done|lia|lia|]. repeat split.
      * intros j dj Hj Hdj. destruct (decide (j = i)) as [->|].
        { rewrite Hd in Hdj. injection Hdj as <-. lia. }
        eapply Hmin; [|done]. lia.
      * done.
      * right. destruct Hclosest as [(-> & -> & ->)|[??]].
        -- split; [lia|]. rewrite Hd. f_equal.
           pose proof (DistanceLinePoint_int a b p). range_lia.
        -- split; [lia|done].
Qed.

Lemma closestLineStart_spec (pts : list wxPoint) (p : wxPoint) :
  2 ≤ vec_size pts < SizeT.modulus →
  ∃ w, closestLineStart pts p = Some (Z.of_nat w)
       ∧ (S w < length pts)%nat ∧ nearest_segment pts p w.
Proof.
  intros [Hge Hlt]. unfold closestLineStart.
  destruct pts as [|v0 pts'] eqn:Hpts; [unfold vec_size in Hge; simpl in Hge; lia|].
  rewrite <- Hpts in *. assert (length pts = S (length pts')) as Hlen by (by subst).
  rewrite (size_minus_one pts (length pts')) by done.
  destruct (AddCorner_loop_spec pts p (length pts') (length pts')
              (S (length pts)) 0 Int.INT_MAX 0) as (cur' & w & Hloop & Hinv);
    [done|lia|lia| |].
  { repeat split; [lia|lia|]. by left. }
  exists w. split; [done|].
  destruct Hinv as (Hmin & Hfirst & [(Hn & _ & _)|[Hw Hd]]).
  { unfold vec_size in Hge. lia. }
  split; [lia|]. exists cur'. repeat split; [done| |done].
  intros j dj Hdj. eapply Hmin; [|done].
  apply segment_distance_lt in Hdj. lia.
Qed.

(** C1, as the code has it: for a polyline of at least 2 vertices,
    [AddCorner] finds the first segment at the least distance from the
    point and inserts the point at the index of the FIRST vertex of that
    segment (index [w], not [w + 1]): the new vertex comes before the
    segment, not inside it. *)
Theorem AddCorner_inserts_before_segment (st : LIB_POLYLINE) (aPosition : wxPoint) :
  2 ≤ vec_size (m_PolyPoints st) < SizeT.modulus →
  ∃ w, (S w < length (m_PolyPoints st))%nat
       ∧ nearest_segment (m_PolyPoints st) aPosition w
       ∧ AddCorner aPosition st
         = Some (set_points st (take w (m_PolyPoints st)
                                ++ aPosition :: drop w (m_PolyPoints st))).
Proof.
  intros Hsz.
  destruct (closestLineStart_spec (m_PolyPoints st) aPosition Hsz)
    as (w & Hw & Hlt & Hnear).
  exists w. split; [done|]. split; [done|].
  unfold AddCorner. rewrite Hw. simpl. unfold vec_insert.
  rewrite decide_True by (unfold vec_size; lia).
  simpl. by rewrite Nat2Z.id.
Qed.

(** A polyline of two vertices: whatever the distance, the point goes to
    the front. *)
Lemma AddCorner_two (st : LIB_POLYLINE) (a b aPosition : wxPoint) :
  AddCorner aPosition (set_points st [a; b]) = Some (set_points st [aPosition; a; b]).
Proof.
  unfold AddCorner, closestLineStart. simpl.
  change (SizeT.sub (vec_size [a; b]) 1) with 1.
  destruct (decide (DistanceLinePoint a b aPosition < Int.INT_MAX)); reflexivity.
Qed.

End AddCorner.

Lemma AddCorner_inserts_before_segment_witness :
  let H := Reference.eeschema in
  let st := polyline_of triangle in
  AddCorner (mkPoint 10 5) st
  = Some (polyline_of [mkPoint 0 0; mkPoint 10 5; mkPoint 10 0; mkPoint 10 10])
  ∧ ∃ w, (S w < length (m_PolyPoints st))%nat
         ∧ nearest_segment (m_PolyPoints st) (mkPoint 10 5) w
         ∧ AddCorner (mkPoint 10 5) st
           = Some (set_points st (take w (m_PolyPoints st)
                                  ++ mkPoint 10 5 :: drop w (m_PolyPoints st))).
Proof.
  split; [reflexivity|].
  apply (@AddCorner_inserts_before_segment Reference.eeschema
           (polyline_of triangle) (mkPoint 10 5)).
  vm_compute. split; congruence.
Defined.

(** The point (10,5) lies on the second segment of the triangle; it is
    inserted at index 1, before the vertex (10,0) where that segment
    starts, and not at index 2.  On the polyline (0,0) (10,0), the point
    (5,0) of its only segment becomes the first vertex. *)
Example AddCorner_zigzag :
  let H := Reference.eeschema in
  closestLineStart triangle (mkPoint 10 5) = Some 1
  ∧ AddCorner (mkPoint 10 5) (polyline_of triangle)
    = Some (polyline_of [mkPoint 0 0; mkPoint 10 5; mkPoint 10 0; mkPoint 10 10])
  ∧ AddCorner (mkPoint 5 0) (polyline_of [mkPoint 0 0; mkPoint 10 0])
    = Some (polyline_of [mkPoint 5 0; mkPoint 0 0; mkPoint 10 0]).
Proof. repeat split; reflexivity. Qed.

(** ** Degenerate shapes *)

Section Degenerate.
Context `{Host}.

Lemma AddCorner_empty (st : LIB_POLYLINE) (aPosition : wxPoint) :
  AddCorner aPosition (set_points st []) = None.
Proof. reflexivity. Qed.

Lemma AddCorner_single (st : LIB_POLYLINE) (v aPosition : wxPoint) :
  AddCorner aPosition (set_points st [v]) = Some (set_points st [aPosition; v]).
Proof. reflexivity. Qed.

Lemma GetBoundingBox_empty (st : LIB_POLYLINE) : GetBoundingBox (set_points st []) = None.
Proof. reflexivity. Qed.

Lemma GetBoundingBox_single (st : LIB_POLYLINE) (v : wxPoint) :
  Int.in_range (GetPenSize st + 1) →
  GetBoundingBox (set_points st [v])
  = Some (RevertYAxis
            (Inflate (SetEnd (SetOrigin EDA_RECT_new (x v) (y v)) (x v) (y v))
                     ((GetPenSize st + 1) ÷ 2))).
Proof.
  intros Hpen. unfold GetBoundingBox. simpl.
  change (GetPenSize (set_points st [v])) with (GetPenSize st).
  unfold Int.add. rewrite (chk_in_range _ Hpen). reflexivity.
Qed.

(** C7, as amended: neither function checks the number of vertices.  On a
    single-vertex shape both return normally: [AddCorner] puts the point in
    front of the vertex, [GetBoundingBox] returns the box of the vertex
    inflated by [(pen size + 1) / 2].  On an empty shape both read
    [m_PolyPoints[0]] outside the vector, which is undefined; no error is
    signalled. *)
Theorem degenerate_shapes_unchecked (st : LIB_POLYLINE) (v aPosition : wxPoint) :
  Int.in_range (GetPenSize st + 1) →
  AddCorner aPosition (set_points st [v]) = Some (set_points st [aPosition; v])
  ∧ GetBoundingBox (set_points st [v])
    = Some (RevertYAxis
              (Inflate (SetEnd (SetOrigin EDA_RECT_new (x v) (y v)) (x v) (y v))
                       ((GetPenSize st + 1) ÷ 2)))
  ∧ AddCorner aPosition (set_points st []) = None
  ∧ GetBoundingBox (set_points st []) = None.
Proof.
  intros Hpen. split; [apply AddCorner_single|].
  split; [by apply GetBoundingBox_single|].
  split; [apply AddCorner_empty | apply GetBoundingBox_empty].
Qed.

End Degenerate.

Lemma degenerate_shapes_unchecked_witness :
  let H := Reference.eeschema in
  let st := polyline_of [] in
  AddCorner (mkPoint 5 5) (set_points st [mkPoint 3 4])
  = Some (set_points st [mkPoint 5 5; mkPoint 3 4])
  ∧ GetBoundingBox (set_points st [mkPoint 3 4])
    = Some (Reference.mkBox 2 (-5) 4 (-3))
  ∧ AddCorner (mkPoint 5 5) (set_points st []) = None
  ∧ GetBoundingBox (set_points st []) = None.
Proof.
  apply (@degenerate_shapes_unchecked Reference.eeschema
           (polyline_of []) (mkPoint 3 4) (mkPoint 5 5)).
  vm_compute. split; congruence.
Defined.

(** C7 fails as stated: on the single-vertex shape (3,4) both functions
    return a result instead of failing. *)
Lemma degenerate_shape_accepted :
  let H := Reference.eeschema in
  AddCorner (mkPoint 5 5) (polyline_of [mkPoint 3 4])
  = Some (polyline_of [mkPoint 5 5; mkPoint 3 4])
  ∧ GetBoundingBox (polyline_of [mkPoint 3 4]) = Some (Reference.mkBox 2 (-5) 4 (-3)).
Proof. split; reflexivity. Qed.

(** ** The vertex count under EndEdit and DeleteSegment *)

Section VertexCount.
Context `{Host}.

Lemma vec_pop_back_Some {A} (v v' : list A) :
  vec_pop_back v = Some v' → vec_size v' = vec_size v - 1 ∧ 1 ≤ vec_size v.
Proof.
  unfold vec_pop_back, vec_size. destruct v as [|a v]; [done|].
  intros [= <-]. rewrite length_take. simpl. lia.
Qed.

Lemma vec_pop_back_is_Some {A} (v : list A) :
  1 ≤ vec_size v → is_Some (vec_pop_back v).
Proof. destruct v; [unfold vec_size; simpl; lia | by eexists]. Qed.

Lemma vec_erase_Some {A} (v v' : list A) i :
  vec_erase v i = Some v' → vec_size v' = vec_size v - 1.
Proof.
  unfold vec_erase, vec_size. case_decide as Hi; [|done]. intros [= <-].
  rewrite length_delete; [lia|]. apply lookup_lt_is_Some. lia.
Qed.

Lemma vec_set_Some {A} (v v' : list A) i a :
  vec_set v i a = Some v' → vec_size v' = vec_size v.
Proof.
  unfold vec_set, vec_size. case_decide; [|done]. intros [= <-].
  by rewrite length_insert.
Qed.

Lemma vec_back_is_Some {A} (v : list A) : 1 ≤ vec_size v → is_Some (vec_back v).
Proof.
  unfold vec_back, vec_size. intros ?. apply last_is_Some.
  intros ->. simpl in *. lia.
Qed.

Lemma uint_sub_range n : 1 ≤ n → 0 ≤ UInt.sub n 1 < n.
Proof.
  unfold UInt.sub, UInt.modulus. intros ?.
  pose proof (Z.mod_pos_bound (n - 1) 4294967296).
  pose proof (Z.mod_le (n - 1) 4294967296). lia.
Qed.

Lemma size_t_sub_range n : 2 ≤ n → 0 ≤ SizeT.sub n 2 < n.
Proof.
  unfold SizeT.sub, SizeT.modulus. intros ?.
  pose proof (Z.mod_pos_bound (n - 2) 18446744073709551616).
  pose proof (Z.mod_le (n - 2) 18446744073709551616). lia.
Qed.

(** *** DeleteSegment *)

Lemma DeleteSegment_loop_spec (aPosition : wxPoint) (fuel : nat) :
  ∀ pts, vec_size pts - 2 ≤ Z.of_nat fuel →
  ∃ pts', DeleteSegment_loop aPosition fuel pts = Some pts'
          ∧ (2 ≤ vec_size pts → 2 ≤ vec_size pts')
          ∧ vec_size pts' ≤ vec_size pts.
Proof.
  induction fuel as [|fuel IH]; intros pts Hfuel.
  - simpl. rewrite decide_False by lia. eauto with lia.
  - simpl. case_decide as Hsz; [|eauto with lia].
    destruct (vec_pop_back_is_Some pts) as [pts1 Hpop]; [lia|].
    rewrite Hpop. simpl. apply vec_pop_back_Some in Hpop as [Hsz1 _].
    destruct (vec_at_is_Some pts1 (UInt.sub (vec_size pts1) 1)) as [last1 ->];
      [apply uint_sub_range; lia|].
    simpl. case_decide.
    + destruct (vec_set pts1 (UInt.sub (vec_size pts1) 1) aPosition) as [pts'|] eqn:Hset.
      * apply vec_set_Some in Hset. eauto with lia.
      * unfold vec_set in Hset.
        rewrite decide_True in Hset by (apply uint_sub_range; lia). done.
    + destruct (IH pts1) as (pts' & -> & ? & ?); [lia|]. eauto with lia.
Qed.

Lemma DeleteSegment_spec (aPosition : wxPoint) (st : LIB_POLYLINE) :
  ∃ st', DeleteSegment aPosition st = Some st'
         ∧ (2 ≤ vec_size (m_PolyPoints st) → 2 ≤ vec_size (m_PolyPoints st'))
         ∧ vec_size (m_PolyPoints st') ≤ vec_size (m_PolyPoints st).
Proof.
  unfold DeleteSegment.
  destruct (DeleteSegment_loop_spec aPosition (length (m_PolyPoints st))
              (m_PolyPoints st)) as (pts' & -> & ? & ?);
    [unfold vec_size; lia|].
  eexists. split; [done|]. done.
Qed.

(** *** EndEdit *)

Lemma EndEdit_new_spec (st : LIB_POLYLINE) :
  ∃ st', EndEdit_new st = Some st'
         ∧ item st' = item st ∧ m_ModifyIndex st' = m_ModifyIndex st
         ∧ (2 ≤ vec_size (m_PolyPoints st) → 2 ≤ vec_size (m_PolyPoints st'))
         ∧ (m_PolyPoints st' = m_PolyPoints st
            ∨ (m_Flags (item st) = IS_NEW ∧ 2 < vec_size (m_PolyPoints st)
               ∧ vec_size (m_PolyPoints st') = vec_size (m_PolyPoints st) - 1)).
Proof.
  unfold EndEdit_new. case_decide as Hc; [|eauto 10 with lia].
  destruct Hc as [Hnew Hsz].
  destruct (vec_at_is_Some (m_PolyPoints st)
              (SizeT.sub (vec_size (m_PolyPoints st)) 2)) as [a ->];
    [apply size_t_sub_range; lia|].
  destruct (vec_back_is_Some (m_PolyPoints st)) as [b ->]; [lia|].
  simpl. case_decide; [|eauto 10 with lia].
  destruct (vec_pop_back_is_Some (m_PolyPoints st)) as [pts Hpop]; [lia|].
  rewrite Hpop. simpl. apply vec_pop_back_Some in Hpop as [Hsz1 _].
  eexists. split; [done|]. simpl. eauto 10 with lia.
Qed.

Lemma EndEdit_resized_Some (st st' : LIB_POLYLINE) :
  EndEdit_resized st = Some st' →
  (2 ≤ vec_size (m_PolyPoints st) → 2 ≤ vec_size (m_PolyPoints st'))
  ∧ (m_PolyPoints st' = m_PolyPoints st
     ∨ (2 < vec_size (m_PolyPoints st)
        ∧ vec_size (m_PolyPoints st') = vec_size (m_PolyPoints st) - 1)).
Proof.
  unfold EndEdit_resized. case_decide as Hc; [|intros [= <-]; eauto with lia].
  destruct Hc as [_ Hsz]. intros Hr.
  apply bind_Some in Hr as (l & _ & Hr).
  apply bind_Some in Hr as (c & _ & Hr).
  destruct c; [|injection Hr as <-; eauto with lia].
  apply bind_Some in Hr as (pts & Herase & [= <-]).
  apply vec_erase_Some in Herase. simpl. lia.
Qed.

Lemma int_size (pts : list wxPoint) :
  vec_size pts ≤ Int.INT_MAX → SizeT.to_int (vec_size pts) = vec_size pts.
Proof.
  unfold SizeT.to_int, vec_size, Int.INT_MAX. intros ?.
  rewrite Z.mod_small by lia. case_decide; lia.
Qed.

Lemma EndEdit_resized_is_Some (st : LIB_POLYLINE) :
  0 ≤ m_ModifyIndex st < vec_size (m_PolyPoints st) →
  vec_size (m_PolyPoints st) ≤ Int.INT_MAX →
  is_Some (EndEdit_resized st).
Proof.
  intros Hmi Hmax. unfold EndEdit_resized. case_decide as Hc; [|by eexists].
  assert (∃ l, equals_left st = Some l) as [l ->].
  { unfold equals_left. case_decide; [|by eexists].
    destruct (vec_at_is_Some (m_PolyPoints st) (m_ModifyIndex st)) as [a ->]; [lia|].
    destruct (vec_at_is_Some (m_PolyPoints st) (m_ModifyIndex st - 1)) as [b ->]; [lia|].
    by eexists. }
  assert (∃ r, equals_right st = Some r) as [r Hr].
  { unfold equals_right. rewrite int_size by done.
    unfold Int.sub. rewrite chk_in_range by range_lia. simpl.
    case_decide; [|by eexists].
    destruct (vec_at_is_Some (m_PolyPoints st) (m_ModifyIndex st)) as [a ->]; [lia|].
    destruct (vec_at_is_Some (m_PolyPoints st) (m_ModifyIndex st + 1)) as [b ->]; [lia|].
    by eexists. }
  simpl.
  assert (is_Some (vec_erase (m_PolyPoints st) (m_ModifyIndex st))) as [pts Hpts].
  { unfold vec_erase. rewrite decide_True by lia. by eexists. }
  destruct l; simpl; [rewrite Hpts; by eexists|].
  rewrite Hr. simpl. destruct r; [rewrite Hpts|]; by eexists.
Qed.

(** C2: [EndEdit], whatever the edit mode, and [DeleteSegment] leave at
    least 2 vertices in a list that has at least 2; a vertex is removed
    only from a list of more than 2.  [DeleteSegment] always returns;
    [EndEdit] returns when [m_ModifyIndex] designates a vertex. *)
Theorem EndEdit_DeleteSegment_keep_two (st : LIB_POLYLINE) (aPosition : wxPoint) :
  2 ≤ vec_size (m_PolyPoints st) →
  (∀ st', EndEdit aPosition st = Some st' →
          2 ≤ vec_size (m_PolyPoints st')
          ∧ (vec_size (m_PolyPoints st') < vec_size (m_PolyPoints st) →
             2 < vec_size (m_PolyPoints st)))
  ∧ (IS_NEW ≠ IS_RESIZED →
     0 ≤ m_ModifyIndex st < vec_size (m_PolyPoints st) →
     vec_size (m_PolyPoints st) ≤ Int.INT_MAX →
     is_Some (EndEdit aPosition st))
  ∧ (∃ st', DeleteSegment aPosition st = Some st'
            ∧ 2 ≤ vec_size (m_PolyPoints st')).
Proof.
  intros Htwo. split; [|split].
  - intros st'. unfold EndEdit.
    set (st0 := set_item st _).
    destruct (EndEdit_new_spec st0) as (st1 & -> & _ & _ & Hkeep & Hlen). simpl.
    intros [Hkeep' Hlen']%EndEdit_resized_Some.
    change (m_PolyPoints st0) with (m_PolyPoints st) in *.
    split; [tauto|]. intros Hlt.
    destruct Hlen as [Heq|(_ & ? & _)]; [|done].
    rewrite Heq in *. destruct Hlen' as [Heq'|[? _]]; [|done].
    rewrite Heq' in Hlt. lia.
  - intros Hflags Hmi Hmax. unfold EndEdit.
    set (st0 := set_item st _).
    destruct (EndEdit_new_spec st0) as (st1 & -> & Hitem & Hidx & _ & Hlen). simpl.
    change (m_PolyPoints st0) with (m_PolyPoints st) in *.
    change (m_ModifyIndex st0) with (m_ModifyIndex st) in *.
    destruct Hlen as [Heq|(Hnew & _ & _)].
    + apply EndEdit_resized_is_Some; rewrite ?Heq, ?Hidx; done.
    + unfold EndEdit_resized. rewrite decide_False; [by eexists|].
      rewrite Hitem. intros [? _]. congruence.
  - destruct (DeleteSegment_spec aPosition st) as (st' & -> & ? & _). eauto.
Qed.

End VertexCount.

Lemma EndEdit_DeleteSegment_keep_two_witness :
  let H := Reference.eeschema in
  let st := mkPolyline (mkItem IS_RESIZED (mkPoint 0 0) (mkPoint 0 0)) 0
              [mkPoint 0 0; mkPoint 0 0; mkPoint 10 10] 1 in
  EndEdit (mkPoint 0 0) st = Some (set_points st [mkPoint 0 0; mkPoint 10 10])
  ∧ (∀ st', EndEdit (mkPoint 0 0) st = Some st' →
            2 ≤ vec_size (m_PolyPoints st')
            ∧ (vec_size (m_PolyPoints st') < vec_size (m_PolyPoints st) →
               2 < vec_size (m_PolyPoints st)))
  ∧ (IS_NEW ≠ IS_RESIZED →
     0 ≤ m_ModifyIndex st < vec_size (m_PolyPoints st) →
     vec_size (m_PolyPoints st) ≤ Int.INT_MAX →
     is_Some (EndEdit (mkPoint 0 0) st))
  ∧ (∃ st', DeleteSegment (mkPoint 0 0) st = Some st'
            ∧ 2 ≤ vec_size (m_PolyPoints st')).
Proof.
  split; [reflexivity|].
  apply (@EndEdit_DeleteSegment_keep_two Reference.eeschema
           (mkPolyline (mkItem IS_RESIZED (mkPoint 0 0) (mkPoint 0 0)) 0
              [mkPoint 0 0; mkPoint 0 0; mkPoint 10 10] 1) (mkPoint 0 0)).
  vm_compute. congruence.
Defined.

(** Scenario 4 of the spec: dragging vertex 1 of (0,0) (10,0) (10,10) onto
    vertex 0 and ending the edit removes the dragged vertex. *)
Example drag_collapses_edge :
  let H := Reference.eeschema in
  let st := mkPolyline (mkItem IS_RESIZED (mkPoint 0 0) (mkPoint 0 0)) 0
              [mkPoint 0 0; mkPoint 10 0; mkPoint 10 10] 1 in
  (CalcEdit (mkPoint 0 0) st ≫= EndEdit (mkPoint 0 0))
  = Some (set_points st [mkPoint 0 0; mkPoint 10 10]).
Proof. reflexivity. Qed.

(** Retracting the last segment of a polyline that is being drawn. *)
Example DeleteSegment_retracts :
  let H := Reference.eeschema in
  DeleteSegment (mkPoint 7 7)
    (polyline_of [mkPoint 0 0; mkPoint 10 0; mkPoint 10 10; mkPoint 7 7; mkPoint 7 7])
  = Some (polyline_of [mkPoint 0 0; mkPoint 10 0; mkPoint 7 7]).
Proof. reflexivity. Qed.

(** ** Hit testing *)

Section HitTest.
Context `{Host}.

Lemma HitTest_point_loop_spec (pts : list wxPoint) (p : wxPoint) (md : Z) (idxs : list nat) :
  Forall (λ i, (1 ≤ i < length pts)%nat) idxs →
  ∃ r, HitTest_point_loop pts p md idxs = Some r
       ∧ (r = true ↔
          ∃ i v w, i ∈ idxs ∧ pts !! (i - 1)%nat = Some v ∧ pts !! i = Some w
                   ∧ TestSegmentHit p (TransformCoordinate v) (TransformCoordinate w) md
                     = true).
Proof.
  induction 1 as [|i idxs Hi _ IH]; simpl.
  - exists false. split; [done|]. split; [done|].
    intros (i & v & w & Hin & _). by apply elem_of_nil in Hin.
  - destruct (lookup_lt_is_Some_2 pts (i - 1)) as [v Hv]; [lia|].
    destruct (lookup_lt_is_Some_2 pts i) as [w Hw]; [lia|].
    rewrite Hv, Hw. simpl.
    destruct (TestSegmentHit p (TransformCoordinate v) (TransformCoordinate w) md)
      eqn:Hhit.
    + exists true. split; [done|]. split; [|done]. intros _.
      exists i, v, w. split; [apply elem_of_cons; by left|done].
    + destruct IH as (r & -> & Hr). exists r. split; [done|].
      rewrite Hr. split.
      * intros (j & v' & w' & Hin & ?). exists j, v', w'.
        split; [apply elem_of_cons; by right|done].
      * intros (j & v' & w' & Hin & Hv' & Hw' & Hhit').
        apply elem_of_cons in Hin as [->|Hin]; [congruence|].
        by exists j, v', w'.
Qed.

(** C3, as amended: when [aAccuracy + pen size / 2] fits an [int], the
    point test returns, and it answers true exactly when, for some [i] with
    [1 <= i < n], [TestSegmentHit] accepts the segment from
    [TransformCoordinate] of vertex [i - 1] to [TransformCoordinate] of
    vertex [i] within the tolerance [max( aAccuracy + pen size / 2,
    MINIMUM_SELECTION_DISTANCE )].  The segments that are tested are the
    images of the stored ones under the default transform, not the stored
    ones; the edge from the last vertex back to the first is not among
    them. *)
Theorem HitTest_point_open_chain (st : LIB_POLYLINE) (aPosition : wxPoint) (aAccuracy : Z) :
  Int.in_range (aAccuracy + GetPenSize st ÷ 2) →
  let tolerance := Z.max (aAccuracy + GetPenSize st ÷ 2) MINIMUM_SELECTION_DISTANCE in
  ∃ r, HitTest_point st aPosition aAccuracy = Some r
       ∧ (r = true ↔
          ∃ i v w, (1 ≤ i < length (m_PolyPoints st))%nat
                   ∧ m_PolyPoints st !! (i - 1)%nat = Some v
                   ∧ m_PolyPoints st !! i = Some w
                   ∧ TestSegmentHit aPosition (TransformCoordinate v)
                       (TransformCoordinate w) tolerance = true).
Proof.
  intros Hacc tolerance. unfold HitTest_point, mindist, Int.add, Int.div.
  rewrite (chk_in_range _ Hacc). simpl. fold tolerance.
  unfold GetCornerCount, vec_size. rewrite Nat2Z.id.
  destruct (HitTest_point_loop_spec (m_PolyPoints st) aPosition tolerance
              (seq 1 (length (m_PolyPoints st) - 1))) as (r & -> & Hr).
  { apply Forall_seq. lia. }
  exists r. split; [done|]. rewrite Hr.
  split; intros (i & v & w & Hi & Hrest); exists i, v, w; (split; [|done]).
  - apply elem_of_seq in Hi. lia.
  - apply elem_of_seq. lia.
Qed.

(** The point test does not read [m_Flags]. *)
Lemma HitTest_point_ignores_flags (st : LIB_POLYLINE) (f : Z) (aPosition : wxPoint) (aAccuracy : Z) :
  HitTest_point (set_flags st f) aPosition aAccuracy = HitTest_point st aPosition aAccuracy.
Proof. reflexivity. Qed.

Lemma flagged_iff (flags : Z) :
  Z.land flags (Z.lor STRUCT_DELETED SKIP_STRUCT) ≠ 0
  ↔ Z.land flags STRUCT_DELETED ≠ 0 ∨ Z.land flags SKIP_STRUCT ≠ 0.
Proof.
  rewrite Z.land_lor_distr_r, Z.lor_eq_0_iff.
  destruct (decide (Z.land flags STRUCT_DELETED = 0)),
           (decide (Z.land flags SKIP_STRUCT = 0)); tauto.
Qed.

(** C10: a shape that carries [STRUCT_DELETED] or [SKIP_STRUCT] is never
    hit by the rectangle test, whatever its vertices, the rectangle, the
    accuracy and the [aContained] flag.  The point test has no such guard:
    its answer does not depend on the flags, and on the flagged shape it
    still tests the geometry: when [aAccuracy + pen size / 2] fits an
    [int] it returns, and it answers true exactly when [TestSegmentHit]
    accepts one of the transformed segments of the open chain. *)
Theorem HitTest_rect_flag_guard (st : LIB_POLYLINE) (aRect : EDA_RECT)
    (aContained : bool) (aAccuracy : Z) :
  Z.land (m_Flags (item st)) STRUCT_DELETED ≠ 0
  ∨ Z.land (m_Flags (item st)) SKIP_STRUCT ≠ 0 →
  HitTest_rect st aRect aContained aAccuracy = Some false
  ∧ (∀ f aPosition, HitTest_point (set_flags st f) aPosition aAccuracy
                    = HitTest_point st aPosition aAccuracy)
  ∧ (Int.in_range (aAccuracy + GetPenSize st ÷ 2) →
     ∀ aPosition,
       ∃ r, HitTest_point st aPosition aAccuracy = Some r
            ∧ (r = true ↔
               ∃ i v w, (1 ≤ i < length (m_PolyPoints st))%nat
                        ∧ m_PolyPoints st !! (i - 1)%nat = Some v
                        ∧ m_PolyPoints st !! i = Some w
                        ∧ TestSegmentHit aPosition (TransformCoordinate v)
                            (TransformCoordinate w)
                            (Z.max (aAccuracy + GetPenSize st ÷ 2)
                               MINIMUM_SELECTION_DISTANCE) = true)).
Proof.
  intros Hflag%flagged_iff. split; [|split; [done|]].
  { unfold HitTest_rect. by rewrite decide_True. }
  intros Hacc aPosition. unfold HitTest_point, mindist, Int.add, Int.div.
  rewrite (chk_in_range _ Hacc). simpl.
  unfold GetCornerCount, vec_size. rewrite Nat2Z.id.
  destruct (HitTest_point_loop_spec (m_PolyPoints st) aPosition
              (Z.max (aAccuracy + GetPenSize st ÷ 2) MINIMUM_SELECTION_DISTANCE)
              (seq 1 (length (m_PolyPoints st) - 1))) as (r & -> & Hr).
  { apply Forall_seq. lia. }
  exists r. split; [done|]. rewrite Hr.
  split; intros (i & v & w & Hi & Hrest); exists i, v, w; (split; [|done]).
  - apply elem_of_seq in Hi. lia.
  - apply elem_of_seq. lia.
Qed.

(** *** The rectangle test on the closed cycle *)

Lemma next_index (i n : nat) :
  (i < n)%nat →
  Z.to_nat (Z.rem (Z.of_nat i + 1) (Z.of_nat n)) = (S i `mod` n)%nat
  ∧ 0 ≤ Z.rem (Z.of_nat i + 1) (Z.of_nat n) < Z.of_nat n.
Proof.
  intros Hi. rewrite Z.rem_mod_nonneg by lia.
  replace (Z.of_nat i + 1) with (Z.of_nat (S i)) by lia.
  rewrite <- Nat2Z.inj_mod, Nat2Z.id. split; [done|].
  pose proof (Nat.mod_upper_bound (S i) n). lia.
Qed.

Lemma HitTest_rect_loop_spec (pts : list wxPoint) (sel : EDA_RECT) (idxs : list nat) :
  Forall (λ i, (i < length pts)%nat) idxs →
  ∃ r, HitTest_rect_loop pts sel (vec_size pts) idxs = Some r
       ∧ (r = true ↔
          ∃ i v w, i ∈ idxs ∧ pts !! i = Some v
                   ∧ pts !! (S i `mod` length pts)%nat = Some w
                   ∧ (Contains sel (TransformCoordinate v) = true
                      ∨ IntersectsSegment sel (TransformCoordinate v)
                          (TransformCoordinate w) = true)).
Proof.
  induction 1 as [|i idxs Hi _ IH]; simpl.
  - exists false. split; [done|]. split; [done|].
    intros (i & v & w & Hin & _). by apply elem_of_nil in Hin.
  - rewrite vec_at_lookup.
    destruct (lookup_lt_is_Some_2 pts i Hi) as [v Hv]. rewrite Hv. simpl.
    destruct (next_index i (length pts) Hi) as [Hnext Hrange].
    destruct (vec_at_is_Some pts (Z.rem (Z.of_nat i + 1) (vec_size pts)) Hrange)
      as [w Hw].
    rewrite Hw. simpl. apply vec_at_Some in Hw as [_ Hw].
    unfold vec_size in Hw. rewrite Hnext in Hw.
    destruct (Contains sel (TransformCoordinate v)) eqn:Hin.
    { exists true. split; [done|]. split; [|done]. intros _.
      exists i, v, w. split; [apply elem_of_cons; by left|]. auto. }
    destruct (IntersectsSegment sel (TransformCoordinate v) (TransformCoordinate w))
      eqn:Hcross.
    { exists true. split; [done|]. split; [|done]. intros _.
      exists i, v, w. split; [apply elem_of_cons; by left|]. auto. }
    destruct IH as (r & -> & Hr). exists r. split; [done|].
    rewrite Hr. split.
    + intros (j & v' & w' & Hj & ?). exists j, v', w'.
      split; [apply elem_of_cons; by right|done].
    + intros (j & v' & w' & Hj & Hv' & Hw' & Hhit).
      apply elem_of_cons in Hj as [->|Hj]; [|by exists j, v', w'].
      rewrite Hv in Hv'. rewrite Hw in Hw'. simplify_eq.
      destruct Hhit; congruence.
Qed.

Lemma GetBoundingBox_loop_is_Some (pts : list wxPoint) (idxs : list nat) : ∀ e,
  Forall (λ i, (i < length pts)%nat) idxs → is_Some (GetBoundingBox_loop pts e idxs).
Proof.
  induction idxs as [|i idxs IH]; intros e Hidx; simpl; [by eexists|].
  apply Forall_cons in Hidx as [Hi Hidx].
  destruct (lookup_lt_is_Some_2 pts i Hi) as [p ->]. simpl. by apply IH.
Qed.

(** The bounding box of a polyline that has a vertex. *)
Lemma GetBoundingBox_is_Some (st : LIB_POLYLINE) :
  m_PolyPoints st ≠ [] → Int.in_range (GetPenSize st + 1) →
  is_Some (GetBoundingBox st).
Proof.
  intros Hne Hpen. unfold GetBoundingBox.
  destruct (m_PolyPoints st) as [|p0 rest] eqn:Hpts; [done|].
  change (vec_at (p0 :: rest) 0) with (Some p0). simpl. rewrite <- Hpts.
  destruct (GetBoundingBox_loop_is_Some (m_PolyPoints st)
              (seq 1 (Z.to_nat (GetCornerCount st) - 1))
              (mkExtent (x p0) (x p0) (y p0) (y p0))) as [e ->].
  { apply Forall_seq. unfold GetCornerCount, vec_size. lia. }
  simpl. unfold Int.add. rewrite (chk_in_range _ Hpen). by eexists.
Qed.

(** C4, as amended: the rectangle test with [aContained] false answers
    false for every shape that carries [STRUCT_DELETED] or [SKIP_STRUCT].
    For a shape that carries neither flag and has a vertex (its vertex
    count fits an [int] and pen size + 1 does not overflow, so that the
    bounding box is defined), it returns; it answers false when the
    rectangle, inflated by the accuracy when that is not 0, does not
    intersect the bounding box; otherwise it inflates the rectangle by
    [GetWidth() / 2] and answers true exactly when, for an edge of the
    closed cycle, the edge from the last vertex to the first included, the
    image under [TransformCoordinate] of one of its ends lies in the
    rectangle or the segment between the two images crosses it. *)
Theorem HitTest_rect_closed_cycle (st : LIB_POLYLINE) (aRect : EDA_RECT) (aAccuracy : Z) :
  (Z.land (m_Flags (item st)) STRUCT_DELETED ≠ 0
   ∨ Z.land (m_Flags (item st)) SKIP_STRUCT ≠ 0 →
   HitTest_rect st aRect false aAccuracy = Some false)
  ∧ (Z.land (m_Flags (item st)) STRUCT_DELETED = 0 →
     Z.land (m_Flags (item st)) SKIP_STRUCT = 0 →
     m_PolyPoints st ≠ [] →
     vec_size (m_PolyPoints st) ≤ Int.INT_MAX →
     Int.in_range (GetPenSize st + 1) →
     let sel := if decide (aAccuracy ≠ 0) then Inflate aRect aAccuracy else aRect in
     ∃ bb r,
       GetBoundingBox st = Some bb
       ∧ HitTest_rect st aRect false aAccuracy = Some r
       ∧ (Intersects sel bb = false → r = false)
       ∧ (Intersects sel bb = true →
          (r = true ↔ edge_hit (m_PolyPoints st) (Inflate sel (GetWidth st ÷ 2))))).
Proof.
  split.
  { intros Hflag%flagged_iff. unfold HitTest_rect. by rewrite decide_True. }
  intros Hdel Hskip Hne Hmax Hpen sel.
  assert (Z.land (m_Flags (item st)) (Z.lor STRUCT_DELETED SKIP_STRUCT) = 0) as Hflags.
  { by rewrite Z.land_lor_distr_r, Hdel, Hskip. }
  destruct (GetBoundingBox_is_Some st Hne Hpen) as [bb Hbb]. exists bb.
  unfold HitTest_rect.
  rewrite decide_False by (by intros ?). fold sel. rewrite Hbb. simpl.
  destruct (Intersects sel bb) eqn:Hint; simpl.
  2:{ exists false. split; [done|]. split; [done|]. split; [done|]. intros ?. done. }
  rewrite int_size by done. unfold vec_size at 2. rewrite Nat2Z.id.
  unfold Int.div.
  destruct (HitTest_rect_loop_spec (m_PolyPoints st)
              (Inflate sel (GetWidth st ÷ 2)) (seq 0 (length (m_PolyPoints st))))
    as (r & -> & Hr).
  { apply Forall_seq. lia. }
  exists r. split; [done|]. split; [done|]. split; [intros ?; done|]. intros _.
  rewrite Hr. unfold edge_hit. split.
  - intros (i & v & w & _ & Hv & Hw & Hhit). exists i, v, w. tauto.
  - intros (i & v & w & Hv & Hw & Hhit).
    assert (∀ j u, m_PolyPoints st !! j = Some u →
              ∃ u', m_PolyPoints st !! (S j `mod` length (m_PolyPoints st))%nat = Some u')
      as Hnext.
    { intros j u Hu. apply lookup_lt_Some in Hu. apply lookup_lt_is_Some_2.
      apply Nat.mod_upper_bound. lia. }
    assert (∀ j u, m_PolyPoints st !! j = Some u → j ∈ seq 0 (length (m_PolyPoints st)))
      as Hseq.
    { intros j u Hu. apply lookup_lt_Some in Hu. apply elem_of_seq. lia. }
    destruct Hhit as [Hin|[Hin|Hcross]].
    + exists i, v, w. eauto 10.
    + destruct (Hnext _ _ Hw) as [u' Hu']. eexists _, w, u'. eauto 10.
    + exists i, v, w. eauto 10.
Qed.

End HitTest.

Lemma HitTest_point_open_chain_witness :
  let H := Reference.eeschema in
  let st := polyline_of triangle in
  let tolerance := Z.max (0 + GetPenSize st ÷ 2) MINIMUM_SELECTION_DISTANCE in
  ∃ r, HitTest_point st (mkPoint 10 (-5)) 0 = Some r
       ∧ (r = true ↔
          ∃ i v w, (1 ≤ i < length (m_PolyPoints st))%nat
                   ∧ m_PolyPoints st !! (i - 1)%nat = Some v
                   ∧ m_PolyPoints st !! i = Some w
                   ∧ TestSegmentHit (mkPoint 10 (-5)) (TransformCoordinate v)
                       (TransformCoordinate w) tolerance = true).
Proof.
  apply (@HitTest_point_open_chain Reference.eeschema
           (polyline_of triangle) (mkPoint 10 (-5)) 0).
  vm_compute. split; congruence.
Defined.

(** C3 fails as stated, for the stored segments.  In the editor, where the
    default transform negates [y], the point (10,5) lies on the stored
    segment from (10,0) to (10,10) of the triangle, and the point test
    misses it; the point (10,-5) is 5 units away from both stored segments
    of the open chain, more than the tolerance 2, and the point test hits
    it. *)
Lemma HitTest_point_stored_segments :
  let H := Reference.eeschema in
  let st := polyline_of triangle in
  let tolerance := Z.max (0 + GetPenSize st ÷ 2) MINIMUM_SELECTION_DISTANCE in
  (m_PolyPoints st !! 1%nat = Some (mkPoint 10 0)
   ∧ m_PolyPoints st !! 2%nat = Some (mkPoint 10 10)
   ∧ TestSegmentHit (mkPoint 10 5) (mkPoint 10 0) (mkPoint 10 10) tolerance = true
   ∧ HitTest_point st (mkPoint 10 5) 0 = Some false)
  ∧ ((∀ i v w, (1 ≤ i < length (m_PolyPoints st))%nat →
               m_PolyPoints st !! (i - 1)%nat = Some v →
               m_PolyPoints st !! i = Some w →
               TestSegmentHit (mkPoint 10 (-5)) v w tolerance = false)
     ∧ HitTest_point st (mkPoint 10 (-5)) 0 = Some true).
Proof.
  split; [repeat split; reflexivity|]. split; [|reflexivity].
  intros i v w Hi Hv Hw. simpl in Hi.
  destruct i as [|[|[|i]]]; [lia| | |lia];
    simpl in Hv, Hw; injection Hv as <-; injection Hw as <-; reflexivity.
Qed.

(** Scenario 3 of the spec: on the segment from (0,0) to (10,0), the point
    (5,1) is a hit and the point (5,5) is not. *)
Example HitTest_point_scenario :
  let H := Reference.eeschema in
  HitTest_point (polyline_of [mkPoint 0 0; mkPoint 10 0]) (mkPoint 5 1) 0 = Some true ∧
  HitTest_point (polyline_of [mkPoint 0 0; mkPoint 10 0]) (mkPoint 5 5) 0 = Some false.
Proof. split; reflexivity. Qed.

(** The point (5,-5) lies, on screen, on the closing edge of the triangle
    and 5 units away from its two other edges: the point test misses it. *)
Example HitTest_point_closing_edge :
  let H := Reference.eeschema in
  TestSegmentHit (mkPoint 5 (-5)) (TransformCoordinate (mkPoint 10 10))
    (TransformCoordinate (mkPoint 0 0)) 2 = true ∧
  HitTest_point (polyline_of triangle) (mkPoint 5 (-5)) 0 = Some false.
Proof. split; reflexivity. Qed.

Lemma HitTest_rect_flag_guard_witness :
  let H := Reference.eeschema in
  let st := set_flags (polyline_of triangle) STRUCT_DELETED in
  HitTest_rect st (Reference.mkBox (-100) (-100) 100 100) false 0 = Some false
  ∧ (∀ f aPosition, HitTest_point (set_flags st f) aPosition 0
                    = HitTest_point st aPosition 0)
  ∧ (Int.in_range (0 + GetPenSize st ÷ 2) →
     ∀ aPosition,
       ∃ r, HitTest_point st aPosition 0 = Some r
            ∧ (r = true ↔
               ∃ i v w, (1 ≤ i < length (m_PolyPoints st))%nat
                        ∧ m_PolyPoints st !! (i - 1)%nat = Some v
                        ∧ m_PolyPoints st !! i = Some w
                        ∧ TestSegmentHit aPosition (TransformCoordinate v)
                            (TransformCoordinate w)
                            (Z.max (0 + GetPenSize st ÷ 2)
                               MINIMUM_SELECTION_DISTANCE) = true)).
Proof.
  apply (@HitTest_rect_flag_guard Reference.eeschema
           (set_flags (polyline_of triangle) STRUCT_DELETED)
           (Reference.mkBox (-100) (-100) 100 100) false 0).
  left. vm_compute. congruence.
Defined.

(** A deleted triangle: the rectangle that covers it does not hit it, the
    point (10,-5) on its second edge does, and the point (5,-5) on the
    closing edge does not. *)
Example HitTest_deleted_shape :
  let H := Reference.eeschema in
  let st := set_flags (polyline_of triangle) STRUCT_DELETED in
  HitTest_rect st (Reference.mkBox (-100) (-100) 100 100) false 0 = Some false
  ∧ HitTest_rect st (Reference.mkBox (-100) (-100) 100 100) true 0 = Some false
  ∧ HitTest_rect (polyline_of triangle) (Reference.mkBox (-100) (-100) 100 100) true 0
    = Some true
  ∧ HitTest_point st (mkPoint 10 (-5)) 0 = Some true
  ∧ HitTest_point st (mkPoint 5 (-5)) 0 = Some false.
Proof. repeat split; reflexivity. Qed.

Lemma HitTest_rect_closed_cycle_witness :
  let H := Reference.eeschema in
  let st := polyline_of triangle in
  let sel := Reference.mkBox 4 (-6) 6 (-4) in
  HitTest_rect (set_flags st SKIP_STRUCT) sel false 0 = Some false
  ∧ ∃ bb r,
      GetBoundingBox st = Some bb
      ∧ HitTest_rect st sel false 0 = Some r
      ∧ (Intersects sel bb = false → r = false)
      ∧ (Intersects sel bb = true →
         (r = true ↔ edge_hit (m_PolyPoints st) (Inflate sel (GetWidth st ÷ 2)))).
Proof.
  split.
  - apply (@HitTest_rect_closed_cycle Reference.eeschema
             (set_flags (polyline_of triangle) Reference.flag_SKIP_STRUCT)
             (Reference.mkBox 4 (-6) 6 (-4)) 0).
    right. vm_compute. congruence.
  - apply (@HitTest_rect_closed_cycle Reference.eeschema (polyline_of triangle)
             (Reference.mkBox 4 (-6) 6 (-4)) 0).
    + reflexivity.
    + reflexivity.
    + discriminate.
    + vm_compute. congruence.
    + vm_compute. split; congruence.
Defined.

(** Scenario 5 of the spec: a rectangle that overlaps only the closing
    edge of the triangle hits it. *)
Example HitTest_rect_closing_edge :
  let H := Reference.eeschema in
  HitTest_rect (polyline_of triangle) (Reference.mkBox 4 (-6) 6 (-4)) false 0 = Some true.
Proof. reflexivity. Qed.

(** The rectangle test looks at the transformed vertices as well: the
    rectangle from (9,1) to (11,2) holds the stored vertex (10,1) of the
    segment from (0,0) to (10,1), not its image (10,-1), and misses the
    shape; the rectangle from (9,-2) to (11,-1) hits it. *)
Example HitTest_rect_transformed :
  let H := Reference.eeschema in
  let st := polyline_of [mkPoint 0 0; mkPoint 10 1] in
  Contains (Reference.mkBox 9 1 11 2) (mkPoint 10 1) = true
  ∧ HitTest_rect st (Reference.mkBox 9 1 11 2) false 0 = Some false
  ∧ HitTest_rect st (Reference.mkBox 9 (-2) 11 (-1)) false 0 = Some true.
Proof. repeat split; reflexivity. Qed.

(** C4 fails as stated: the same rectangle intersects the bounding box of
    the triangle and its closing edge, and the test answers false when the
    triangle carries [STRUCT_DELETED]. *)
Lemma HitTest_rect_flagged_miss :
  let H := Reference.eeschema in
  let st := set_flags (polyline_of triangle) STRUCT_DELETED in
  let sel := Reference.mkBox 4 (-6) 6 (-4) in
  GetBoundingBox st = Some (Reference.mkBox (-1) (-11) 11 1)
  ∧ Intersects sel (Reference.mkBox (-1) (-11) 11 1) = true
  ∧ edge_hit (m_PolyPoints st) (Inflate sel (GetWidth st ÷ 2))
  ∧ HitTest_rect st sel false 0 = Some false.
Proof.
  repeat split; try reflexivity.
  exists 2%nat, (mkPoint 10 10), (mkPoint 0 0).
  repeat split; try reflexivity. right. right. reflexivity.
Qed.

(** ** ContinueEdit *)

Section ContinueEdit.
Context `{Host}.

Lemma size_minus_two (pts : list wxPoint) (n : nat) :
  length pts = S (S n) → vec_size pts < SizeT.modulus →
  SizeT.sub (vec_size pts) 2 = Z.of_nat n.
Proof.
  unfold vec_size, SizeT.sub, SizeT.modulus. intros -> ?.
  rewrite Z.mod_small; lia.
Qed.

Lemma last_lookup_pred {A} (v : list A) : last v = v !! (length v - 1)%nat.
Proof. rewrite last_lookup. f_equal. lia. Qed.

(** C8: in Creating mode ([IsNew()]), [ContinueEdit] appends the point
    exactly when the last two vertices differ and leaves the list as it
    is when they are equal; in any other mode it changes nothing and
    returns false. *)
Theorem ContinueEdit_appends_iff_distinct (st : LIB_POLYLINE) (aPosition : wxPoint) :
  (IsNew (m_Flags (item st)) = false → ContinueEdit aPosition st = Some (false, st))
  ∧ (IsNew (m_Flags (item st)) = true →
     2 ≤ vec_size (m_PolyPoints st) < SizeT.modulus →
     ∃ a b, m_PolyPoints st !! (length (m_PolyPoints st) - 2)%nat = Some a
            ∧ m_PolyPoints st !! (length (m_PolyPoints st) - 1)%nat = Some b
            ∧ (a ≠ b → ContinueEdit aPosition st
                       = Some (true, set_points st (m_PolyPoints st ++ [aPosition])))
            ∧ (a = b → ContinueEdit aPosition st = Some (true, st))).
Proof.
  unfold ContinueEdit. split; intros Hnew; rewrite Hnew; [done|].
  intros [Hge Hlt].
  destruct (lookup_lt_is_Some_2 (m_PolyPoints st) (length (m_PolyPoints st) - 2))
    as [a Ha]; [unfold vec_size in Hge; lia|].
  destruct (lookup_lt_is_Some_2 (m_PolyPoints st) (length (m_PolyPoints st) - 1))
    as [b Hb]; [unfold vec_size in Hge; lia|].
  exists a, b. split; [done|]. split; [done|].
  rewrite (size_minus_two _ (length (m_PolyPoints st) - 2))
    by (unfold vec_size in Hge; lia || done).
  rewrite vec_at_lookup, Ha. unfold vec_back.
  rewrite last_lookup_pred, Hb. simpl.
  split; intros ?; [by rewrite decide_True | by rewrite decide_False by tauto].
Qed.

End ContinueEdit.

Lemma ContinueEdit_appends_iff_distinct_witness :
  let H := Reference.eeschema in
  let st := set_flags (polyline_of [mkPoint 0 0; mkPoint 10 0]) IS_NEW in
  ContinueEdit (mkPoint 10 10) st
  = Some (true, set_points st [mkPoint 0 0; mkPoint 10 0; mkPoint 10 10]).
Proof.
  destruct (@ContinueEdit_appends_iff_distinct Reference.eeschema
              (set_flags (polyline_of [mkPoint 0 0; mkPoint 10 0]) Reference.flag_IS_NEW)
              (mkPoint 10 10)) as [_ Hnew].
  destruct Hnew as (a & b & Ha & Hb & Hne & _).
  - reflexivity.
  - vm_compute. split; congruence.
  - injection Ha as <-. injection Hb as <-. apply Hne. discriminate.
Defined.

(** Scenario 1 of the spec: a new polyline starts with its start point
    twice; [ContinueEdit] refuses to add a vertex until the rubber band has
    moved, and [EndEdit] drops a doubled last vertex. *)
Example creating_a_polyline :
  let H := Reference.eeschema in
  let points (o : option LIB_POLYLINE) : option (list wxPoint) := m_PolyPoints <$> o in
  let continue (o : option LIB_POLYLINE) : option LIB_POLYLINE :=
    r ← (o ≫= ContinueEdit (mkPoint 10 0)); Some (snd r) in
  let new := BeginEdit IS_NEW (mkPoint 0 0) (polyline_of []) in
  points new = Some [mkPoint 0 0; mkPoint 0 0]
  ∧ points (continue new) = Some [mkPoint 0 0; mkPoint 0 0]
  ∧ points (continue (new ≫= CalcEdit (mkPoint 10 0)))
    = Some [mkPoint 0 0; mkPoint 10 0; mkPoint 10 0]
  ∧ points (continue (new ≫= CalcEdit (mkPoint 10 0)) ≫= EndEdit (mkPoint 10 0))
    = Some [mkPoint 0 0; mkPoint 10 0].
Proof. repeat split; reflexivity. Qed.

(** ** BeginEdit in resize mode *)

Section BeginEdit.
Context `{Host}.

Lemma pt_sub_Some a b c :
  pt_sub a b = Some c → c = mkPoint (x a - x b) (y a - y b).
Proof. unfold pt_sub. intros Hs. simplify_option_eq. by int_inv. Qed.

Lemma pt_add_Some a b c :
  pt_add a b = Some c → c = mkPoint (x a + x b) (y a + y b).
Proof. unfold pt_add. intros Hs. simplify_option_eq. by int_inv. Qed.

Lemma sqdist_Some p v d :
  sqdist p v = Some d →
  d = (x p - x v) * (x p - x v) + (y p - y v) * (y p - y v).
Proof.
  unfold sqdist. intros Hd.
  apply bind_Some in Hd as (c & ->%pt_sub_Some & Hd). simpl in Hd.
  simplify_option_eq. by int_inv.
Qed.

Lemma middist_Some p v u m :
  middist p v u = Some m →
  m = ((2 * x p - x v - x u) * (2 * x p - x v - x u)
       + (2 * y p - y v - y u) * (2 * y p - y v - y u)) ÷ 4 + 1.
Proof.
  unfold middist. intros Hm.
  apply bind_Some in Hm as (o1 & ->%pt_add_Some & Hm).
  apply bind_Some in Hm as (o2 & ->%pt_sub_Some & Hm).
  apply bind_Some in Hm as (o3 & ->%pt_sub_Some & Hm). simpl in Hm.
  simplify_option_eq. int_inv. unfold Int.div. do 2 f_equal. lia.
Qed.

(** The middle of the edge from a vertex to itself is the vertex: the
    biased distance is the squared distance plus 1. *)
Lemma middist_same_vertex p v d m :
  sqdist p v = Some d → middist p v v = Some m → m = d + 1.
Proof.
  intros ->%sqdist_Some ->%middist_Some. f_equal.
  replace ((2 * x p - x v - x v) * (2 * x p - x v - x v)
           + (2 * y p - y v - y v) * (2 * y p - y v - y v))
    with (((x p - x v) * (x p - x v) + (y p - y v) * (y p - y v)) * 4) by lia.
  by apply Z.quot_mul.
Qed.

(** The first iteration, on vertex 0: neither test changes the search. *)
Lemma search_step_first p v0 d0 s :
  sqdist p v0 = Some d0 →
  search_step p v0 (mkSearch 0 v0 v0 0 d0) = Some s →
  s = mkSearch 1 v0 v0 0 d0 ∧ middist p v0 v0 = Some (d0 + 1).
Proof.
  intros Hd0. unfold search_step, search_vertex, search_middle. rewrite Hd0. simpl.
  rewrite decide_False by lia. simpl.
  destruct (middist p v0 v0) as [m|] eqn:Hm; [|done]. simpl.
  pose proof (middist_same_vertex _ _ _ _ Hd0 Hm) as ->.
  rewrite decide_False by lia. simpl. intros [= <-]. done.
Qed.

(** From the second iteration on, a test that changes the search leaves a
    non-zero [m_ModifyIndex]: positive for a vertex, negative for the
    middle of an edge. *)
Lemma search_vertex_index p v s s' :
  search_vertex p v s = Some s' →
  index s' = index s ∧ prevPoint s' = prevPoint s
  ∧ (s' = s ∨ s_ModifyIndex s' = index s).
Proof.
  unfold search_vertex. intros Hs. apply bind_Some in Hs as (d & _ & Hs).
  case_decide; injection Hs as <-; simpl; auto.
Qed.

Lemma search_middle_index p v s s' :
  search_middle p v s = Some s' →
  index s' = index s ∧ (s' = s ∨ s_ModifyIndex s' = - index s).
Proof.
  unfold search_middle. intros Hs. apply bind_Some in Hs as (d & _ & Hs).
  case_decide; [|injection Hs as <-; auto].
  apply bind_Some in Hs as (n & Hn & [= <-]). int_inv. simpl. auto.
Qed.

Lemma search_step_inv p v v0 d0 s s' :
  untouched_or_nonzero v0 d0 s → search_step p v s = Some s' →
  untouched_or_nonzero v0 d0 s'.
Proof.
  intros [Hidx Hinv]. unfold search_step. intros Hs.
  apply bind_Some in Hs as (s1 & (Hi1 & _ & Hv)%search_vertex_index & Hs).
  apply bind_Some in Hs as (s2 & (Hi2 & Hm)%search_middle_index & Hs).
  apply bind_Some in Hs as (next & Hnext & [= <-]). int_inv.
  split; simpl; [lia|].
  destruct Hm as [->| ->]; [|right; lia].
  destruct Hv as [->| ->]; [done|right; lia].
Qed.

Lemma search_loop_inv p v0 d0 pts : ∀ s s',
  untouched_or_nonzero v0 d0 s → search_loop p s pts = Some s' →
  untouched_or_nonzero v0 d0 s'.
Proof.
  induction pts as [|v pts IH]; simpl; intros s s' Hinv Hs; [by injection Hs as <-|].
  apply bind_Some in Hs as (s1 & Hstep & Hs).
  eapply IH; [|done]. by eapply search_step_inv.
Qed.

Lemma nearest_point_zero (p v0 : wxPoint) (rest : list wxPoint) (s : search) :
  nearest_point p (v0 :: rest) = Some s →
  ∃ d0, sqdist p v0 = Some d0
        ∧ middist p v0 v0 = Some (d0 + 1)
        ∧ search_step p v0 (mkSearch 0 v0 v0 0 d0) = Some (mkSearch 1 v0 v0 0 d0)
        ∧ (s_ModifyIndex s = 0 → s_initialPos s = v0 ∧ distanceMin s = d0).
Proof.
  unfold nearest_point, search_init. simpl. intros Hs.
  apply bind_Some in Hs as (s0 & Hs0 & Hs).
  apply bind_Some in Hs0 as (d0 & Hd0 & [= <-]).
  apply bind_Some in Hs as (s1 & Hstep & Hloop).
  destruct (search_step_first _ _ _ _ Hd0 Hstep) as [-> Hmid].
  exists d0. split; [done|]. split; [done|]. split; [done|].
  intros Hzero.
  assert (untouched_or_nonzero v0 d0 (mkSearch 1 v0 v0 0 d0)) as Hinit.
  { split; simpl; [lia|]. by left. }
  destruct (search_loop_inv p v0 d0 rest _ _ Hinit Hloop) as [_ [?|?]]; [tauto|done].
Qed.

(** With [m_ModifyIndex] 0, [CalcEdit] moves vertex 0 and inserts nothing. *)
Lemma CalcEdit_index_zero (st : LIB_POLYLINE) (aPosition : wxPoint) :
  IsNew (m_Flags (item st)) = false → IsResized (m_Flags (item st)) = true →
  m_ModifyIndex st = 0 → m_PolyPoints st ≠ [] →
  CalcEdit aPosition st = Some (set_points st (<[0%nat := aPosition]> (m_PolyPoints st))).
Proof.
  intros Hnew Hres Hzero Hne. unfold CalcEdit, CalcEdit_insert.
  rewrite Hnew, Hres, Hzero. simpl. rewrite Hzero. unfold vec_set.
  rewrite decide_True; [done|].
  unfold vec_size. destruct (m_PolyPoints st); [done|simpl; lia].
Qed.

(** *** The search returns on every polyline of moderate coordinates *)

Lemma square_bound (a b : Z) : Z.abs a ≤ b → 0 ≤ a * a ≤ b * b.
Proof. intros ?. nia. Qed.

Lemma sqdist_small p v :
  small_point p → small_point v → ∃ d, sqdist p v = Some d.
Proof.
  intros [??] [??]. unfold sqdist, pt_sub, Int.sub, Int.mul, Int.add.
  rewrite !chk_in_range by range_lia. simpl.
  pose proof (square_bound (x p - x v) 16382).
  pose proof (square_bound (y p - y v) 16382).
  rewrite !chk_in_range by range_lia. simpl.
  rewrite chk_in_range by range_lia. by eexists.
Qed.

Lemma middist_small p v u :
  small_point p → small_point v → small_point u → ∃ m, middist p v u = Some m.
Proof.
  intros [??] [??] [??].
  unfold middist, pt_add, pt_sub, Int.sub, Int.mul, Int.add, Int.div.
  rewrite !chk_in_range by range_lia. simpl.
  rewrite !chk_in_range by range_lia. simpl.
  rewrite !chk_in_range by range_lia. simpl.
  pose proof (square_bound (x p + x p - x v - x u) 32764).
  pose proof (square_bound (y p + y p - y v - y u) 32764).
  rewrite !chk_in_range by range_lia. simpl.
  rewrite chk_in_range by range_lia. simpl.
  set (s := (x p + x p - x v - x u) * (x p + x p - x v - x u)
            + (y p + y p - y v - y u) * (y p + y p - y v - y u)).
  assert (0 ≤ s ≤ 2146959392) by (unfold s; lia).
  pose proof (Z.quot_pos s 4). pose proof (Z.quot_le_upper_bound s 4 s).
  rewrite chk_in_range by (unfold Int.in_range, Int.INT_MIN, Int.INT_MAX; lia).
  by eexists.
Qed.

Lemma search_step_small p v s :
  small_point p → small_point v → small_point (prevPoint s) →
  0 ≤ index s < Int.INT_MAX →
  ∃ s', search_step p v s = Some s' ∧ index s' = index s + 1 ∧ prevPoint s' = v.
Proof.
  intros Hp Hv Hu Hidx. unfold search_step.
  destruct (sqdist_small p v Hp Hv) as [d Hd].
  assert (∃ s1, search_vertex p v s = Some s1 ∧ index s1 = index s
                ∧ prevPoint s1 = prevPoint s) as (s1 & -> & Hi1 & Hu1).
  { unfold search_vertex. rewrite Hd. simpl. case_decide; eauto. }
  simpl. rewrite <- Hu1 in Hu. destruct (middist_small p v _ Hp Hv Hu) as [m Hm].
  assert (∃ s2, search_middle p v s1 = Some s2 ∧ index s2 = index s) as (s2 & -> & Hi2).
  { unfold search_middle. rewrite Hm. simpl. case_decide; [|eauto].
    unfold Int.neg. rewrite chk_in_range by range_lia. simpl. eauto. }
  simpl. unfold Int.add. rewrite chk_in_range by range_lia. simpl.
  eexists. split; [done|]. simpl. split; [lia|done].
Qed.

Lemma search_loop_small p pts : ∀ s,
  small_point p → Forall small_point pts → small_point (prevPoint s) →
  0 ≤ index s → index s + vec_size pts ≤ Int.INT_MAX →
  is_Some (search_loop p s pts).
Proof.
  induction pts as [|v pts IH]; intros s Hp Hpts Hu Hidx Hlen; simpl; [by eexists|].
  apply Forall_cons in Hpts as [Hv Hpts].
  unfold vec_size in Hlen. simpl length in Hlen.
  destruct (search_step_small p v s Hp Hv Hu) as (s' & -> & Hi' & Hu'); [lia|].
  simpl. apply IH; try done; [by rewrite Hu'|lia|unfold vec_size; lia].
Qed.

(** [BeginEdit] in resize mode returns on every non-empty polyline whose
    coordinates, like those of the cursor, stay within [-8191 .. 8191]. *)
Lemma BeginEdit_resize_defined (st : LIB_POLYLINE) (aPosition : wxPoint) :
  IS_NEW ≠ IS_RESIZED →
  m_PolyPoints st ≠ [] → Forall small_point (m_PolyPoints st) →
  small_point aPosition → vec_size (m_PolyPoints st) ≤ Int.INT_MAX →
  is_Some (BeginEdit IS_RESIZED aPosition st).
Proof.
  intros Hmodes Hne Hpts Hp Hlen. unfold BeginEdit.
  rewrite decide_False by (by intros ?). rewrite decide_True by done. simpl.
  destruct (m_PolyPoints st) as [|v0 rest] eqn:Hst; [done|].
  unfold nearest_point, search_init.
  change (vec_at (v0 :: rest) 0) with (Some v0). simpl.
  pose proof (Forall_inv Hpts) as Hv0.
  destruct (sqdist_small aPosition v0 Hp Hv0) as [d0 ->]. simpl.
  destruct (search_loop_small aPosition (v0 :: rest) (mkSearch 0 v0 v0 0 d0))
    as [s Hs]; simpl; try done.
  simpl in Hs. rewrite Hs. by eexists.
Qed.

(** C9: on a non-empty polyline, whenever [BeginEdit] in resize mode
    returns (as it does for coordinates of moderate size), the iteration
    on vertex 0 has changed nothing: the biased distance to the middle of
    the edge from vertex 0 to itself is the squared distance to vertex 0
    plus 1, which is not below the running minimum.  A resulting
    [m_ModifyIndex] of 0 is therefore the initial choice, vertex 0 itself:
    no vertex and no middle of an edge has replaced it. *)
Theorem BeginEdit_index_zero (st : LIB_POLYLINE) (aPosition v0 : wxPoint)
    (rest : list wxPoint) :
  IS_NEW ≠ IS_RESIZED →
  m_PolyPoints st = v0 :: rest →
  (∀ st', BeginEdit IS_RESIZED aPosition st = Some st' →
     ∃ d0 s,
       sqdist aPosition v0 = Some d0
       ∧ middist aPosition v0 v0 = Some (d0 + 1)
       ∧ search_step aPosition v0 (mkSearch 0 v0 v0 0 d0) = Some (mkSearch 1 v0 v0 0 d0)
       ∧ nearest_point aPosition (m_PolyPoints st) = Some s
       ∧ m_ModifyIndex st' = s_ModifyIndex s
       ∧ m_initialPos (item st') = s_initialPos s
       ∧ m_PolyPoints st' = m_PolyPoints st
       ∧ (m_ModifyIndex st' = 0 → m_initialPos (item st') = v0 ∧ distanceMin s = d0))
  ∧ (Forall small_point (m_PolyPoints st) → small_point aPosition →
     vec_size (m_PolyPoints st) ≤ Int.INT_MAX →
     is_Some (BeginEdit IS_RESIZED aPosition st)).
Proof.
  intros Hmodes Hpts. split.
  - intros st'. unfold BeginEdit.
    rewrite decide_False by (by intros ?). rewrite decide_True by done.
    simpl. intros Hb. apply bind_Some in Hb as (s & Hs & [= <-]). simpl.
    rewrite Hpts in Hs.
    destruct (nearest_point_zero _ _ _ _ Hs) as (d0 & Hd0 & Hmid & Hstep & Hzero).
    exists d0, s. rewrite Hpts. repeat (split; [done|]). done.
  - intros Hsmall Hp Hlen. apply BeginEdit_resize_defined; try done.
    by rewrite Hpts.
Qed.

End BeginEdit.

Lemma BeginEdit_index_zero_witness :
  let H := Reference.eeschema in
  let st := polyline_of triangle in
  let st' := mkPolyline (mkItem IS_RESIZED (mkPoint 0 0) (mkPoint 0 0)) 0 triangle 0 in
  BeginEdit IS_RESIZED (mkPoint 1 1) st = Some st'
  ∧ ∃ d0 s,
      sqdist (mkPoint 1 1) (mkPoint 0 0) = Some d0
      ∧ middist (mkPoint 1 1) (mkPoint 0 0) (mkPoint 0 0) = Some (d0 + 1)
      ∧ search_step (mkPoint 1 1) (mkPoint 0 0)
          (mkSearch 0 (mkPoint 0 0) (mkPoint 0 0) 0 d0)
        = Some (mkSearch 1 (mkPoint 0 0) (mkPoint 0 0) 0 d0)
      ∧ nearest_point (mkPoint 1 1) (m_PolyPoints st) = Some s
      ∧ m_ModifyIndex st' = s_ModifyIndex s
      ∧ m_initialPos (item st') = s_initialPos s
      ∧ m_PolyPoints st' = m_PolyPoints st
      ∧ (m_ModifyIndex st' = 0 →
         m_initialPos (item st') = mkPoint 0 0 ∧ distanceMin s = d0).
Proof.
  split; [reflexivity|].
  destruct (@BeginEdit_index_zero Reference.eeschema (polyline_of triangle)
              (mkPoint 1 1) (mkPoint 0 0) [mkPoint 10 0; mkPoint 10 10]) as [Hzero _].
  - vm_compute. congruence.
  - reflexivity.
  - apply Hzero. reflexivity.
Defined.

(** Dragging near vertex 0, near vertex 2 and near the middle of the edge
    from vertex 1 to vertex 2 of the triangle. *)
Example BeginEdit_choices :
  let H := Reference.eeschema in
  let chosen (p : wxPoint) : option Z :=
    m_ModifyIndex <$> BeginEdit IS_RESIZED p (polyline_of triangle) in
  chosen (mkPoint 1 1) = Some 0
  ∧ chosen (mkPoint 9 9) = Some 2
  ∧ chosen (mkPoint 10 5) = Some (-2).
Proof. repeat split; reflexivity. Qed.

(** ** Further properties: transformations *)

Lemma mapM_fmap_Some {A B} (f : A → option B) (g : A → B) (l : list A) (k : list B) :
  mapM f l = Some k → (∀ a b, f a = Some b → b = g a) → k = g <$> l.
Proof.
  intros Hm Hfg. apply mapM_Some in Hm.
  induction Hm as [|a b l k Hab _ IH]; [done|].
  simpl. f_equal; [by apply Hfg|done].
Qed.

Lemma mapM_fmap_intro {A B} (f : A → option B) (g : A → B) (l : list A) :
  Forall (λ a, f a = Some (g a)) l → mapM f l = Some (g <$> l).
Proof.
  intros Hl. apply mapM_Some.
  induction Hl as [|a l Ha _ IH]; simpl; constructor; done.
Qed.

Lemma mirror_y_Some c p q :
  mirror_y c p = Some q →
  q = mkPoint (x p) (2 * y c - y p) ∧ mirror_y_fits c p.
Proof.
  unfold mirror_y, mirror_y_fits. intros Hm. simplify_option_eq. int_inv.
  repeat split; try (f_equal; lia); range_lia.
Qed.

Lemma mirror_y_fits_Some c p :
  mirror_y_fits c p → mirror_y c p = Some (mkPoint (x p) (2 * y c - y p)).
Proof.
  intros (H1 & H2 & H3). unfold mirror_y, Int.sub, Int.mul, Int.add.
  rewrite (chk_in_range _ H1). simpl.
  rewrite chk_in_range by range_lia. simpl.
  rewrite chk_in_range by range_lia. simpl.
  do 2 f_equal. lia.
Qed.

Lemma MirrorVertical_twice (aCenter : wxPoint) (pts pts' : list wxPoint) :
  Forall int_point pts →
  MirrorVertical aCenter pts = Some pts' →
  MirrorVertical aCenter pts' = Some pts.
Proof.
  unfold MirrorVertical. intros Hint Hm.
  apply mapM_Some in Hm. apply mapM_Some.
  induction Hm as [|p q pts pts' Hpq _ IH]; [constructor|].
  apply Forall_cons in Hint as [[_ Hp] Hint].
  constructor; [|by apply IH].
  apply mirror_y_Some in Hpq as [-> (H1 & H2 & H3)].
  rewrite mirror_y_fits_Some; simpl.
  - destruct p as [px py]; simpl. do 2 f_equal. lia.
  - unfold mirror_y_fits. simpl. repeat split; range_lia.
Qed.

(** X1: mirroring twice about the same horizontal axis gives back the
    vertex list, exactly.  The first mirroring returns exactly when the
    mirror images are representable, and the second one returns whenever
    the first does. *)
Theorem MirrorVertical_involutive (aCenter : wxPoint) (pts : list wxPoint) :
  Forall int_point pts →
  (∀ pts', MirrorVertical aCenter pts = Some pts' →
           MirrorVertical aCenter pts' = Some pts)
  ∧ (Forall (mirror_y_fits aCenter) pts ↔ is_Some (MirrorVertical aCenter pts)).
Proof.
  intros Hint. split; [intros pts'; by apply MirrorVertical_twice|].
  unfold MirrorVertical. rewrite mapM_is_Some. apply Forall_proper; [|done].
  intros p. split.
  - intros Hf. eexists. by apply mirror_y_fits_Some.
  - intros [q Hq]. by apply mirror_y_Some in Hq as [_ ?].
Qed.

Lemma MirrorVertical_involutive_witness :
  MirrorVertical (mkPoint 0 3) [mkPoint 0 0; mkPoint 10 0; mkPoint 10 10]
  = Some [mkPoint 0 6; mkPoint 10 6; mkPoint 10 (-4)]
  ∧ MirrorVertical (mkPoint 0 3) [mkPoint 0 6; mkPoint 10 6; mkPoint 10 (-4)]
    = Some [mkPoint 0 0; mkPoint 10 0; mkPoint 10 10].
Proof.
  split; [reflexivity|].
  destruct (MirrorVertical_involutive (mkPoint 0 3)
              [mkPoint 0 0; mkPoint 10 0; mkPoint 10 10]) as [Htwice _].
  - repeat constructor; vm_compute; congruence.
  - apply Htwice. reflexivity.
Defined.

Lemma MirrorHorizontal_fmap c pts pts' :
  MirrorHorizontal c pts = Some pts' →
  pts' = (λ p, mkPoint (2 * x c - x p) (y p)) <$> pts.
Proof.
  intros Hm. eapply mapM_fmap_Some; [done|].
  intros a b Hab. by apply mirror_x_Some in Hab as [-> _].
Qed.

Lemma MirrorVertical_fmap c pts pts' :
  MirrorVertical c pts = Some pts' →
  pts' = (λ p, mkPoint (x p) (2 * y c - y p)) <$> pts.
Proof.
  intros Hm. eapply mapM_fmap_Some; [done|].
  intros a b Hab. by apply mirror_y_Some in Hab as [-> _].
Qed.

(** X2: the two mirrorings commute: mirroring about the vertical axis
    through a center and then about the horizontal axis through another
    gives the same vertices as the two in the opposite order, whenever both
    orders return; the result is the point reflection [(2 cx - x, 2 cy - y)]
    of every vertex, in the same order. *)
Theorem mirrors_commute (c c' : wxPoint) (pts h hv v vh : list wxPoint) :
  MirrorHorizontal c pts = Some h → MirrorVertical c' h = Some hv →
  MirrorVertical c' pts = Some v → MirrorHorizontal c v = Some vh →
  hv = vh ∧ hv = (λ p, mkPoint (2 * x c - x p) (2 * y c' - y p)) <$> pts.
Proof.
  intros ->%MirrorHorizontal_fmap ->%MirrorVertical_fmap
         ->%MirrorVertical_fmap ->%MirrorHorizontal_fmap.
  rewrite <- !list_fmap_compose. done.
Qed.

Lemma mirrors_commute_witness :
  let pts := [mkPoint 0 0; mkPoint 10 0; mkPoint 10 10] in
  let both := [mkPoint 6 6; mkPoint (-4) 6; mkPoint (-4) (-4)] in
  (MirrorHorizontal (mkPoint 3 0) pts ≫= MirrorVertical (mkPoint 0 3)) = Some both
  ∧ (MirrorVertical (mkPoint 0 3) pts ≫= MirrorHorizontal (mkPoint 3 0)) = Some both
  ∧ both = both
  ∧ both = (λ p, mkPoint (2 * 3 - x p) (2 * 3 - y p)) <$> pts.
Proof.
  split; [reflexivity|]. split; [reflexivity|].
  apply (mirrors_commute (mkPoint 3 0) (mkPoint 0 3)
           [mkPoint 0 0; mkPoint 10 0; mkPoint 10 10]
           [mkPoint 6 0; mkPoint (-4) 0; mkPoint (-4) 10]
           [mkPoint 6 6; mkPoint (-4) 6; mkPoint (-4) (-4)]
           [mkPoint 0 6; mkPoint 10 6; mkPoint 10 (-4)]
           [mkPoint 6 6; mkPoint (-4) 6; mkPoint (-4) (-4)]); reflexivity.
Defined.

(** ** Further properties: translations *)

Section Translate.

Lemma pt_add_translate p d q :
  pt_add p d = Some q ↔ q = translate d p ∧ int_point (translate d p).
Proof.
  unfold pt_add, translate, int_point, Int.add. simpl. split.
  - intros Hq. simplify_option_eq. int_inv. done.
  - intros [-> [Hx Hy]]. rewrite (chk_in_range _ Hx). simpl.
    rewrite (chk_in_range _ Hy). done.
Qed.

Lemma Offset_Some d st st' :
  Offset d st = Some st' ↔
  st' = set_points st (translate d <$> m_PolyPoints st)
  ∧ Forall (λ p, int_point (translate d p)) (m_PolyPoints st).
Proof.
  unfold Offset. split.
  - intros Ho. apply bind_Some in Ho as (pts & Hm & [= <-]). split.
    + f_equal. eapply mapM_fmap_Some; [done|].
      intros a b Hab. by apply pt_add_translate in Hab as [-> _].
    + apply mapM_Some in Hm.
      induction Hm as [|a b l k Hab _ IH]; constructor; [|done].
      by apply pt_add_translate in Hab as [_ ?].
  - intros [-> Hall]. rewrite (mapM_fmap_intro _ (translate d)); [done|].
    eapply Forall_impl; [done|]. intros p Hp. simpl. by apply pt_add_translate.
Qed.

Lemma translate_translate d1 d2 p :
  translate d2 (translate d1 p) = translate (mkPoint (x d1 + x d2) (y d1 + y d2)) p.
Proof. unfold translate. simpl. f_equal; lia. Qed.

(** X3: two offsets in a row are the offset by the sum of the two
    displacements, and the offset by the opposite displacement undoes an
    offset: applied to the result, it returns the original polyline. *)
Theorem Offset_compose_undo (d1 d2 : wxPoint) (st st1 st2 : LIB_POLYLINE) :
  Offset d1 st = Some st1 → Offset d2 st1 = Some st2 →
  Offset (mkPoint (x d1 + x d2) (y d1 + y d2)) st = Some st2
  ∧ (Forall int_point (m_PolyPoints st) →
     Offset (mkPoint (- x d1) (- y d1)) st1 = Some st).
Proof.
  intros [-> Hall1]%Offset_Some [-> Hall2]%Offset_Some. simpl in *. split.
  - apply Offset_Some. split.
    + unfold set_points. simpl. f_equal. rewrite <- list_fmap_compose.
      apply list_fmap_ext. intros i p _. simpl. apply translate_translate.
    + rewrite !Forall_fmap in Hall2. eapply Forall_impl; [exact Hall2|].
      intros p Hp. simpl in Hp. by rewrite <- translate_translate.
  - intros Hint. apply Offset_Some. simpl. split.
    + destruct st as [it w pts mi]. unfold set_points. simpl. f_equal.
      rewrite <- list_fmap_compose. rewrite <- (list_fmap_id pts) at 1.
      apply list_fmap_ext. intros i [px py] _. unfold translate. simpl.
      f_equal; lia.
    + apply Forall_fmap. eapply Forall_impl; [done|].
      intros [px py] Hp. unfold translate, int_point in *. simpl in *.
      replace (px + x d1 + - x d1) with px by lia.
      replace (py + y d1 + - y d1) with py by lia. done.
Qed.

Lemma MoveTo_Some p st st' v0 :
  m_PolyPoints st !! 0%nat = Some v0 →
  MoveTo p st = Some st' →
  st' = set_points st (translate (mkPoint (x p - x v0) (y p - y v0)) <$> m_PolyPoints st).
Proof.
  intros Hv0. unfold MoveTo. rewrite <- (vec_at_lookup _ 0) in Hv0.
  change (Z.of_nat 0) with 0 in Hv0. rewrite Hv0. simpl.
  intros Hm. apply bind_Some in Hm as (d & ->%pt_sub_Some & Ho).
  by apply Offset_Some in Ho as [-> _].
Qed.

(** X4: [MoveTo] is a rigid translation that brings the first vertex to the
    given position: the first vertex of the result is [aPosition], the
    number of vertices is kept, and every vertex has moved by the same
    displacement, [aPosition] minus the old first vertex.  On a polyline
    without vertices it reads [m_PolyPoints[0]] outside the vector. *)
Theorem MoveTo_rigid (aPosition : wxPoint) (st : LIB_POLYLINE) :
  (m_PolyPoints st = [] → MoveTo aPosition st = None)
  ∧ ∀ st' v0, m_PolyPoints st !! 0%nat = Some v0 → MoveTo aPosition st = Some st' →
      m_PolyPoints st' !! 0%nat = Some aPosition
      ∧ length (m_PolyPoints st') = length (m_PolyPoints st)
      ∧ ∀ i v, m_PolyPoints st !! i = Some v →
               m_PolyPoints st' !! i
               = Some (mkPoint (x v + (x aPosition - x v0)) (y v + (y aPosition - y v0))).
Proof.
  split.
  - intros Hnil. unfold MoveTo. by rewrite Hnil.
  - intros st' v0 Hv0 Hm. rewrite (MoveTo_Some _ _ _ _ Hv0 Hm). simpl.
    split; [|split].
    + rewrite list_lookup_fmap, Hv0. simpl. unfold translate. simpl.
      destruct aPosition as [px py]. simpl. do 2 f_equal; lia.
    + by rewrite length_fmap.
    + intros i v Hv. by rewrite list_lookup_fmap, Hv.
Qed.

End Translate.

Lemma MoveTo_rigid_witness :
  let st := polyline_of triangle in
  let st' := polyline_of [mkPoint 3 (-2); mkPoint 13 (-2); mkPoint 13 8] in
  MoveTo (mkPoint 3 (-2)) st = Some st'
  ∧ m_PolyPoints st' !! 0%nat = Some (mkPoint 3 (-2))
  ∧ length (m_PolyPoints st') = length (m_PolyPoints st)
  ∧ ∀ i v, m_PolyPoints st !! i = Some v →
           m_PolyPoints st' !! i
           = Some (mkPoint (x v + (3 - 0)) (y v + (-2 - 0))).
Proof.
  split; [reflexivity|].
  destruct (MoveTo_rigid (mkPoint 3 (-2)) (polyline_of triangle)) as [_ Hmove].
  apply (Hmove (polyline_of [mkPoint 3 (-2); mkPoint 13 (-2); mkPoint 13 8])
           (mkPoint 0 0)); reflexivity.
Defined.

Lemma Offset_compose_undo_witness :
  let st := polyline_of triangle in
  let st1 := polyline_of [mkPoint 1 2; mkPoint 11 2; mkPoint 11 12] in
  let st2 := polyline_of [mkPoint 4 1; mkPoint 14 1; mkPoint 14 11] in
  Offset (mkPoint (1 + 3) (2 + -1)) st = Some st2
  ∧ (Forall int_point (m_PolyPoints st) →
     Offset (mkPoint (- 1) (- 2)) st1 = Some st).
Proof.
  apply (Offset_compose_undo (mkPoint 1 2) (mkPoint 3 (-1))
           (polyline_of triangle)
           (polyline_of [mkPoint 1 2; mkPoint 11 2; mkPoint 11 12])
           (polyline_of [mkPoint 4 1; mkPoint 14 1; mkPoint 14 11])); reflexivity.
Defined.

(** ** Further properties: the edit session *)

Section EditSession.
Context `{Host}.

(** X5: moving a whole shape.  After [BeginEdit] in move mode at the cursor
    position [p], which leaves the vertices alone, [CalcEdit] at the cursor
    position [q] returns the original vertices, each translated by
    [q - p]. *)
Theorem move_gesture_translates (st st1 st2 : LIB_POLYLINE) (p q : wxPoint) :
  IS_MOVED ≠ IS_NEW → IS_MOVED ≠ IS_RESIZED →
  BeginEdit IS_MOVED p st = Some st1 →
  IsNew (m_Flags (item st1)) = false →
  IsResized (m_Flags (item st1)) = false →
  IsMoving (m_Flags (item st1)) = true →
  CalcEdit q st1 = Some st2 →
  m_PolyPoints st1 = m_PolyPoints st
  ∧ m_PolyPoints st2
    = translate (mkPoint (x q - x p) (y q - y p)) <$> m_PolyPoints st.
Proof.
  intros Hn Hr. unfold BeginEdit.
  rewrite decide_False by done. rewrite decide_False by done.
  rewrite decide_True by done. simpl.
  intros Hb. apply bind_Some in Hb as (v0 & Hv0 & [= <-]). simpl.
  intros Hnew Hres Hmov. unfold CalcEdit. simpl. rewrite Hnew, Hres, Hmov.
  intros Hc. apply bind_Some in Hc as (a & ->%pt_add_Some & Hc).
  apply bind_Some in Hc as (b & ->%pt_sub_Some & Hc). simpl in Hc.
  apply vec_at_Some in Hv0 as [_ Hv0]. change (Z.to_nat 0) with 0%nat in Hv0.
  apply (MoveTo_Some _ _ _ v0) in Hc; [|done]. subst st2. simpl.
  split; [done|]. apply list_fmap_ext. intros i v _.
  unfold translate. simpl. f_equal; lia.
Qed.

Lemma CalcEdit_insert_Some q st st1 :
  CalcEdit_insert q st = Some st1 →
  0 ≤ m_ModifyIndex st1 ∧ item st1 = item st ∧ m_Width st1 = m_Width st
  ∧ ((0 ≤ m_ModifyIndex st ∧ st1 = st)
     ∨ (m_ModifyIndex st < 0 ∧ m_ModifyIndex st1 = - m_ModifyIndex st
        ∧ - m_ModifyIndex st ≤ vec_size (m_PolyPoints st)
        ∧ m_PolyPoints st1
          = take (Z.to_nat (- m_ModifyIndex st)) (m_PolyPoints st)
            ++ q :: drop (Z.to_nat (- m_ModifyIndex st)) (m_PolyPoints st))).
Proof.
  unfold CalcEdit_insert. case_decide as Hneg.
  - intros Hc. apply bind_Some in Hc as (mi & Hmi & Hc). int_inv.
    apply bind_Some in Hc as (pts & Hins & [= <-]). simpl.
    unfold vec_insert in Hins. case_decide as Hrange; [|done].
    injection Hins as <-. repeat split; try lia. right. repeat split; lia || done.
  - intros [= <-]. repeat split; try lia. left. split; [lia|done].
Qed.

Lemma vec_set_inv {A} (v v' : list A) i a :
  vec_set v i a = Some v' → 0 ≤ i < vec_size v ∧ v' = <[Z.to_nat i := a]> v.
Proof. unfold vec_set. case_decide; [|done]. by intros [= <-]. Qed.

Lemma insert_at_split {A} (l : list A) (k : nat) (a b : A) :
  (k ≤ length l)%nat →
  <[k := b]> (take k l ++ a :: drop k l) = take k l ++ b :: drop k l.
Proof.
  intros Hk.
  rewrite <- (Nat.add_0_r k) at 1.
  rewrite <- (length_take_le l k Hk) at 1.
  by rewrite insert_app_r.
Qed.

(** X6: while the cursor moves, only the last position counts: two calls
    of [CalcEdit] in a row leave the polyline as the second call alone
    would.  In resize mode with a pending insertion (negative
    [m_ModifyIndex]) the first call inserts the new vertex and makes the
    index positive, so the second call moves that vertex and inserts
    nothing. *)
Theorem CalcEdit_last_position_wins (st st1 st2 : LIB_POLYLINE) (p q : wxPoint) :
  CalcEdit p st = Some st1 → CalcEdit q st1 = Some st2 →
  (∀ st2', CalcEdit q st = Some st2' → st2' = st2)
  ∧ (IsNew (m_Flags (item st)) = true ∨ IsResized (m_Flags (item st)) = true →
     CalcEdit q st = Some st2)
  ∧ (IsNew (m_Flags (item st)) = false → IsResized (m_Flags (item st)) = true →
     0 ≤ m_ModifyIndex st1 ∧ m_ModifyIndex st2 = m_ModifyIndex st1
     ∧ length (m_PolyPoints st2) = length (m_PolyPoints st1)).
Proof.
  intros H1 H2.
  assert (item st1 = item st) as Hitem.
  { revert H1. unfold CalcEdit.
    destruct (IsNew _); [|destruct (IsResized _); [|destruct (IsMoving _)]].
    - intros Hc. by apply bind_Some in Hc as (? & _ & [= <-]).
    - intros Hc. apply bind_Some in Hc as (s & Hs & Hc).
      apply bind_Some in Hc as (? & _ & [= <-]). simpl.
      by apply CalcEdit_insert_Some in Hs as (_ & ? & _).
    - intros Hc. apply bind_Some in Hc as (a & _ & Hc).
      apply bind_Some in Hc as (b & _ & Hc). unfold MoveTo in Hc.
      apply bind_Some in Hc as (v0 & _ & Hc).
      apply bind_Some in Hc as (d & _ & Hc).
      by apply Offset_Some in Hc as [-> _].
    - by intros [= <-]. }
  revert H1 H2. unfold CalcEdit. rewrite Hitem.
  destruct (IsNew (m_Flags (item st))) eqn:Hnew;
    [|destruct (IsResized (m_Flags (item st))) eqn:Hres;
      [|destruct (IsMoving (m_Flags (item st))) eqn:Hmov]].
  - (* a new polyline: the last vertex is overwritten *)
    intros H1 H2.
    apply bind_Some in H1 as (pts1 & [Hr1 ->]%vec_set_inv & [= <-]).
    apply bind_Some in H2 as (pts2 & [Hr2 ->]%vec_set_inv & [= <-]).
    unfold GetCornerCount, vec_size in *. simpl in *.
    rewrite length_insert in *. rewrite list_insert_insert_eq.
    assert (vec_set (m_PolyPoints st)
              (UInt.sub (Z.of_nat (length (m_PolyPoints st))) 1) q
            = Some (<[Z.to_nat (UInt.sub (Z.of_nat (length (m_PolyPoints st))) 1) := q]>
                      (m_PolyPoints st))) as Hq.
    { unfold vec_set, vec_size. by rewrite decide_True. }
    rewrite Hq. simpl. split; [by intros ? [= <-]|]. split; [done|]. done.
  - (* resize: the vertex under the cursor is overwritten *)
    intros H1 H2.
    apply bind_Some in H1 as (s1 & Hs1 & H1).
    apply bind_Some in H1 as (pts1 & [Hr1 ->]%vec_set_inv & [= <-]).
    apply bind_Some in H2 as (s2 & Hs2 & H2).
    apply bind_Some in H2 as (pts2 & [Hr2 ->]%vec_set_inv & [= <-]).
    pose proof (CalcEdit_insert_Some _ _ _ Hs1) as (Hpos1 & Hit1 & Hw1 & Hcase).
    unfold CalcEdit_insert in Hs2. simpl in Hs2.
    rewrite decide_False in Hs2 by lia. injection Hs2 as <-. simpl in *.
    rewrite list_insert_insert_eq.
    assert (CalcEdit_insert q st ≫= (λ st1 : LIB_POLYLINE,
              vec_set (m_PolyPoints st1) (m_ModifyIndex st1) q
              ≫= λ pts, Some (set_points st1 pts))
            = Some (set_points (set_points s1 (<[Z.to_nat (m_ModifyIndex s1):=p]>
                                                 (m_PolyPoints s1)))
                      (<[Z.to_nat (m_ModifyIndex s1):=q]> (m_PolyPoints s1)))) as Hq.
    { destruct Hcase as [[Hge ->]|(Hneg & Hmi & Hle & Hpts)].
      - unfold CalcEdit_insert. rewrite decide_False by lia. simpl.
        unfold vec_set. rewrite decide_True by done. done.
      - unfold CalcEdit_insert. rewrite decide_True by done.
        unfold Int.neg. rewrite chk_in_range.
        2:{ unfold CalcEdit_insert in Hs1. rewrite decide_True in Hs1 by done.
            apply bind_Some in Hs1 as (mi & Hmi' & _). by int_inv. }
        simpl. unfold vec_insert. rewrite decide_True by lia. simpl.
        unfold vec_set. rewrite decide_True.
        2:{ unfold vec_size in *. rewrite length_app, length_take. simpl.
            rewrite length_drop. lia. }
        simpl. unfold set_points, set_ModifyIndex. simpl.
        rewrite Hmi, Hpts, Hit1, Hw1.
        assert (Z.to_nat (- m_ModifyIndex st) ≤ length (m_PolyPoints st))%nat
          by (unfold vec_size in Hle; lia).
        by rewrite !insert_at_split. }
    rewrite Hq. split; [by intros ? [= <-]|]. split; [done|].
    intros _ _. simpl. split; [done|]. split; [done|].
    by rewrite !length_insert.
  - (* move: the shape is translated from where it is *)
    intros H1 H2. split; [|split; [by intros [?|?]|done]].
    intros st2' H3.
    apply bind_Some in H1 as (a1 & ->%pt_add_Some & H1).
    apply bind_Some in H1 as (b1 & ->%pt_sub_Some & H1).
    apply bind_Some in H3 as (a3 & ->%pt_add_Some & H3).
    apply bind_Some in H3 as (b3 & ->%pt_sub_Some & H3).
    destruct (m_PolyPoints st !! 0%nat) as [v0|] eqn:Hv0.
    2:{ unfold MoveTo in H1. rewrite <- (vec_at_lookup _ 0) in Hv0.
        change (Z.of_nat 0) with 0 in Hv0. by rewrite Hv0 in H1. }
    apply (MoveTo_Some _ _ _ v0) in H1; [|done].
    apply (MoveTo_Some _ _ _ v0) in H3; [|done]. subst st1 st2'.
    simpl in H2.
    apply bind_Some in H2 as (a2 & ->%pt_add_Some & H2).
    apply bind_Some in H2 as (b2 & ->%pt_sub_Some & H2).
    eapply MoveTo_Some in H2.
    2:{ simpl. rewrite list_lookup_fmap, Hv0. done. }
    subst st2. unfold set_points. simpl. f_equal.
    rewrite <- list_fmap_compose. apply list_fmap_ext. intros i v _.
    unfold translate. simpl. f_equal; lia.
  - intros [= <-] [= <-]. split; [by intros ? [= <-]|].
    split; [by intros [?|?]|done].
Qed.

End EditSession.

Lemma move_gesture_translates_witness :
  let H := Reference.eeschema in
  let st := polyline_of triangle in
  let st1 := mkPolyline (mkItem IS_MOVED (mkPoint 0 0) (mkPoint 5 5)) 0 triangle 0 in
  let st2 := set_points st1 [mkPoint 2 (-1); mkPoint 12 (-1); mkPoint 12 9] in
  m_PolyPoints st1 = m_PolyPoints st
  ∧ m_PolyPoints st2 = translate (mkPoint (7 - 5) (4 - 5)) <$> m_PolyPoints st.
Proof.
  apply (@move_gesture_translates Reference.eeschema (polyline_of triangle)
           (mkPolyline (mkItem Reference.flag_IS_MOVED (mkPoint 0 0) (mkPoint 5 5))
              0 triangle 0)
           (mkPolyline (mkItem Reference.flag_IS_MOVED (mkPoint 0 0) (mkPoint 5 5))
              0 [mkPoint 2 (-1); mkPoint 12 (-1); mkPoint 12 9] 0)
           (mkPoint 5 5) (mkPoint 7 4)); try reflexivity; vm_compute; congruence.
Defined.

Lemma CalcEdit_last_position_wins_witness :
  let H := Reference.eeschema in
  let st := mkPolyline (mkItem IS_RESIZED (mkPoint 10 10) (mkPoint 0 0)) 0 triangle (-2) in
  let st2 := mkPolyline (mkItem IS_RESIZED (mkPoint 10 10) (mkPoint 0 0)) 0
               [mkPoint 0 0; mkPoint 10 0; mkPoint 12 6; mkPoint 10 10] 2 in
  CalcEdit (mkPoint 12 6) st = Some st2
  ∧ (CalcEdit (mkPoint 11 5) st ≫= CalcEdit (mkPoint 12 6)) = Some st2.
Proof.
  split; [|reflexivity].
  destruct (@CalcEdit_last_position_wins Reference.eeschema
              (mkPolyline (mkItem Reference.flag_IS_RESIZED (mkPoint 10 10) (mkPoint 0 0))
                 0 triangle (-2))
              (mkPolyline (mkItem Reference.flag_IS_RESIZED (mkPoint 10 10) (mkPoint 0 0))
                 0 [mkPoint 0 0; mkPoint 10 0; mkPoint 11 5; mkPoint 10 10] 2)
              (mkPolyline (mkItem Reference.flag_IS_RESIZED (mkPoint 10 10) (mkPoint 0 0))
                 0 [mkPoint 0 0; mkPoint 10 0; mkPoint 12 6; mkPoint 10 10] 2)
              (mkPoint 11 5) (mkPoint 12 6)) as (_ & Hdirect & _);
    [reflexivity|reflexivity|].
  apply Hdirect. right. reflexivity.
Defined.

(** ** Further properties: the vertex or edge chosen by BeginEdit *)

Section Nearest.
Context `{Host}.

Lemma search_step_after pts p k s s' point :
  (1 ≤ k)%nat → search_after pts p k s → pts !! k = Some point →
  search_step p point s = Some s' → search_after pts p (S k) s'.
Proof.
  intros Hk (Hidx & Hmax & Hprev & Habs & Hch & Hmin) Hpoint. unfold search_step.
  intros Hs. apply bind_Some in Hs as (s1 & Hs1 & Hs).
  apply bind_Some in Hs as (s2 & Hs2 & Hs).
  apply bind_Some in Hs as (next & Hnext & [= <-]). int_inv.
  unfold search_vertex in Hs1. apply bind_Some in Hs1 as (d & Hd & Hs1).
  unfold search_middle in Hs2. apply bind_Some in Hs2 as (m & Hm & Hs2).
  assert (index s1 = index s ∧ prevPoint s1 = prevPoint s
          ∧ Z.abs (s_ModifyIndex s1) < Z.of_nat (S k)
          ∧ search_chosen pts p s1 ∧ distanceMin s1 ≤ distanceMin s
          ∧ distanceMin s1 ≤ d) as (Hi1 & Hp1 & Habs1 & Hch1 & Hle1 & Hd1).
  { destruct (decide (d < distanceMin s)); injection Hs1 as <-; simpl.
    - split; [done|]. split; [done|]. split; [lia|]. split; [|lia].
      unfold search_chosen. simpl.
      rewrite Hidx, Z.abs_eq, Nat2Z.id by lia.
      split; [done|]. split; [done|]. intros ?. lia.
    - split; [done|]. split; [done|]. split; [lia|]. split; [done|lia]. }
  rewrite Hp1 in Hm.
  assert (index s2 = index s ∧ Z.abs (s_ModifyIndex s2) < Z.of_nat (S k)
          ∧ search_chosen pts p s2 ∧ distanceMin s2 ≤ distanceMin s1
          ∧ distanceMin s2 ≤ m) as (Hi2 & Habs2 & Hch2 & Hle2 & Hm2).
  { destruct (decide (m < distanceMin s1)).
    - apply bind_Some in Hs2 as (ni & Hni & [= <-]). int_inv. simpl.
      split; [done|]. split; [lia|]. split; [|lia].
      unfold search_chosen. simpl.
      rewrite Hi1, Hidx, Z.abs_neq, Z.opp_involutive, Nat2Z.id by lia.
      split; [done|]. split; [intros ?; lia|]. intros _. exists (prevPoint s).
      split; [|done]. by rewrite Hprev.
    - injection Hs2 as <-. split; [done|]. split; [lia|]. split; [done|lia]. }
  unfold search_after. simpl. rewrite Hi2, Hidx in *.
  split; [lia|]. split; [range_lia|].
  split; [by rewrite Nat.sub_0_r|].
  split; [done|]. split; [exact Hch2|].
  destruct Hmin as [Hminv Hmine]. split.
  - intros i v d' Hi Hv Hd'. destruct (decide (i = k)) as [->|].
    + rewrite Hpoint in Hv. injection Hv as <-. rewrite Hd in Hd'.
      injection Hd' as <-. lia.
    + assert (distanceMin s ≤ d') by (eapply Hminv; [|done|done]; lia). lia.
  - intros i v u m' Hi Hv Hu Hm'. destruct (decide (S i = k)) as [<-|].
    + rewrite Hpoint in Hv. injection Hv as <-.
      replace (S i - 1)%nat with i in Hprev by lia.
      rewrite Hprev in Hu. injection Hu as <-. rewrite Hm in Hm'.
      injection Hm' as <-. lia.
    + assert (distanceMin s ≤ m') by (eapply Hmine; [|done|done|done]; lia). lia.
Qed.

Lemma search_loop_after pts p rest : ∀ k s s',
  (1 ≤ k)%nat → drop k pts = rest → (k ≤ length pts)%nat →
  search_after pts p k s → search_loop p s rest = Some s' →
  search_after pts p (length pts) s'.
Proof.
  induction rest as [|point rest IH]; intros k s s' Hk Hdrop Hlen Hafter; simpl.
  - intros [= <-]. assert (k = length pts) as <-; [|done].
    apply (f_equal length) in Hdrop. rewrite length_drop in Hdrop. simpl in Hdrop. lia.
  - intros Hs. apply bind_Some in Hs as (s1 & Hstep & Hloop).
    assert (pts !! k = Some point) as Hpoint.
    { rewrite <- (Nat.add_0_r k), <- lookup_drop, Hdrop. done. }
    apply (IH (S k) s1); [lia| | |by eapply search_step_after|done].
    + rewrite (drop_S _ _ _ Hpoint) in Hdrop. by injection Hdrop.
    + apply lookup_lt_Some in Hpoint. lia.
Qed.

Lemma nearest_point_after (p : wxPoint) (pts : list wxPoint) (s : search) :
  nearest_point p pts = Some s → search_after pts p (length pts) s.
Proof.
  destruct pts as [|v0 rest]; [done|].
  unfold nearest_point, search_init.
  change (vec_at (v0 :: rest) 0) with (Some v0). simpl. intros Hs.
  apply bind_Some in Hs as (s0 & Hs0 & Hs).
  apply bind_Some in Hs0 as (d0 & Hd0 & [= <-]).
  apply bind_Some in Hs as (s1 & Hstep & Hloop).
  destruct (search_step_first _ _ _ _ Hd0 Hstep) as [-> _].
  apply (search_loop_after (v0 :: rest) p rest 1 (mkSearch 1 v0 v0 0 d0) s);
    [lia|done|simpl; lia| |done].
  unfold search_after, search_chosen, search_minimal. simpl.
  split; [done|]. split; [range_lia|]. split; [done|]. split; [lia|].
  split; [repeat split; [done|lia]|]. split.
  - intros i v d Hi Hv Hd. assert (i = 0%nat) as -> by lia.
    injection Hv as <-. rewrite Hd0 in Hd. injection Hd as <-. lia.
  - intros i v u m Hi. lia.
Qed.

(** X7: what [BeginEdit] chooses in resize mode.  When it returns, the
    absolute value [k] of [m_ModifyIndex] is the index of a vertex,
    [m_initialPos] is that vertex, and the choice is a nearest one: its
    distance (the squared distance to vertex [k] when the index is not
    negative, the biased distance to the middle of the edge from vertex
    [k - 1] to vertex [k] when it is negative) is at most the squared
    distance to every vertex and the biased distance to the middle of
    every edge. *)
Theorem BeginEdit_chooses_nearest (st st' : LIB_POLYLINE) (aPosition : wxPoint) :
  IS_NEW ≠ IS_RESIZED →
  BeginEdit IS_RESIZED aPosition st = Some st' →
  ∃ dmin,
    let k := Z.to_nat (Z.abs (m_ModifyIndex st')) in
    (k < length (m_PolyPoints st))%nat
    ∧ m_PolyPoints st' = m_PolyPoints st
    ∧ m_PolyPoints st !! k = Some (m_initialPos (item st'))
    ∧ (0 ≤ m_ModifyIndex st' →
       sqdist aPosition (m_initialPos (item st')) = Some dmin)
    ∧ (m_ModifyIndex st' < 0 →
       ∃ u, m_PolyPoints st !! (k - 1)%nat = Some u
            ∧ middist aPosition (m_initialPos (item st')) u = Some dmin)
    ∧ (∀ i v d, m_PolyPoints st !! i = Some v → sqdist aPosition v = Some d → dmin ≤ d)
    ∧ (∀ i v u m, m_PolyPoints st !! S i = Some v → m_PolyPoints st !! i = Some u →
                  middist aPosition v u = Some m → dmin ≤ m).
Proof.
  intros Hmodes. unfold BeginEdit.
  rewrite decide_False by (by intros ?). rewrite decide_True by done. simpl.
  intros Hb. apply bind_Some in Hb as (s & Hs & [= <-]). simpl.
  apply nearest_point_after in Hs
    as (Hidx & Hmax & Hprev & Habs & (Hk & Hpos & Hneg) & Hminv & Hmine).
  exists (distanceMin s). simpl. split; [lia|]. split; [done|].
  split; [done|]. split; [done|]. split; [done|]. split.
  - intros i v d Hv. eapply Hminv; [|done]. by eapply lookup_lt_Some.
  - intros i v u m Hv. eapply Hmine; [|done]. by eapply lookup_lt_Some.
Qed.

End Nearest.

Lemma BeginEdit_chooses_nearest_witness :
  let H := Reference.eeschema in
  let st := polyline_of triangle in
  let st' := mkPolyline (mkItem IS_RESIZED (mkPoint 10 10) (mkPoint 0 0)) 0 triangle (-2) in
  let p := mkPoint 10 5 in
  BeginEdit IS_RESIZED p st = Some st'
  ∧ ∃ dmin,
      let k := Z.to_nat (Z.abs (m_ModifyIndex st')) in
      (k < length (m_PolyPoints st))%nat
      ∧ m_PolyPoints st' = m_PolyPoints st
      ∧ m_PolyPoints st !! k = Some (m_initialPos (item st'))
      ∧ (0 ≤ m_ModifyIndex st' → sqdist p (m_initialPos (item st')) = Some dmin)
      ∧ (m_ModifyIndex st' < 0 →
         ∃ u, m_PolyPoints st !! (k - 1)%nat = Some u
              ∧ middist p (m_initialPos (item st')) u = Some dmin)
      ∧ (∀ i v d, m_PolyPoints st !! i = Some v → sqdist p v = Some d → dmin ≤ d)
      ∧ (∀ i v u m, m_PolyPoints st !! S i = Some v → m_PolyPoints st !! i = Some u →
                    middist p v u = Some m → dmin ≤ m).
Proof.
  split; [reflexivity|].
  apply (@BeginEdit_chooses_nearest Reference.eeschema (polyline_of triangle)
           (mkPolyline (mkItem Reference.flag_IS_RESIZED (mkPoint 10 10) (mkPoint 0 0))
              0 triangle (-2)) (mkPoint 10 5)).
  - vm_compute. congruence.
  - reflexivity.
Defined.

(** ** Further properties: a resize from start to end *)

Section ResizeGesture.
Context `{Host}.

Lemma EndEdit_is_Some (st : LIB_POLYLINE) (aPosition : wxPoint) :
  IS_NEW ≠ IS_RESIZED →
  0 ≤ m_ModifyIndex st < vec_size (m_PolyPoints st) →
  vec_size (m_PolyPoints st) ≤ Int.INT_MAX →
  is_Some (EndEdit aPosition st).
Proof.
  intros Hflags Hmi Hmax. unfold EndEdit.
  set (st0 := set_item st _).
  destruct (EndEdit_new_spec st0) as (st1 & -> & Hitem & Hidx & _ & Hlen). simpl.
  change (m_PolyPoints st0) with (m_PolyPoints st) in *.
  change (m_ModifyIndex st0) with (m_ModifyIndex st) in *.
  destruct Hlen as [Heq|(Hnew & _ & _)].
  - apply EndEdit_resized_is_Some; rewrite ?Heq, ?Hidx; done.
  - unfold EndEdit_resized. rewrite decide_False; [by eexists|].
    rewrite Hitem. intros [? _]. congruence.
Qed.

(** X8: a resize never leaves the vector.  After [BeginEdit] in resize mode
    has returned, [CalcEdit] returns too: it inserts the pending vertex
    (index negative) or not (index not negative), leaves [m_ModifyIndex] at
    the index of a vertex, and that vertex is the cursor position.
    [EndEdit] then returns as well. *)
Theorem resize_gesture_in_bounds (st st1 : LIB_POLYLINE) (p q r : wxPoint) :
  IS_NEW ≠ IS_RESIZED →
  vec_size (m_PolyPoints st) < Int.INT_MAX →
  BeginEdit IS_RESIZED p st = Some st1 →
  IsNew (m_Flags (item st1)) = false → IsResized (m_Flags (item st1)) = true →
  ∃ st2,
    CalcEdit q st1 = Some st2
    ∧ 0 ≤ m_ModifyIndex st2 < vec_size (m_PolyPoints st2)
    ∧ m_ModifyIndex st2 = Z.abs (m_ModifyIndex st1)
    ∧ vec_at (m_PolyPoints st2) (m_ModifyIndex st2) = Some q
    ∧ vec_size (m_PolyPoints st2)
      = vec_size (m_PolyPoints st) + (if decide (m_ModifyIndex st1 < 0) then 1 else 0)
    ∧ is_Some (EndEdit r st2).
Proof.
  intros Hmodes Hmax. unfold BeginEdit.
  rewrite decide_False by (by intros ?). rewrite decide_True by done. simpl.
  intros Hb. apply bind_Some in Hb as (s & Hs & [= <-]). simpl.
  apply nearest_point_after in Hs as (_ & _ & _ & Habs & _).
  set (it := LIB_ITEM_BeginEdit IS_RESIZED p (item st)).
  intros Hnew Hres. unfold CalcEdit. simpl. rewrite Hnew, Hres.
  unfold CalcEdit_insert. simpl. unfold vec_size in *.
  destruct (decide (s_ModifyIndex s < 0)) as [Hneg|Hpos].
  - unfold Int.neg. rewrite chk_in_range by range_lia. simpl.
    unfold vec_insert. rewrite decide_True by (unfold vec_size; lia). simpl.
    set (pts1 := take _ _ ++ _).
    assert (length pts1 = S (length (m_PolyPoints st))) as Hlen1.
    { unfold pts1. rewrite length_app, length_take. simpl. rewrite length_drop. lia. }
    unfold vec_set, vec_size. rewrite decide_True by lia. simpl.
    eexists. split; [done|]. simpl. rewrite length_insert.
    split; [lia|]. split; [lia|]. split.
    + unfold vec_at. rewrite decide_True by lia.
      apply list_lookup_insert_eq. lia.
    + split; [lia|]. apply EndEdit_is_Some; simpl; [done| |];
        unfold vec_size; rewrite length_insert; range_lia.
  - simpl. unfold vec_set, vec_size. simpl. rewrite decide_True by lia. simpl.
    eexists. split; [done|]. simpl. rewrite length_insert.
    split; [lia|]. split; [lia|]. split.
    + unfold vec_at. rewrite decide_True by lia.
      apply list_lookup_insert_eq. lia.
    + split; [lia|]. apply EndEdit_is_Some; simpl; [done| |];
        unfold vec_size; rewrite length_insert; range_lia.
Qed.

(** X9: the pending insertion must be performed before the edit ends.  In
    resize mode, on a polyline of more than 2 vertices, [EndEdit] with a
    negative [m_ModifyIndex] (an edge was chosen and [CalcEdit] has not
    been called) reads [m_PolyPoints[ m_ModifyIndex ]] before the vector:
    it has no defined result. *)
Theorem EndEdit_pending_insertion (st : LIB_POLYLINE) (aPosition : wxPoint) :
  IS_NEW ≠ IS_RESIZED →
  m_Flags (LIB_ITEM_EndEdit aPosition (item st)) = IS_RESIZED →
  2 < vec_size (m_PolyPoints st) ≤ Int.INT_MAX →
  m_ModifyIndex st < 0 →
  EndEdit aPosition st = None.
Proof.
  intros Hmodes Hflags Hsize Hneg. unfold EndEdit, EndEdit_new. simpl.
  rewrite decide_False by (intros [? _]; congruence). simpl.
  unfold EndEdit_resized. simpl. rewrite decide_True by (split; [done|lia]).
  unfold equals_left. simpl. rewrite decide_False by lia. simpl.
  unfold equals_right. simpl. rewrite int_size by lia.
  unfold Int.sub. rewrite chk_in_range by range_lia. simpl.
  rewrite decide_True by lia.
  assert (vec_at (m_PolyPoints st) (m_ModifyIndex st) = None) as ->; [|done].
  unfold vec_at. by rewrite decide_False by lia.
Qed.

End ResizeGesture.

Lemma resize_gesture_in_bounds_witness :
  let H := Reference.eeschema in
  let st := polyline_of triangle in
  let st1 := mkPolyline (mkItem IS_RESIZED (mkPoint 10 10) (mkPoint 0 0)) 0 triangle (-2) in
  ∃ st2,
    CalcEdit (mkPoint 12 6) st1 = Some st2
    ∧ 0 ≤ m_ModifyIndex st2 < vec_size (m_PolyPoints st2)
    ∧ m_ModifyIndex st2 = Z.abs (m_ModifyIndex st1)
    ∧ vec_at (m_PolyPoints st2) (m_ModifyIndex st2) = Some (mkPoint 12 6)
    ∧ vec_size (m_PolyPoints st2)
      = vec_size (m_PolyPoints st) + (if decide (m_ModifyIndex st1 < 0) then 1 else 0)
    ∧ is_Some (EndEdit (mkPoint 12 6) st2).
Proof.
  apply (@resize_gesture_in_bounds Reference.eeschema (polyline_of triangle)
           (mkPolyline (mkItem Reference.flag_IS_RESIZED (mkPoint 10 10) (mkPoint 0 0))
              0 triangle (-2))
           (mkPoint 10 5) (mkPoint 12 6) (mkPoint 12 6)).
  - vm_compute. congruence.
  - reflexivity.
  - reflexivity.
  - reflexivity.
  - reflexivity.
Defined.

Lemma EndEdit_pending_insertion_witness :
  let H := Reference.eeschema in
  (BeginEdit IS_RESIZED (mkPoint 10 5) (polyline_of triangle)
     ≫= EndEdit (mkPoint 10 5)) = None.
Proof.
  apply (@EndEdit_pending_insertion Reference.eeschema
           (mkPolyline (mkItem Reference.flag_IS_RESIZED (mkPoint 10 10) (mkPoint 0 0))
              0 triangle (-2)) (mkPoint 10 5)).
  - vm_compute. congruence.
  - reflexivity.
  - vm_compute. split; congruence.
  - reflexivity.
Defined.

(** ** Further properties: drawing a new polyline *)

Section NewPolyline.
Context `{Host}.

Lemma lookup_snoc2 {A} (l : list A) (a b : A) :
  (l ++ [a; b]) !! (length (l ++ [a; b]) - 2)%nat = Some a
  ∧ (l ++ [a; b]) !! (length (l ++ [a; b]) - 1)%nat = Some b.
Proof.
  rewrite length_app. simpl. split.
  - replace (length l + 2 - 2)%nat with (length l + 0)%nat by lia.
    by rewrite lookup_app_r, Nat.add_0_r, Nat.sub_diag by lia.
  - replace (length l + 2 - 1)%nat with (length l + 1)%nat by lia.
    rewrite lookup_app_r by lia.
    by replace (length l + 1 - length l)%nat with 1%nat by lia.
Qed.

Lemma ContinueEdit_last_two (st : LIB_POLYLINE) (l : list wxPoint) (a b q : wxPoint) :
  IsNew (m_Flags (item st)) = true →
  m_PolyPoints st = l ++ [a; b] → vec_size (m_PolyPoints st) < SizeT.modulus →
  ContinueEdit q st
  = Some (true, if decide (a ≠ b) then set_points st (l ++ [a; b; q]) else st).
Proof.
  intros Hnew Hpts Hsize. unfold ContinueEdit. rewrite Hnew.
  destruct (lookup_snoc2 l a b) as [Ha Hb]. rewrite <- Hpts in Ha, Hb.
  rewrite (size_minus_two _ (length (m_PolyPoints st) - 2)); [|rewrite Hpts, length_app; simpl; lia|done].
  rewrite vec_at_lookup, Ha. unfold vec_back. rewrite last_lookup_pred, Hb. simpl.
  case_decide; [|done]. unfold vec_push_back. rewrite Hpts, <- app_assoc. done.
Qed.

(** X10: drawing a new polyline of at most [2^32 - 2] vertices.
    [BeginEdit] in new mode returns and appends the start point [p] twice.
    While [IsNew()] holds: [ContinueEdit] right after it adds nothing and
    answers true; [CalcEdit] at [q] overwrites the last vertex only;
    [ContinueEdit] at [r] then answers true, appends [r] when [q] differs
    from [p], whatever [r] is, and changes nothing when [q] is [p]. *)
Theorem new_polyline_rubber_band (st : LIB_POLYLINE) (p q r : wxPoint) :
  vec_size (m_PolyPoints st) + 2 ≤ UInt.modulus →
  ∃ st1,
    BeginEdit IS_NEW p st = Some st1
    ∧ m_PolyPoints st1 = m_PolyPoints st ++ [p; p]
    ∧ (IsNew (m_Flags (item st1)) = true →
       ContinueEdit r st1 = Some (true, st1)
       ∧ ∃ st2, CalcEdit q st1 = Some st2
                ∧ m_PolyPoints st2 = m_PolyPoints st ++ [p; q]
                ∧ ContinueEdit r st2
                  = Some (true, if decide (p ≠ q)
                                then set_points st2 (m_PolyPoints st ++ [p; q; r])
                                else st2)).
Proof.
  intros Hsize. unfold BeginEdit. rewrite decide_True by done.
  eexists. split; [done|]. simpl. unfold vec_push_back. rewrite <- app_assoc. simpl.
  split; [done|]. intros Hnew.
  set (st1 := AddPoint p (AddPoint p (set_item st _))).
  assert (m_PolyPoints st1 = m_PolyPoints st ++ [p; p]) as Hpts1.
  { unfold st1. simpl. unfold vec_push_back. by rewrite <- app_assoc. }
  assert (vec_size (m_PolyPoints st1) = vec_size (m_PolyPoints st) + 2) as Hsz1.
  { unfold vec_size. rewrite Hpts1, length_app. simpl. lia. }
  unfold UInt.modulus, SizeT.modulus in *.
  split.
  - rewrite (ContinueEdit_last_two st1 (m_PolyPoints st) p p r);
      [|done|done|unfold SizeT.modulus; lia].
    by rewrite decide_False by (by intros ?).
  - unfold CalcEdit. change (m_Flags (item st1)) with
      (m_Flags (LIB_ITEM_BeginEdit IS_NEW p (item st))).
    rewrite Hnew. unfold GetCornerCount. rewrite Hsz1.
    assert (UInt.sub (vec_size (m_PolyPoints st) + 2) 1
            = Z.of_nat (length (m_PolyPoints st) + 1)) as ->.
    { unfold UInt.sub, UInt.modulus, vec_size in *. rewrite Z.mod_small; lia. }
    unfold vec_set. rewrite decide_True by (unfold vec_size in *; lia). simpl.
    rewrite Nat2Z.id.
    change (vec_push_back (vec_push_back (m_PolyPoints st) p) p)
      with (m_PolyPoints st1).
    assert (<[(length (m_PolyPoints st) + 1)%nat := q]> (m_PolyPoints st1)
            = m_PolyPoints st ++ [p; q]) as ->.
    { rewrite Hpts1. by rewrite insert_app_r. }
    eexists. split; [done|]. simpl. split; [done|].
    apply ContinueEdit_last_two; simpl; [done|done|].
    unfold vec_size, SizeT.modulus in *. rewrite length_app. simpl. lia.
Qed.

End NewPolyline.

Lemma new_polyline_rubber_band_witness :
  let H := Reference.eeschema in
  let st := polyline_of [] in
  ∃ st1,
    BeginEdit IS_NEW (mkPoint 0 0) st = Some st1
    ∧ m_PolyPoints st1 = m_PolyPoints st ++ [mkPoint 0 0; mkPoint 0 0]
    ∧ (IsNew (m_Flags (item st1)) = true →
       ContinueEdit (mkPoint 10 10) st1 = Some (true, st1)
       ∧ ∃ st2, CalcEdit (mkPoint 10 0) st1 = Some st2
                ∧ m_PolyPoints st2 = m_PolyPoints st ++ [mkPoint 0 0; mkPoint 10 0]
                ∧ ContinueEdit (mkPoint 10 10) st2
                  = Some (true,
                          if decide (mkPoint 0 0 ≠ mkPoint 10 0)
                          then set_points st2
                                 (m_PolyPoints st
                                  ++ [mkPoint 0 0; mkPoint 10 0; mkPoint 10 10])
                          else st2)).
Proof.
  apply (@new_polyline_rubber_band Reference.eeschema (polyline_of [])
           (mkPoint 0 0) (mkPoint 10 0) (mkPoint 10 10)).
  vm_compute. congruence.
Defined.

(** ** Further properties: what EndEdit and DeleteSegment remove *)

Section Cleanup.
Context `{Host}.

Lemma pop_back_is_delete {A} (v v' : list A) :
  vec_pop_back v = Some v' → v' = delete (length v - 1)%nat v.
Proof.
  unfold vec_pop_back. destruct v as [|a v]; [done|]. intros [= <-].
  rewrite delete_take_drop.
  replace (S (length (a :: v) - 1)) with (length (a :: v)) by (simpl; lia).
  by rewrite drop_all, app_nil_r.
Qed.

Lemma EndEdit_new_removes (st st' : LIB_POLYLINE) :
  vec_size (m_PolyPoints st) < SizeT.modulus →
  EndEdit_new st = Some st' →
  item st' = item st ∧ m_ModifyIndex st' = m_ModifyIndex st
  ∧ (st' = st
     ∨ (m_Flags (item st) = IS_NEW
        ∧ ∃ j v, m_PolyPoints st !! j = Some v ∧ m_PolyPoints st !! S j = Some v
                 ∧ m_PolyPoints st' = delete (S j) (m_PolyPoints st))).
Proof.
  intros Hsize. unfold EndEdit_new.
  case_decide as Hc; [|intros [= <-]; auto]. destruct Hc as [Hnew Hgt].
  intros He. apply bind_Some in He as (a & Ha & He).
  apply bind_Some in He as (b & Hb & He).
  destruct (decide (a = b)) as [<-|]; [|injection He as <-; auto].
  apply bind_Some in He as (pts & Hpop & [= <-]). simpl.
  split; [done|]. split; [done|]. right. split; [done|].
  apply pop_back_is_delete in Hpop.
  rewrite (size_minus_two _ (length (m_PolyPoints st) - 2)) in Ha
    by (done || (unfold vec_size in Hgt; lia)).
  unfold vec_size in *.
  rewrite vec_at_lookup in Ha. unfold vec_back in Hb. rewrite last_lookup_pred in Hb.
  exists (length (m_PolyPoints st) - 2)%nat, a.
  replace (S (length (m_PolyPoints st) - 2)) with (length (m_PolyPoints st) - 1)%nat by lia.
  done.
Qed.

Lemma EndEdit_resized_removes (st st' : LIB_POLYLINE) :
  EndEdit_resized st = Some st' →
  st' = st
  ∨ (m_Flags (item st) = IS_RESIZED
     ∧ ∃ i v, m_PolyPoints st !! i = Some v
              ∧ (m_PolyPoints st !! S i = Some v
                 ∨ ∃ j, i = S j ∧ m_PolyPoints st !! j = Some v)
              ∧ m_PolyPoints st' = delete i (m_PolyPoints st)
              ∧ item st' = item st ∧ m_ModifyIndex st' = m_ModifyIndex st).
Proof.
  unfold EndEdit_resized. case_decide as Hc; [|intros [= <-]; auto].
  destruct Hc as [Hres Hgt]. intros He.
  apply bind_Some in He as (l & Hl & He).
  apply bind_Some in He as (c & Hc & He).
  destruct c; [|injection He as <-; auto].
  apply bind_Some in He as (pts & Herase & [= <-]). simpl. right. split; [done|].
  unfold vec_erase in Herase. case_decide as Hrange; [|done]. injection Herase as <-.
  exists (Z.to_nat (m_ModifyIndex st)).
  destruct l.
  - unfold equals_left in Hl. case_decide as Hpos; [|done].
    apply bind_Some in Hl as (a & [_ Ha]%vec_at_Some & Hl).
    apply bind_Some in Hl as (b & [_ Hb]%vec_at_Some & [= Hab]).
    apply bool_decide_eq_true in Hab as <-.
    exists a. split; [done|]. split; [|done]. right.
    exists (Z.to_nat (m_ModifyIndex st - 1)). split; [lia|done].
  - unfold equals_right in Hc. apply bind_Some in Hc as (li & _ & Hc).
    case_decide; [|done].
    apply bind_Some in Hc as (a & [_ Ha]%vec_at_Some & Hc).
    apply bind_Some in Hc as (b & [_ Hb]%vec_at_Some & [= Hab]).
    apply bool_decide_eq_true in Hab as <-.
    exists a. split; [done|]. split; [|done]. left.
    by replace (S (Z.to_nat (m_ModifyIndex st)))
      with (Z.to_nat (m_ModifyIndex st + 1)) by lia.
Qed.

(** X11: [EndEdit] only collapses a zero-length segment.  Either the
    vertex list is unchanged, or exactly one vertex has been removed and
    that vertex was equal to the vertex before it or after it in the list;
    no other vertex is touched and the order is kept. *)
Theorem EndEdit_removes_duplicate_only (st st' : LIB_POLYLINE) (aPosition : wxPoint) :
  IS_NEW ≠ IS_RESIZED →
  vec_size (m_PolyPoints st) < SizeT.modulus →
  EndEdit aPosition st = Some st' →
  m_PolyPoints st' = m_PolyPoints st
  ∨ ∃ i v, m_PolyPoints st !! i = Some v
           ∧ (m_PolyPoints st !! S i = Some v
              ∨ ∃ j, i = S j ∧ m_PolyPoints st !! j = Some v)
           ∧ m_PolyPoints st' = delete i (m_PolyPoints st).
Proof.
  intros Hmodes Hsize. unfold EndEdit. set (st0 := set_item st _).
  intros He. apply bind_Some in He as (st1 & Hnew & Hres).
  apply EndEdit_new_removes in Hnew as (Hitem & _ & Hnew); [|done].
  apply EndEdit_resized_removes in Hres.
  change (m_PolyPoints st0) with (m_PolyPoints st) in *.
  destruct Hnew as [->|(Hflag & j & v & Hj & HSj & Hdel)].
  - destruct Hres as [->|(_ & i & v & Hi & Hn & Hdel & _)]; [by left|].
    right. by exists i, v.
  - destruct Hres as [->|(Hflag' & _)].
    + right. exists (S j), v. split; [done|]. split; [|done]. right. by exists j.
    + rewrite Hitem in Hflag'. congruence.
Qed.

(** *** DeleteSegment *)

Lemma take_pred_snoc {A} (l : list A) (n : nat) (a b : A) :
  l !! n = Some a → <[n := b]> (take (S n) l) = take n l ++ [b].
Proof.
  intros Hn. rewrite (take_S_r _ _ _ Hn).
  pose proof (lookup_lt_Some _ _ _ Hn).
  rewrite <- (Nat.add_0_r n) at 1.
  rewrite <- (length_take_le l n) at 1 by lia.
  by rewrite insert_app_r.
Qed.

Lemma DeleteSegment_loop_retracts (aPosition : wxPoint) (fuel : nat) : ∀ pts,
  vec_size pts - 2 ≤ Z.of_nat fuel → 2 < vec_size pts ≤ UInt.modulus →
  ∃ k, (2 ≤ k < length pts)%nat
       ∧ DeleteSegment_loop aPosition fuel pts = Some (take (k - 1) pts ++ [aPosition])
       ∧ (∀ i, (k ≤ i)%nat → (i + 2 ≤ length pts)%nat → pts !! i = Some aPosition)
       ∧ (k = 2%nat ∨ pts !! (k - 1)%nat ≠ Some aPosition).
Proof.
  induction fuel as [|fuel IH]; intros pts Hfuel [Hgt Hle]; [lia|].
  simpl. rewrite decide_True by done.
  unfold vec_size in *. set (n := length pts) in *.
  assert (vec_pop_back pts = Some (take (n - 1) pts)) as ->.
  { unfold vec_pop_back. destruct pts; [simpl in *; lia|done]. }
  simpl. rewrite length_take_le by lia.
  assert (UInt.sub (Z.of_nat (n - 1)) 1 = Z.of_nat (n - 2)) as ->.
  { unfold UInt.sub, UInt.modulus in *. rewrite Z.mod_small; lia. }
  rewrite vec_at_lookup, lookup_take_lt by lia.
  destruct (lookup_lt_is_Some_2 pts (n - 2)) as [last1 Hlast]; [lia|].
  rewrite Hlast. simpl.
  destruct (decide (last1 ≠ aPosition)) as [Hne|Heq].
  - exists (n - 1)%nat. split; [lia|]. split.
    + unfold vec_set, vec_size. rewrite length_take_le by lia.
      rewrite decide_True by lia. rewrite Nat2Z.id.
      replace (n - 1)%nat with (S (n - 2)) at 1 by lia.
      rewrite (take_pred_snoc _ _ _ _ Hlast).
      by replace (n - 1 - 1)%nat with (n - 2)%nat by lia.
    + split; [intros i ??; lia|]. right.
      replace (n - 1 - 1)%nat with (n - 2)%nat by lia. rewrite Hlast. congruence.
  - assert (last1 = aPosition) as -> by (destruct (decide (last1 = aPosition)); tauto).
    destruct (decide (n = 3%nat)) as [Hn3|Hn3].
    + exists 2%nat. split; [lia|]. split.
      * destruct fuel; simpl; rewrite decide_False
          by (unfold vec_size; rewrite length_take_le by lia; lia);
          replace (n - 1)%nat with 2%nat by lia;
          replace (n - 2)%nat with 1%nat in Hlast by lia;
          by rewrite (take_S_r _ _ _ Hlast).
      * split; [|by left]. intros i ??.
        by replace i with (n - 2)%nat by lia.
    + destruct (IH (take (n - 1) pts)) as (k & Hk & -> & Hall & Hstop).
      { rewrite length_take_le by lia. lia. }
      { rewrite length_take_le by lia. lia. }
      rewrite length_take_le in Hk, Hall by lia.
      exists k. split; [lia|]. split.
      * rewrite take_take. by replace ((k - 1) `min` (n - 1))%nat with (k - 1)%nat by lia.
      * split.
        -- intros i Hi1 Hi2. destruct (decide (i = n - 2)%nat) as [->|]; [done|].
           rewrite <- (lookup_take_lt pts (n - 1)) by lia. apply Hall; lia.
        -- destruct Hstop as [->|Hstop]; [by left|]. right.
           by rewrite lookup_take_lt in Hstop by lia.
Qed.

(** X12: [DeleteSegment] retracts the end of the polyline onto the given
    point.  A polyline of at most 2 vertices is left as it is.  A longer
    one is cut after some vertex [k - 2], [2 <= k < n], and ends with
    [aPosition] in place of vertex [k - 1]: the first vertex is always
    kept, at least one vertex is removed, every vertex it passes over while
    cutting is equal to [aPosition], and it stops at the first vertex that
    differs from [aPosition] or at 2 vertices. *)
Theorem DeleteSegment_retracts_to (st : LIB_POLYLINE) (aPosition : wxPoint) :
  vec_size (m_PolyPoints st) ≤ UInt.modulus →
  (vec_size (m_PolyPoints st) ≤ 2 → DeleteSegment aPosition st = Some st)
  ∧ (2 < vec_size (m_PolyPoints st) →
     ∃ k, (2 ≤ k < length (m_PolyPoints st))%nat
          ∧ DeleteSegment aPosition st
            = Some (set_points st (take (k - 1) (m_PolyPoints st) ++ [aPosition]))
          ∧ (∀ i, (k ≤ i)%nat → (i + 2 ≤ length (m_PolyPoints st))%nat →
                  m_PolyPoints st !! i = Some aPosition)
          ∧ (k = 2%nat ∨ m_PolyPoints st !! (k - 1)%nat ≠ Some aPosition)).
Proof.
  intros Hle. unfold DeleteSegment. split.
  - intros Hsmall. destruct (length (m_PolyPoints st)); simpl;
      rewrite decide_False by lia; by destruct st.
  - intros Hgt.
    destruct (DeleteSegment_loop_retracts aPosition (length (m_PolyPoints st))
                (m_PolyPoints st)) as (k & Hk & -> & Hall & Hstop);
      [unfold vec_size; lia|done|].
    exists k. done.
Qed.

End Cleanup.

Lemma EndEdit_removes_duplicate_only_witness :
  let H := Reference.eeschema in
  let st := mkPolyline (mkItem IS_NEW (mkPoint 0 0) (mkPoint 0 0)) 0
              [mkPoint 0 0; mkPoint 10 0; mkPoint 10 0] 0 in
  let st' := set_points st [mkPoint 0 0; mkPoint 10 0] in
  EndEdit (mkPoint 10 0) st = Some st'
  ∧ (m_PolyPoints st' = m_PolyPoints st
     ∨ ∃ i v, m_PolyPoints st !! i = Some v
              ∧ (m_PolyPoints st !! S i = Some v
                 ∨ ∃ j, i = S j ∧ m_PolyPoints st !! j = Some v)
              ∧ m_PolyPoints st' = delete i (m_PolyPoints st)).
Proof.
  split; [reflexivity|].
  apply (@EndEdit_removes_duplicate_only Reference.eeschema
           (mkPolyline (mkItem Reference.flag_IS_NEW (mkPoint 0 0) (mkPoint 0 0)) 0
              [mkPoint 0 0; mkPoint 10 0; mkPoint 10 0] 0)
           (mkPolyline (mkItem Reference.flag_IS_NEW (mkPoint 0 0) (mkPoint 0 0)) 0
              [mkPoint 0 0; mkPoint 10 0] 0)
           (mkPoint 10 0)).
  - vm_compute. congruence.
  - reflexivity.
  - reflexivity.
Defined.

Lemma DeleteSegment_retracts_to_witness :
  let st := polyline_of [mkPoint 0 0; mkPoint 10 0; mkPoint 10 10; mkPoint 7 7; mkPoint 7 7] in
  DeleteSegment (mkPoint 7 7) st
  = Some (polyline_of [mkPoint 0 0; mkPoint 10 0; mkPoint 7 7])
  ∧ (vec_size (m_PolyPoints st) ≤ 2 → DeleteSegment (mkPoint 7 7) st = Some st)
  ∧ (2 < vec_size (m_PolyPoints st) →
     ∃ k, (2 ≤ k < length (m_PolyPoints st))%nat
          ∧ DeleteSegment (mkPoint 7 7) st
            = Some (set_points st (take (k - 1) (m_PolyPoints st) ++ [mkPoint 7 7]))
          ∧ (∀ i, (k ≤ i)%nat → (i + 2 ≤ length (m_PolyPoints st))%nat →
                  m_PolyPoints st !! i = Some (mkPoint 7 7))
          ∧ (k = 2%nat ∨ m_PolyPoints st !! (k - 1)%nat ≠ Some (mkPoint 7 7))).
Proof.
  split; [reflexivity|].
  apply (DeleteSegment_retracts_to
           (polyline_of [mkPoint 0 0; mkPoint 10 0; mkPoint 10 10; mkPoint 7 7; mkPoint 7 7])
           (mkPoint 7 7)).
  vm_compute. congruence.
Defined.

(** ** Further properties: adding and removing a corner *)

Section Corners.
Context `{Host}.

(** X13: [AddCorner] adds exactly one vertex, the given point, and keeps
    the other vertices in their order: [RemoveCorner] at the index where
    the point was inserted gives back the polyline. *)
Theorem AddCorner_RemoveCorner (st : LIB_POLYLINE) (aPosition : wxPoint) :
  2 ≤ vec_size (m_PolyPoints st) < SizeT.modulus →
  ∃ c st1,
    closestLineStart (m_PolyPoints st) aPosition = Some c
    ∧ AddCorner aPosition st = Some st1
    ∧ vec_size (m_PolyPoints st1) = vec_size (m_PolyPoints st) + 1
    ∧ vec_at (m_PolyPoints st1) c = Some aPosition
    ∧ RemoveCorner c st1 = Some st.
Proof.
  intros Hsz.
  destruct (closestLineStart_spec (m_PolyPoints st) aPosition Hsz)
    as (w & Hw & Hlt & _).
  exists (Z.of_nat w). eexists. split; [done|].
  unfold AddCorner. rewrite Hw. simpl. unfold vec_insert.
  rewrite decide_True by (unfold vec_size; lia). simpl. rewrite Nat2Z.id.
  split; [done|]. simpl.
  assert (length (take w (m_PolyPoints st)) = w) as Hlen
    by (rewrite length_take_le; lia).
  split; [|split].
  - unfold vec_size. rewrite length_app. simpl. rewrite Hlen, length_drop. lia.
  - rewrite vec_at_lookup.
    rewrite <- Hlen at 1. rewrite <- (Nat.add_0_r (length _)).
    by rewrite lookup_app_r, Nat.add_0_r, Nat.sub_diag by lia.
  - unfold RemoveCorner, vec_erase. simpl.
    rewrite decide_True.
    2:{ unfold vec_size. rewrite length_app. simpl. rewrite Hlen, length_drop. lia. }
    simpl. rewrite Nat2Z.id.
    assert (delete w (take w (m_PolyPoints st) ++ aPosition :: drop w (m_PolyPoints st))
            = m_PolyPoints st) as ->.
    { rewrite <- Hlen at 1. by rewrite delete_middle, take_drop. }
    by destruct st.
Qed.

End Corners.

Lemma AddCorner_RemoveCorner_witness :
  let H := Reference.eeschema in
  let st := polyline_of triangle in
  ∃ c st1,
    closestLineStart (m_PolyPoints st) (mkPoint 10 5) = Some c
    ∧ AddCorner (mkPoint 10 5) st = Some st1
    ∧ vec_size (m_PolyPoints st1) = vec_size (m_PolyPoints st) + 1
    ∧ vec_at (m_PolyPoints st1) c = Some (mkPoint 10 5)
    ∧ RemoveCorner c st1 = Some st.
Proof.
  apply (@AddCorner_RemoveCorner Reference.eeschema (polyline_of triangle) (mkPoint 10 5)).
  vm_compute. split; congruence.
Defined.

(** ** Further properties: compare as an order *)

Lemma compare_loop_zero a b idxs :
  compare_loop a b idxs = Some 0 → ∀ i, i ∈ idxs → a !! i = b !! i.
Proof.
  induction idxs as [|j idxs IH]; simpl;
    [intros _ i Hi; by apply elem_of_nil in Hi|].
  destruct (a !! j) as [p|] eqn:Hp, (b !! j) as [q|] eqn:Hq; simpl; try done.
  repeat case_decide;
    try (intros Hs; unfold Int.sub in Hs; apply chk_Some in Hs as [? _]; lia).
  intros Hloop i Hi. apply elem_of_cons in Hi as [->|Hi]; [|by apply IH].
  rewrite Hp, Hq. destruct p, q; simpl in *. f_equal. f_equal; lia.
Qed.

Lemma size_difference_zero (m n : Z) :
  Z.abs (m - n) < 4294967296 → SizeT.to_int (SizeT.sub m n) = 0 → m = n.
Proof.
  unfold SizeT.to_int, SizeT.sub, SizeT.modulus. intros Hd.
  rewrite Z.mod_mod_divide by (exists 4294967296; lia).
  pose proof (Z.mod_pos_bound (m - n) 4294967296).
  case_decide; intros Hz; [|lia].
  apply Z.mod_divide in Hz as [k Hk]; lia.
Qed.

(** X14: [compare] answers 0 for equal vertex lists only.  For two
    polylines whose vertex counts differ by less than [2^32], the result is
    0 exactly when the two lists have the same vertices in the same
    order. *)
Theorem compare_zero_iff_equal (a b : list wxPoint) :
  Z.abs (vec_size a - vec_size b) < 4294967296 →
  compare a b = Some 0 ↔ a = b.
Proof.
  intros Hd. split; [|intros ->; apply compare_refl].
  unfold compare. case_decide as Hs.
  - intros [= Hz]. by apply size_difference_zero in Hz.
  - intros Hloop. assert (vec_size a = vec_size b) as Heq
      by (destruct (decide (vec_size a = vec_size b)); tauto).
    unfold vec_size in Heq. apply list_eq. intros i.
    destruct (decide (i < length a)%nat).
    + eapply compare_loop_zero; [done|]. apply elem_of_seq. lia.
    + rewrite !lookup_ge_None_2 by lia. done.
Qed.

Lemma compare_zero_iff_equal_witness :
  compare [mkPoint 0 0; mkPoint 5 7] [mkPoint 0 0; mkPoint 5 7] = Some 0
  ↔ [mkPoint 0 0; mkPoint 5 7] = [mkPoint 0 0; mkPoint 5 7].
Proof.
  apply (compare_zero_iff_equal [mkPoint 0 0; mkPoint 5 7] [mkPoint 0 0; mkPoint 5 7]).
  vm_compute. reflexivity.
Defined.

Lemma compare_loop_trans a b c idxs : ∀ r1 r2 r3,
  compare_loop a b idxs = Some r1 → compare_loop b c idxs = Some r2 →
  compare_loop a c idxs = Some r3 →
  r1 ≤ 0 → r2 ≤ 0 → r3 ≤ 0 ∧ (r1 < 0 ∨ r2 < 0 → r3 < 0).
Proof.
  induction idxs as [|i idxs IH]; simpl; intros r1 r2 r3.
  - intros [= <-] [= <-] [= <-]. lia.
  - destruct (a !! i) as [pa|], (b !! i) as [pb|], (c !! i) as [pc|]; simpl; try done.
    repeat case_decide; intros; int_inv; try lia.
    by eapply IH.
Qed.

Lemma compare_cases a b r :
  vec_size a < 2147483648 → vec_size b < 2147483648 →
  compare a b = Some r →
  (vec_size a ≠ vec_size b ∧ r = vec_size a - vec_size b)
  ∨ (length b = length a ∧ compare_loop a b (seq 0 (length a)) = Some r).
Proof.
  intros Ha Hb. unfold compare.
  assert (0 ≤ vec_size a ∧ 0 ≤ vec_size b) as [??] by (unfold vec_size; lia).
  case_decide as Hs.
  - rewrite size_difference_exact by lia. intros [= <-]. by left.
  - intros Hl. right. split; [|done]. unfold vec_size in Hs. lia.
Qed.

(** X15: [compare] orders polylines consistently.  For three polylines of
    fewer than [2^31] vertices, if [a] compares below [b] and [b] below
    [c], then [a] compares below [c], whenever the three calls return. *)
Theorem compare_transitive (a b c : list wxPoint) (r1 r2 r3 : Z) :
  vec_size a < 2147483648 → vec_size b < 2147483648 → vec_size c < 2147483648 →
  compare a b = Some r1 → compare b c = Some r2 → compare a c = Some r3 →
  r1 < 0 → r2 < 0 → r3 < 0.
Proof.
  intros Ha Hb Hc H1 H2 H3 Hr1 Hr2.
  apply compare_cases in H1 as [[Hab ->]|[Hab H1]]; [| |done..];
    apply compare_cases in H2 as [[Hbc ->]|[Hbc H2]]; try done;
    apply compare_cases in H3 as [[Hac ->]|[Hac H3]]; try done;
    unfold vec_size in *; try lia.
  rewrite Hab in H2.
  destruct (compare_loop_trans a b c _ _ _ _ H1 H2 H3) as [_ Hlt]; [lia|lia|].
  apply Hlt. by left.
Qed.

Lemma compare_transitive_witness :
  compare [mkPoint 0 0; mkPoint 5 7] [mkPoint 0 0; mkPoint 9 1] = Some (-4)
  ∧ compare [mkPoint 0 0; mkPoint 9 1] [mkPoint 1 0; mkPoint 0 0] = Some (-1)
  ∧ compare [mkPoint 0 0; mkPoint 5 7] [mkPoint 1 0; mkPoint 0 0] = Some (-1)
  ∧ -1 < 0.
Proof.
  split; [reflexivity|]. split; [reflexivity|]. split; [reflexivity|].
  apply (compare_transitive [mkPoint 0 0; mkPoint 5 7] [mkPoint 0 0; mkPoint 9 1]
           [mkPoint 1 0; mkPoint 0 0] (-4) (-1) (-1)); reflexivity.
Defined.

(** ** Further properties: Inside and the bounding box *)

Section Extent.
Context `{Host}.

Lemma Inside_loop_spec (pts : list wxPoint) (aRect : EDA_RECT) (idxs : list nat) :
  Forall (λ i, (i < length pts)%nat) idxs →
  Forall (λ p, Int.INT_MIN < y p ≤ Int.INT_MAX) pts →
  ∃ r, Inside_loop pts aRect idxs = Some r
       ∧ (r = true ↔
          ∃ i p, i ∈ idxs ∧ pts !! i = Some p
                 ∧ Contains aRect (mkPoint (x p) (- y p)) = true).
Proof.
  intros Hidx Hy. induction Hidx as [|i idxs Hi _ IH]; simpl.
  - exists false. split; [done|]. split; [done|].
    intros (i & p & Hin & _). by apply elem_of_nil in Hin.
  - destruct (lookup_lt_is_Some_2 pts i Hi) as [p Hp]. rewrite Hp. simpl.
    pose proof (proj1 (Forall_lookup _ _) Hy i p Hp) as Hyp.
    unfold Int.neg. rewrite chk_in_range by range_lia. simpl.
    destruct (Contains aRect (mkPoint (x p) (- y p))) eqn:Hc.
    + exists true. split; [done|]. split; [|done]. intros _.
      exists i, p. split; [apply elem_of_cons; by left|done].
    + destruct IH as (r & -> & Hr). exists r. split; [done|]. rewrite Hr. split.
      * intros (j & q & Hj & ?). exists j, q. split; [apply elem_of_cons; by right|done].
      * intros (j & q & Hj & Hq & Hcq).
        apply elem_of_cons in Hj as [->|Hj]; [congruence|]. by exists j, q.
Qed.

(** X16: [Inside] answers true exactly when the rectangle contains the
    image [(x, -y)] of one of the vertices; it answers false for a
    polyline without vertices.  (No ordinate is [INT_MIN], whose opposite
    is not an [int].) *)
Theorem Inside_iff_vertex (st : LIB_POLYLINE) (aRect : EDA_RECT) :
  Forall (λ p, Int.INT_MIN < y p ≤ Int.INT_MAX) (m_PolyPoints st) →
  ∃ r, Inside aRect st = Some r
       ∧ (r = true ↔
          ∃ p, p ∈ m_PolyPoints st ∧ Contains aRect (mkPoint (x p) (- y p)) = true)
       ∧ (m_PolyPoints st = [] → r = false).
Proof.
  intros Hy. unfold Inside.
  destruct (Inside_loop_spec (m_PolyPoints st) aRect
              (seq 0 (length (m_PolyPoints st)))) as (r & -> & Hr); [|done|].
  { apply Forall_seq. lia. }
  exists r. split; [done|]. split.
  - rewrite Hr. split.
    + intros (i & p & _ & Hp & Hc). exists p. split; [|done].
      by eapply list_elem_of_lookup_2.
    + intros (p & [i Hp]%list_elem_of_lookup_1 & Hc). exists i, p.
      split; [|done]. apply elem_of_seq. apply lookup_lt_Some in Hp. lia.
  - intros Hnil. destruct r; [|done].
    destruct (proj1 Hr eq_refl) as (i & p & _ & Hp & _). by rewrite Hnil in Hp.
Qed.

(** The extent bounds the vertices at the indices [idxs] and the extent it
    started from, and each of its four bounds is a bound of the start or a
    coordinate of one of these vertices. *)
Lemma GetBoundingBox_loop_spec (pts : list wxPoint) (idxs : list nat) : ∀ e,
  Forall (λ i, (i < length pts)%nat) idxs →
  ∃ e', GetBoundingBox_loop pts e idxs = Some e'
        ∧ (xmin e' ≤ xmin e ∧ xmax e ≤ xmax e' ∧ ymin e' ≤ ymin e ∧ ymax e ≤ ymax e')
        ∧ (∀ i p, i ∈ idxs → pts !! i = Some p →
                  xmin e' ≤ x p ≤ xmax e' ∧ ymin e' ≤ y p ≤ ymax e')
        ∧ (xmin e' = xmin e ∨ ∃ p, p ∈ pts ∧ x p = xmin e')
        ∧ (xmax e' = xmax e ∨ ∃ p, p ∈ pts ∧ x p = xmax e')
        ∧ (ymin e' = ymin e ∨ ∃ p, p ∈ pts ∧ y p = ymin e')
        ∧ (ymax e' = ymax e ∨ ∃ p, p ∈ pts ∧ y p = ymax e').
Proof.
  induction idxs as [|i idxs IH]; intros e Hidx; simpl.
  - exists e. split; [done|]. split; [lia|]. split; [|by repeat split; left].
    intros i p Hi. by apply elem_of_nil in Hi.
  - apply Forall_cons in Hidx as [Hi Hidx].
    destruct (lookup_lt_is_Some_2 pts i Hi) as [p Hp]. rewrite Hp. simpl.
    destruct (IH (mkExtent (Z.min (xmin e) (x p)) (Z.max (xmax e) (x p))
                           (Z.min (ymin e) (y p)) (Z.max (ymax e) (y p))) Hidx)
      as (e' & -> & Hmono & Hall & Hx0 & Hx1 & Hy0 & Hy1). simpl in *.
    assert (p ∈ pts) as Hin by (by eapply list_elem_of_lookup_2).
    exists e'. split; [done|]. split; [lia|]. split.
    { intros j q Hj Hq. apply elem_of_cons in Hj as [->|Hj]; [|by eapply Hall].
      rewrite Hp in Hq. injection Hq as <-. lia. }
    split; [|split; [|split]].
    + destruct Hx0 as [Hx0|?]; [|by right].
      destruct (decide (xmin e ≤ x p)); [left; lia|right; exists p; split; [done|lia]].
    + destruct Hx1 as [Hx1|?]; [|by right].
      destruct (decide (x p ≤ xmax e)); [left; lia|right; exists p; split; [done|lia]].
    + destruct Hy0 as [Hy0|?]; [|by right].
      destruct (decide (ymin e ≤ y p)); [left; lia|right; exists p; split; [done|lia]].
    + destruct Hy1 as [Hy1|?]; [|by right].
      destruct (decide (y p ≤ ymax e)); [left; lia|right; exists p; split; [done|lia]].
Qed.

(** X17: the bounding box is the tight box of the vertices, inflated.  For
    a polyline with a vertex, [GetBoundingBox] returns the rectangle from
    [(xmin, ymin)] to [(xmax, ymax)], inflated by [(pen size + 1) / 2] and
    with the Y axis reverted, where every vertex lies between the four
    bounds and each bound is a coordinate of some vertex. *)
Theorem GetBoundingBox_tight (st : LIB_POLYLINE) :
  m_PolyPoints st ≠ [] → Int.in_range (GetPenSize st + 1) →
  ∃ e, GetBoundingBox st
       = Some (RevertYAxis
                 (Inflate (SetEnd (SetOrigin EDA_RECT_new (xmin e) (ymin e))
                             (xmax e) (ymax e))
                    ((GetPenSize st + 1) ÷ 2)))
       ∧ (∀ p, p ∈ m_PolyPoints st →
               xmin e ≤ x p ≤ xmax e ∧ ymin e ≤ y p ≤ ymax e)
       ∧ (∃ p, p ∈ m_PolyPoints st ∧ x p = xmin e)
       ∧ (∃ p, p ∈ m_PolyPoints st ∧ x p = xmax e)
       ∧ (∃ p, p ∈ m_PolyPoints st ∧ y p = ymin e)
       ∧ (∃ p, p ∈ m_PolyPoints st ∧ y p = ymax e).
Proof.
  intros Hne Hpen. unfold GetBoundingBox.
  destruct (m_PolyPoints st) as [|p0 rest] eqn:Hpts; [done|].
  change (vec_at (p0 :: rest) 0) with (Some p0). simpl. rewrite <- Hpts.
  destruct (GetBoundingBox_loop_spec (m_PolyPoints st)
              (seq 1 (Z.to_nat (GetCornerCount st) - 1))
              (mkExtent (x p0) (x p0) (y p0) (y p0)))
    as (e & -> & Hmono & Hall & Hx0 & Hx1 & Hy0 & Hy1).
  { apply Forall_seq. unfold GetCornerCount, vec_size. lia. }
  simpl in *. unfold Int.add. rewrite (chk_in_range _ Hpen). simpl.
  assert (p0 ∈ m_PolyPoints st) as Hp0 by (rewrite Hpts; apply elem_of_cons; by left).
  exists e. split; [done|]. split.
  { intros p [i Hi]%list_elem_of_lookup_1. destruct i as [|i].
    - rewrite Hpts in Hi. injection Hi as <-. lia.
    - eapply Hall; [|done]. apply elem_of_seq.
      apply lookup_lt_Some in Hi. unfold GetCornerCount, vec_size. lia. }
  split; [|split; [|split]].
  - destruct Hx0 as [?|?]; [exists p0|]; done.
  - destruct Hx1 as [?|?]; [exists p0|]; done.
  - destruct Hy0 as [?|?]; [exists p0|]; done.
  - destruct Hy1 as [?|?]; [exists p0|]; done.
Qed.

End Extent.

Lemma Inside_iff_vertex_witness :
  let H := Reference.eeschema in
  let st := polyline_of triangle in
  let rect := Reference.mkBox 9 (-11) 11 (-9) in
  Inside rect st = Some true
  ∧ ∃ r, Inside rect st = Some r
         ∧ (r = true ↔
            ∃ p, p ∈ m_PolyPoints st ∧ Contains rect (mkPoint (x p) (- y p)) = true)
         ∧ (m_PolyPoints st = [] → r = false).
Proof.
  split; [reflexivity|].
  apply (@Inside_iff_vertex Reference.eeschema (polyline_of triangle)
           (Reference.mkBox 9 (-11) 11 (-9))).
  repeat constructor; vm_compute; congruence.
Defined.

Lemma GetBoundingBox_tight_witness :
  let H := Reference.eeschema in
  let st := polyline_of triangle in
  GetBoundingBox st = Some (Reference.mkBox (-1) (-11) 11 1)
  ∧ ∃ e, GetBoundingBox st
         = Some (RevertYAxis
                   (Inflate (SetEnd (SetOrigin EDA_RECT_new (xmin e) (ymin e))
                               (xmax e) (ymax e))
                      ((GetPenSize st + 1) ÷ 2)))
         ∧ (∀ p, p ∈ m_PolyPoints st →
                 xmin e ≤ x p ≤ xmax e ∧ ymin e ≤ y p ≤ ymax e)
         ∧ (∃ p, p ∈ m_PolyPoints st ∧ x p = xmin e)
         ∧ (∃ p, p ∈ m_PolyPoints st ∧ x p = xmax e)
         ∧ (∃ p, p ∈ m_PolyPoints st ∧ y p = ymin e)
         ∧ (∃ p, p ∈ m_PolyPoints st ∧ y p = ymax e).
Proof.
  split; [reflexivity|].
  apply (@GetBoundingBox_tight Reference.eeschema (polyline_of triangle)).
  - discriminate.
  - vm_compute. split; congruence.
Defined.

(** ** Further properties: compare and translations *)

Lemma compare_loop_translate d a b idxs :
  compare_loop (translate d <$> a) (translate d <$> b) idxs = compare_loop a b idxs.
Proof.
  induction idxs as [|i idxs IH]; simpl; [done|].
  rewrite !list_lookup_fmap.
  destruct (a !! i) as [p|], (b !! i) as [q|]; simpl; try done.
  unfold Int.sub.
  replace (x p + x d - (x q + x d)) with (x p - x q) by lia.
  replace (y p + y d - (y q + y d)) with (y p - y q) by lia.
  destruct (decide (x p ≠ x q)).
  - by rewrite decide_True by lia.
  - rewrite decide_False by lia. destruct (decide (y p ≠ y q)).
    + by rewrite decide_True by lia.
    + by rewrite decide_False by lia.
Qed.

(** X18: [compare] does not depend on where the shapes are: two polylines
    moved by the same [Offset] compare as they did before the move. *)
Theorem compare_Offset (d : wxPoint) (sa sb sa' sb' : LIB_POLYLINE) :
  Offset d sa = Some sa' → Offset d sb = Some sb' →
  compare (m_PolyPoints sa') (m_PolyPoints sb')
  = compare (m_PolyPoints sa) (m_PolyPoints sb).
Proof.
  intros [-> _]%Offset_Some [-> _]%Offset_Some. simpl.
  unfold compare, vec_size. rewrite !length_fmap.
  case_decide; [done|]. apply compare_loop_translate.
Qed.

Lemma compare_Offset_witness :
  compare [mkPoint 3 (-2); mkPoint 8 5] [mkPoint 3 (-2); mkPoint 12 (-1)]
  = compare [mkPoint 0 0; mkPoint 5 7] [mkPoint 0 0; mkPoint 9 1].
Proof.
  apply (compare_Offset (mkPoint 3 (-2))
           (polyline_of [mkPoint 0 0; mkPoint 5 7])
           (polyline_of [mkPoint 0 0; mkPoint 9 1])
           (polyline_of [mkPoint 3 (-2); mkPoint 8 5])
           (polyline_of [mkPoint 3 (-2); mkPoint 12 (-1)])); reflexivity.
Defined.

(** ** Further properties: Plot *)

Section PlotProperties.
Context `{Host}.

Lemma Plot_corners_spec pts aOffset aTransform (idxs : list nat) : ∀ acc cornerList,
  Plot_corners pts aOffset aTransform acc idxs = Some cornerList →
  ∃ new, cornerList = acc ++ new ∧ length new = length idxs
         ∧ ∀ j i, idxs !! j = Some i →
             ∃ v, pts !! i = Some v
                  ∧ new !! j = Some (translate aOffset (aTransform v)).
Proof.
  induction idxs as [|i idxs IH]; intros acc cornerList; simpl.
  - intros [= <-]. exists []. rewrite app_nil_r. split; [done|]. split; [done|].
    intros j i Hj. done.
  - intros Hp. apply bind_Some in Hp as (v & Hv & Hp).
    apply bind_Some in Hp as (c & [-> _]%pt_add_translate & Hp).
    apply IH in Hp as (new & -> & Hlen & Hall).
    exists (translate aOffset (aTransform v) :: new).
    unfold vec_push_back. rewrite <- app_assoc. split; [done|].
    split; [simpl; lia|]. intros [|j] i'; simpl.
    + intros [= <-]. by exists v.
    + apply Hall.
Qed.

(** Goes through the calls of a concrete list. *)
Ltac plot_call_in Hin :=
  repeat (apply elem_of_cons in Hin as [Hin|Hin];
          [first [ discriminate Hin
                 | injection Hin as -> -> ->;
                   split; [reflexivity|]; split; [lia|];
                   intros Hf; first [discriminate Hf | split; reflexivity] ]
          |]);
  apply elem_of_nil in Hin; destruct Hin.

(** X19: what [Plot] sends to the plotter.  It plots at most two
    polygons, each one right after a color is set, and makes no other
    call.  Every polygon has one corner per vertex, the vertex transformed
    and offset, in the order of the vertices, and a width that is never
    negative; a polygon filled with the background color has width 0 and
    is plotted only if the fill is asked for.  Nothing at all is plotted
    exactly when the fill mode is the background color, the fill is not
    asked for and the pen size is not positive. *)
Theorem Plot_calls (m_Fill : FILL_T) (aOffset : wxPoint) (aFill : bool)
    (aTransform : wxPoint → wxPoint) (st : LIB_POLYLINE) (calls : list plot_call) :
  Plot m_Fill aOffset aFill aTransform st = Some calls →
  ∃ cornerList,
    length cornerList = length (m_PolyPoints st)
    ∧ (∀ i v, m_PolyPoints st !! i = Some v →
              cornerList !! i = Some (translate aOffset (aTransform v)))
    ∧ (∀ c f w, PlotPoly c f w ∈ calls →
                c = cornerList ∧ 0 ≤ w
                ∧ (f = FILLED_WITH_BG_BODYCOLOR → w = 0 ∧ aFill = true))
    ∧ (length (polygons calls) ≤ 2)%nat
    ∧ length calls = (2 * length (polygons calls))%nat
    ∧ (∀ j c f w, calls !! j = Some (PlotPoly c f w) →
                  ∃ layer, calls !! (j - 1)%nat = Some (SetColor layer) ∧ (0 < j)%nat)
    ∧ (calls = [] ↔ m_Fill = FILLED_WITH_BG_BODYCOLOR ∧ aFill = false
                    ∧ GetPenSize st ≤ 0).
Proof.
  unfold Plot. intros Hp. apply bind_Some in Hp as (cornerList & Hc & [= <-]).
  apply Plot_corners_spec in Hc as (new & -> & Hlen & Hall). simpl.
  rewrite length_seq in Hlen.
  exists new. split; [done|]. split.
  { intros i v Hv.
    destruct (Hall i i) as (v' & Hv' & Hn).
    - apply lookup_seq. split; [done|]. by eapply lookup_lt_Some.
    - rewrite Hv in Hv'. by injection Hv' as <-. }
  destruct aFill, m_Fill; simpl;
    destruct (decide (GetPenSize st > 0)) as [Hpen|Hpen];
    rewrite ?(bool_decide_eq_true_2 _ Hpen), ?(bool_decide_eq_false_2 _ Hpen); simpl;
    (split; [intros c f w Hin; plot_call_in Hin|]);
    (split; [lia|]);
    (split; [reflexivity|]);
    (split; [intros [|[|[|[|j]]]] c f w Hj; simpl in Hj; try discriminate Hj;
             eexists; (split; [reflexivity|lia])|]);
    (split; [intros Hnil; try discriminate Hnil; repeat split; (done || lia)
            |intros (Hf & Ha & Hw); try discriminate Hf; try discriminate Ha;
             (done || lia)]).
Qed.

End PlotProperties.

Lemma Plot_calls_witness :
  let H := Reference.eeschema in
  let st := polyline_of triangle in
  let corners := [mkPoint 100 100; mkPoint 110 100; mkPoint 110 90] in
  let aTransform := λ p, mkPoint (x p) (- y p) in
  Plot FILLED_WITH_BG_BODYCOLOR (mkPoint 100 100) true aTransform st
  = Some [SetColor LAYER_DEVICE_BACKGROUND;
          PlotPoly corners FILLED_WITH_BG_BODYCOLOR 0;
          SetColor LAYER_DEVICE; PlotPoly corners NO_FILL 1]
  ∧ ∃ cornerList,
      length cornerList = length (m_PolyPoints st)
      ∧ (∀ i v, m_PolyPoints st !! i = Some v →
                cornerList !! i = Some (translate (mkPoint 100 100) (aTransform v)))
      ∧ (∀ c f w,
           PlotPoly c f w ∈ [SetColor LAYER_DEVICE_BACKGROUND;
                             PlotPoly corners FILLED_WITH_BG_BODYCOLOR 0;
                             SetColor LAYER_DEVICE; PlotPoly corners NO_FILL 1] →
           c = cornerList ∧ 0 ≤ w
           ∧ (f = FILLED_WITH_BG_BODYCOLOR → w = 0 ∧ true = true))
      ∧ (length (polygons [SetColor LAYER_DEVICE_BACKGROUND;
                           PlotPoly corners FILLED_WITH_BG_BODYCOLOR 0;
                           SetColor LAYER_DEVICE; PlotPoly corners NO_FILL 1]) ≤ 2)%nat
      ∧ length [SetColor LAYER_DEVICE_BACKGROUND;
                PlotPoly corners FILLED_WITH_BG_BODYCOLOR 0;
                SetColor LAYER_DEVICE; PlotPoly corners NO_FILL 1]
        = (2 * length (polygons [SetColor LAYER_DEVICE_BACKGROUND;
                                 PlotPoly corners FILLED_WITH_BG_BODYCOLOR 0;
                                 SetColor LAYER_DEVICE; PlotPoly corners NO_FILL 1]))%nat
      ∧ (∀ j c f w,
           [SetColor LAYER_DEVICE_BACKGROUND;
            PlotPoly corners FILLED_WITH_BG_BODYCOLOR 0;
            SetColor LAYER_DEVICE; PlotPoly corners NO_FILL 1] !! j
           = Some (PlotPoly c f w) →
           ∃ layer,
             [SetColor LAYER_DEVICE_BACKGROUND;
              PlotPoly corners FILLED_WITH_BG_BODYCOLOR 0;
              SetColor LAYER_DEVICE; PlotPoly corners NO_FILL 1] !! (j - 1)%nat
             = Some (SetColor layer) ∧ (0 < j)%nat)
      ∧ ([SetColor LAYER_DEVICE_BACKGROUND;
          PlotPoly corners FILLED_WITH_BG_BODYCOLOR 0;
          SetColor LAYER_DEVICE; PlotPoly corners NO_FILL 1] = []
         ↔ FILLED_WITH_BG_BODYCOLOR = FILLED_WITH_BG_BODYCOLOR ∧ true = false
           ∧ GetPenSize st ≤ 0).
Proof.
  split; [reflexivity|].
  apply (@Plot_calls Reference.eeschema FILLED_WITH_BG_BODYCOLOR (mkPoint 100 100) true
           (λ p, mkPoint (x p) (- y p)) (polyline_of triangle)).
  reflexivity.
Defined.

(** A background-filled shape drawn with the minimal pen and without its
    fill leaves no trace on the plot. *)
Example Plot_nothing :
  let H := Reference.eeschema in
  Plot FILLED_WITH_BG_BODYCOLOR (mkPoint 0 0) false (λ p, p)
    (mkPolyline (mkItem 0 (mkPoint 0 0) (mkPoint 0 0)) (-1) triangle 0)
  = Some [].
Proof. reflexivity. Qed.
